(** * remark-github plugin: references, mentions and bare GitHub links

    A shallow embedding of the plugin module (patterns, URL builder, match
    validation, rewriters, text scanner and link normaliser) together with
    the properties established about it.

    JavaScript strings are modelled by [string]; a character is an [ascii]
    (8-bit code unit).  Offsets that the source may take below zero
    ([match.index - 1]) are integers.  The three library collaborators
    ([RegExp], [findAndReplace], [visit]/[toString]) are modelled at their
    interface. *)

From Stdlib Require Import Bool Arith ZArith Lia List Ascii String.
Import ListNotations.
Open Scope string_scope.

(* ================================================================== *)
(** * Strings as the source uses them *)
(* ================================================================== *)

Module Str.

Local Open Scope nat_scope.

(** [s.slice(0, n)] for a non-negative [n]. *)
Fixpoint take (n : nat) (s : string) : string :=
  match n, s with
  | S n', String a s' => String a (take n' s')
  | _, _ => EmptyString
  end.

(** [s.slice(n)] for a non-negative [n]. *)
Fixpoint drop (n : nat) (s : string) : string :=
  match n, s with
  | S n', String _ s' => drop n' s'
  | _, _ => s
  end.

(** [s.slice(i, j)] for [0 <= i <= j]. *)
Definition slice (i j : nat) (s : string) : string :=
  take (j - i) (drop i s).

(** [s.charAt(i)]: the one-character string at [i], or the empty string
    when [i] is out of range (negative offsets included). *)
Definition charAt (s : string) (i : Z) : string :=
  if (i <? 0)%Z then EmptyString else take 1 (drop (Z.to_nat i) s).

(** [Array.prototype.join]: an [undefined] element prints as nothing. *)
Fixpoint join (sep : string) (xs : list (option string)) : string :=
  match xs with
  | [] => EmptyString
  | [x] => match x with Some s => s | None => EmptyString end
  | x :: rest =>
      ((match x with Some s => s | None => EmptyString end)
        ++ sep ++ join sep rest)%string
  end.

(** Does [s] begin with [p]? *)
Fixpoint startsWith (p s : string) : bool :=
  match p, s with
  | EmptyString, _ => true
  | String a p', String b s' => Ascii.eqb a b && startsWith p' s'
  | _, _ => false
  end.

(** [s.split(sep)] for a non-empty separator: the pieces between the
    left-to-right, non-overlapping occurrences of [sep].  [skip] counts
    characters of an occurrence still to be dropped, [cur] is the piece
    being collected (reversed use is avoided by appending). *)
Fixpoint splitAux (sep : string) (skip : nat) (cur : string) (s : string)
  : list string :=
  match s with
  | EmptyString => [cur]
  | String a s' =>
      match skip with
      | S k => splitAux sep k cur s'
      | O =>
          if startsWith sep s
          then cur :: splitAux sep (String.length sep - 1) EmptyString s'
          else splitAux sep 0 (cur ++ String a EmptyString)%string s'
      end
  end.

Definition split (sep s : string) : list string := splitAux sep 0 EmptyString s.

End Str.

(* ================================================================== *)
(** * Regular expressions (the subset of [RegExp] the module uses) *)
(* ================================================================== *)

Module Re.

Local Open Scope nat_scope.

(** Members of a character class. *)
Inductive citem : Type :=
| CChar (c : ascii)            (* a literal character *)
| CRange (lo hi : ascii)       (* [lo-hi] *)
| CDigit                       (* \d *)
| CWord.                       (* \w *)

Inductive regex : Type :=
| Eps
| Chr (c : ascii)
| Cls (neg : bool) (items : list citem)       (* [...] and [^...] *)
| Seq (r1 r2 : regex)
| Alt (r1 r2 : regex)                         (* r1|r2, left first *)
| Rep (lo : nat) (hi : option nat) (r : regex)(* greedy r{lo,hi}; [None] is unbounded *)
| Group (i : nat) (r : regex)                 (* i-th capturing group *)
| Look (neg : bool) (r : regex)               (* (?=r) and (?!r) *)
| Bol                                         (* ^ *)
| Eol.                                        (* $ *)

(** A literal run of characters. *)
Fixpoint lit (s : string) : regex :=
  match s with
  | EmptyString => Eps
  | String a EmptyString => Chr a
  | String a s' => Seq (Chr a) (lit s')
  end.

Definition opt (r : regex) : regex := Rep 0 (Some 1) r.
Definition plus (r : regex) : regex := Rep 1 None r.

(** ** Characters *)

Definition between (lo hi c : ascii) : bool :=
  (nat_of_ascii lo <=? nat_of_ascii c) && (nat_of_ascii c <=? nat_of_ascii hi).

Definition is_digit (c : ascii) : bool := between "0" "9" c.
Definition is_lower (c : ascii) : bool := between "a" "z" c.
Definition is_upper (c : ascii) : bool := between "A" "Z" c.
Definition is_word (c : ascii) : bool :=
  is_lower c || is_upper c || is_digit c || Ascii.eqb c "_".

Definition to_upper (c : ascii) : ascii :=
  if is_lower c then ascii_of_nat (nat_of_ascii c - 32) else c.
Definition to_lower (c : ascii) : ascii :=
  if is_upper c then ascii_of_nat (nat_of_ascii c + 32) else c.

(** Canonicalisation under the [i] flag. *)
Definition canon (ci : bool) (c : ascii) : ascii :=
  if ci then to_upper c else c.

Definition item_matches (ci : bool) (it : citem) (c : ascii) : bool :=
  match it with
  | CChar a => Ascii.eqb (canon ci a) (canon ci c)
  | CRange lo hi =>
      between lo hi c
      || (ci && (between lo hi (to_lower c) || between lo hi (to_upper c)))
  | CDigit => is_digit c
  | CWord => is_word c
  end.

Definition class_matches (ci neg : bool) (items : list citem) (c : ascii) : bool :=
  xorb neg (existsb (fun it => item_matches ci it c) items).

(** ** Backtracking matcher *)

Record MState : Type := mkSt {
  pos : nat;                       (* offset of the next character *)
  rest : string;                   (* input from [pos] on *)
  caps : list (option string)      (* capture groups 1, 2, ... *)
}.

Definition Cont : Type := MState -> option MState.

Fixpoint set_nth (i : nat) (v : option string) (l : list (option string))
  : list (option string) :=
  match i, l with
  | O, _ :: tl => v :: tl
  | O, [] => [v]
  | S i', x :: tl => x :: set_nth i' v tl
  | S i', [] => None :: set_nth i' v []
  end.

Definition advance (st : MState) (s' : string) : MState :=
  mkSt (S (pos st)) s' (caps st).

Definition capture (i : nat) (st st' : MState) : MState :=
  mkSt (pos st') (rest st')
       (set_nth (i - 1) (Some (Str.take (pos st' - pos st) (rest st))) (caps st')).

(** Greedy repetition: at most [n] further iterations of [body], of which
    [lo] are still required; an optional iteration that consumes nothing
    is refused. *)
Fixpoint rep (body : Cont -> MState -> option MState) (lo n : nat)
         (k : Cont) (st : MState) : option MState :=
  match n with
  | O => if lo =? 0 then k st else None
  | S n' =>
      match body (fun st' =>
                    if (lo =? 0) && (pos st' =? pos st) then None
                    else rep body (Nat.pred lo) n' k st') st with
      | Some r => Some r
      | None => if lo =? 0 then k st else None
      end
  end.

(** [run ci r k st]: match [r] at [st] and hand the state after it to the
    continuation [k]; when [k] fails, the next way of matching [r] is tried
    (longer repetitions before shorter, left alternatives before right).
    [ci] is the [i] flag. *)
Fixpoint run (ci : bool) (r : regex) (k : Cont) (st : MState) {struct r}
  : option MState :=
  match r with
  | Eps => k st
  | Chr c =>
      match rest st with
      | String a s' =>
          if Ascii.eqb (canon ci c) (canon ci a) then k (advance st s') else None
      | EmptyString => None
      end
  | Cls neg items =>
      match rest st with
      | String a s' =>
          if class_matches ci neg items a then k (advance st s') else None
      | EmptyString => None
      end
  | Seq r1 r2 => run ci r1 (fun st' => run ci r2 k st') st
  | Alt r1 r2 =>
      match run ci r1 k st with
      | Some x => Some x
      | None => run ci r2 k st
      end
  | Rep lo hi r' =>
      let n := match hi with
               | Some h => h
               | None => lo + String.length (rest st)
               end in
      rep (run ci r') lo n k st
  | Group i r' => run ci r' (fun st' => k (capture i st st')) st
  | Look neg r' =>
      match run ci r' Some st with
      | Some st' => if neg then None else k (mkSt (pos st) (rest st) (caps st'))
      | None => if neg then k st else None
      end
  | Bol => if pos st =? 0 then k st else None
  | Eol => match rest st with EmptyString => k st | _ => None end
  end.

(** ** [exec] and [test] *)

(** What [exec] returns: [index], [match[0]] and the groups
    [match[1]], [match[2]], ... ([None] is [undefined]). *)
Record Match : Type := mkMatch {
  index : nat;
  whole : string;
  groups : list (option string)
}.

Definition group (m : Match) (i : nat) : option string :=
  nth (i - 1) (groups m) None.

(** End offset of a match: the [lastIndex] a global pattern is left at. *)
Definition endIndex (m : Match) : nat := index m + String.length (whole m).

(** Leftmost match at or after offset [p], where [s] is the input from [p]. *)
Fixpoint search (ci : bool) (r : regex) (ngroups : nat) (p : nat) (s : string)
  : option Match :=
  match run ci r Some (mkSt p s (repeat None ngroups)) with
  | Some st' => Some (mkMatch p (Str.take (pos st' - p) s) (caps st'))
  | None =>
      match s with
      | EmptyString => None
      | String _ s' => search ci r ngroups (S p) s'
      end
  end.

(** A compiled pattern: its flags, its number of groups and its body. *)
Record RegExp : Type := mkRegExp {
  ignoreCase : bool;
  global : bool;
  ngroups : nat;
  body : regex
}.

(** [re.exec(s)] with [re.lastIndex = lastIndex] (always [0] for a
    pattern without the [g] flag). *)
Definition exec (re : RegExp) (s : string) (lastIndex : nat) : option Match :=
  let from := if global re then lastIndex else 0 in
  if String.length s <? from then None
  else search (ignoreCase re) (body re) (ngroups re) from (Str.drop from s).

(** [re.test(s)] for a pattern without the [g] flag. *)
Definition test (re : RegExp) (s : string) : bool :=
  match exec re s 0 with Some _ => true | None => false end.

(** ** What a successful run says about the input

    [den r st st'] relates the state before to the state after a
    successful match of [r].  It forgets the order in which the
    backtracking matcher tries alternatives and reads a negative
    lookahead as no constraint, so it over-approximates [run]: it is the
    reasoning principle for facts that hold of every match. *)

Fixpoint iter (d : MState -> MState -> Prop) (n : nat) (st st' : MState) : Prop :=
  match n with
  | O => st' = st
  | S n' => exists mid, d st mid /\ iter d n' mid st'
  end.

Fixpoint den (ci : bool) (r : regex) (st st' : MState) {struct r} : Prop :=
  match r with
  | Eps => st' = st
  | Chr c =>
      exists a s', rest st = String a s'
                   /\ Ascii.eqb (canon ci c) (canon ci a) = true
                   /\ st' = advance st s'
  | Cls neg items =>
      exists a s', rest st = String a s'
                   /\ class_matches ci neg items a = true
                   /\ st' = advance st s'
  | Seq r1 r2 => exists mid, den ci r1 st mid /\ den ci r2 mid st'
  | Alt r1 r2 => den ci r1 st st' \/ den ci r2 st st'
  | Rep lo hi r' =>
      exists n, lo <= n
                /\ match hi with Some h => n <= h | None => True end
                /\ iter (den ci r') n st st'
  | Group i r' => exists mid, den ci r' st mid /\ st' = capture i st mid
  | Look neg r' =>
      if neg then st' = st
      else exists x, den ci r' st x /\ st' = mkSt (pos st) (rest st) (caps x)
  | Bol => pos st = 0 /\ st' = st
  | Eol => rest st = EmptyString /\ st' = st
  end.

(** Fewest characters a match of [r] consumes. *)
Fixpoint minlen (r : regex) : nat :=
  match r with
  | Chr _ | Cls _ _ => 1
  | Seq r1 r2 => minlen r1 + minlen r2
  | Alt r1 r2 => Nat.min (minlen r1) (minlen r2)
  | Rep lo _ r' => lo * minlen r'
  | Group _ r' => minlen r'
  | Eps | Look _ _ | Bol | Eol => 0
  end.

(** Positions of [caps] the groups of [r] write to. *)
Fixpoint slots (r : regex) : list nat :=
  match r with
  | Seq r1 r2 | Alt r1 r2 => slots r1 ++ slots r2
  | Rep _ _ r' | Look _ r' => slots r'
  | Group i r' => (i - 1) :: slots r'
  | Eps | Chr _ | Cls _ _ | Bol | Eol => []
  end.

(** Every character of [s] satisfies [P]. *)
Fixpoint Sall (P : ascii -> Prop) (s : string) : Prop :=
  match s with
  | EmptyString => True
  | String a s' => P a /\ Sall P s'
  end.

(** ** Vocabulary for what a pattern accepts *)

(** Every character a match of [r] consumes satisfies [P]. *)
Fixpoint accepts (ci : bool) (P : ascii -> Prop) (r : regex) : Prop :=
  match r with
  | Chr c => forall a, Ascii.eqb (canon ci c) (canon ci a) = true -> P a
  | Cls neg items => forall a, class_matches ci neg items a = true -> P a
  | Seq r1 r2 | Alt r1 r2 => accepts ci P r1 /\ accepts ci P r2
  | Rep _ _ r' | Group _ r' => accepts ci P r'
  | Eps | Look _ _ | Bol | Eol => True
  end.

(** [s] in capitals, the form in which the [i] flag compares. *)
Definition upper (s : string) : string :=
  string_of_list_ascii (map to_upper (list_ascii_of_string s)).

(** Does [c] occur in [s]? *)
Fixpoint hasChar (c : ascii) (s : string) : bool :=
  match s with
  | EmptyString => false
  | String a s' => Ascii.eqb a c || hasChar c s'
  end.

(** ** A way through the pattern

    [way ci r p s p' s'] describes one way of matching [r] on the input [s]
    at offset [p] that leaves [s'] at offset [p']: every repetition moves
    forward and a negative lookahead holds when the matcher finds nothing.
    Where there is a way on which the rest of the pattern succeeds, [run]
    finds a match (lemma [run_complete]); this is the reasoning principle
    for showing that a pattern accepts a text. *)
Fixpoint iterw (d : nat -> string -> nat -> string -> Prop) (n : nat)
         (p : nat) (s : string) (p' : nat) (s' : string) : Prop :=
  match n with
  | O => p' = p /\ s' = s
  | S n' => exists p1 s1, d p s p1 s1 /\ p < p1 /\ iterw d n' p1 s1 p' s'
  end.

Fixpoint way (ci : bool) (r : regex) (p : nat) (s : string) (p' : nat) (s' : string)
         {struct r} : Prop :=
  match r with
  | Eps => p' = p /\ s' = s
  | Chr c =>
      exists a, s = String a s' /\ Ascii.eqb (canon ci c) (canon ci a) = true /\ p' = S p
  | Cls neg items =>
      exists a, s = String a s' /\ class_matches ci neg items a = true /\ p' = S p
  | Seq r1 r2 => exists p1 s1, way ci r1 p s p1 s1 /\ way ci r2 p1 s1 p' s'
  | Alt r1 r2 => way ci r1 p s p' s' \/ way ci r2 p s p' s'
  | Rep lo hi r' =>
      exists n, lo <= n
                /\ match hi with Some h => n <= h | None => True end
                /\ iterw (way ci r') n p s p' s'
  | Group _ r' => way ci r' p s p' s'
  | Look neg r' =>
      p' = p /\ s' = s
      /\ if neg then forall c, run ci r' Some (mkSt p s c) = None
         else exists p1 s1, way ci r' p s p1 s1
  | Bol => p = 0 /\ p' = p /\ s' = s
  | Eol => s = EmptyString /\ p' = p /\ s' = s
  end.

(** ** A forced path through a repetition

    [body] is the matcher of the repeated pattern. *)
Section Forced.
Variable body : Cont -> MState -> option MState.

(** [body] takes the character [a] in front of [s], whatever follows in
    the pattern. *)
Definition hits (a : ascii) (s : string) : Prop :=
  forall p c (k : Cont), body k (mkSt p (String a s) c) = k (mkSt (S p) s c).

(** [body] cannot start on [s]. *)
Definition misses (s : string) : Prop :=
  forall p c (k : Cont), body k (mkSt p s c) = None.

(** [body] takes every character of [u] and cannot start on [r]. *)
Fixpoint forced (u r : string) : Prop :=
  match u with
  | EmptyString => misses r
  | String a u' => hits a (u' ++ r) /\ forced u' r
  end.
End Forced.

End Re.

(* ================================================================== *)
(** * The syntax tree *)
(* ================================================================== *)

(** The node kinds the plugin distinguishes.  [parent] and [literal] stand
    for every other kind with, respectively without, children (root,
    paragraph, emphasis, ... and html, code, ...); their [kind] is a type
    name other than the five named here. *)
Unset Elimination Schemes.
Inductive Node : Type :=
| text (value : string)
| inlineCode (value : string)
| strong (children : list Node)
| link (url : string) (title : option string) (children : list Node)
| linkReference (children : list Node)
| parent (kind : string) (children : list Node)
| literal (kind : string) (value : string).
Set Elimination Schemes.

(** Induction over a tree, with the property available for every child. *)
Section NodeInd.
Variable P : Node -> Prop.
Hypothesis Htext : forall v, P (text v).
Hypothesis Hcode : forall v, P (inlineCode v).
Hypothesis Hstrong : forall c, Forall P c -> P (strong c).
Hypothesis Hlink : forall u t c, Forall P c -> P (link u t c).
Hypothesis Hlinkref : forall c, Forall P c -> P (linkReference c).
Hypothesis Hparent : forall k c, Forall P c -> P (parent k c).
Hypothesis Hliteral : forall k v, P (literal k v).

Fixpoint Node_ind (n : Node) : P n :=
  let all := fix all (l : list Node) : Forall P l :=
               match l with
               | [] => Forall_nil P
               | x :: tl => Forall_cons x (Node_ind x) (all tl)
               end in
  match n with
  | text v => Htext v
  | inlineCode v => Hcode v
  | strong c => Hstrong c (all c)
  | link u t c => Hlink u t c (all c)
  | linkReference c => Hlinkref c (all c)
  | parent k c => Hparent k c (all c)
  | literal k v => Hliteral k v
  end.
End NodeInd.

Definition isText (n : Node) : bool :=
  match n with text _ => true | _ => false end.

(** [node.url], or the empty string when there is none. *)
Definition urlOf (n : Node) : string :=
  match n with link u _ _ => u | _ => EmptyString end.

Definition childrenOf (n : Node) : list Node :=
  match n with
  | strong c | link _ _ c | linkReference c | parent _ c => c
  | _ => []
  end.

(** Modelled from the spec: [toString] of mdast-util-to-string, the text
    content of a node: its own value, else the concatenation of the text
    content of its children. *)
Fixpoint toString (n : Node) : string :=
  match n with
  | text v | inlineCode v | literal _ v => v
  | strong c | link _ _ c | linkReference c | parent _ c =>
      fold_right (fun x acc => toString x ++ acc) EmptyString c
  end.

(** The text content of a list of siblings. *)
Definition contents (l : list Node) : string :=
  fold_right (fun x acc => toString x ++ acc)%string EmptyString l.

(** The texts of a tree outside links and link references, in document
    order: the ones a text scan that ignores those two kinds visits. *)
Fixpoint texts (n : Node) : list string :=
  match n with
  | text v => [v]
  | strong c | parent _ c => flat_map texts c
  | link _ _ _ | linkReference _ | inlineCode _ | literal _ _ => []
  end.

(** The targets and titles of the links of a tree, in document order. *)
Fixpoint links (n : Node) : list (string * option string) :=
  match n with
  | link url title c => (url, title) :: flat_map links c
  | strong c | linkReference c | parent _ c => flat_map links c
  | text _ | inlineCode _ | literal _ _ => []
  end.

(* ================================================================== *)
(** * The plugin *)
(* ================================================================== *)

Module Github.

Import Re.
Local Open Scope nat_scope.

(** ** Constants and patterns *)

Definition denyMention : list string := ["mention"; "mentions"].
Definition denied (username : string) : bool :=
  existsb (String.eqb username) denyMention.

Definition minShaLength : nat := 7.

Fixpoint seqs (rs : list regex) : regex :=
  match rs with
  | [] => Eps
  | [r] => r
  | r :: tl => Seq r (seqs tl)
  end.

(** ["[\\da-z][-\\da-z]{0,38}"] *)
Definition userGroup : regex :=
  Seq (Cls false [CDigit; CRange "a" "z"])
      (Rep 0 (Some 38) (Cls false [CChar "-"; CDigit; CRange "a" "z"])).

(** ["(?:\\.git[\\w-]|\\.(?!git)|[\\w-])+"] *)
Definition projectGroup : regex :=
  plus (Alt (Seq (lit ".git") (Cls false [CWord; CChar "-"]))
       (Alt (Seq (Chr ".") (Look true (lit "git")))
            (Cls false [CWord; CChar "-"]))).

(** ["(" + userGroup + ")\\/(" + projectGroup + ")"] *)
Definition repoGroup : regex :=
  seqs [Group 1 userGroup; Chr "/"; Group 2 projectGroup].

(** [[a-f\d]] *)
Definition hexClass : regex := Cls false [CRange "a" "f"; CDigit].

Definition linkRegex : RegExp :=
  mkRegExp true false 4
    (seqs [Bol; lit "http"; opt (Chr "s"); lit "://github.com/";
           repoGroup; Chr "/";
           Group 3 (Alt (lit "commit")
                   (Alt (lit "compare") (Alt (lit "issues") (lit "pull"))));
           Chr "/";
           Group 4 (seqs [plus hexClass;
                          opt (Seq (Rep 3 (Some 3) (Chr ".")) (plus hexClass));
                          opt (Chr "/");
                          Look false (Alt (Cls false [CChar "#"; CChar "?"]) Eol)])]).

Definition referenceRegex : RegExp :=
  mkRegExp true true 4
    (seqs [Group 1 userGroup;
           opt (Seq (Chr "/") (Group 2 projectGroup));
           Alt (Seq (Chr "#")
                    (Group 3 (Seq (Cls false [CRange "1" "9"])
                                  (Rep 0 None (Cls false [CDigit])))))
               (Seq (Chr "@") (Group 4 (Rep 7 (Some 40) hexClass)))]).

Definition mentionRegex : RegExp :=
  mkRegExp true true 1
    (Seq (Chr "@")
         (Group 1 (Seq userGroup (opt (Seq (Chr "/") userGroup))))).

(** The literal patterns of the validators. *)

(** [/[\w`]/] *)
Definition reWordTick : RegExp :=
  mkRegExp false false 0 (Cls false [CWord; CChar "`"]).
(** [/[/\w`]/] *)
Definition reSlashWordTick : RegExp :=
  mkRegExp false false 0 (Cls false [CChar "/"; CWord; CChar "`"]).
(** [/[^\t\n\r (@[{]/] *)
Definition reNotOpening : RegExp :=
  mkRegExp false false 0
    (Cls true [CChar "009"; CChar "010"; CChar "013"; CChar " ";
               CChar "("; CChar "@"; CChar "["; CChar "{"]).
(** [/\w/] *)
Definition reWord : RegExp := mkRegExp false false 0 (Cls false [CWord]).
(** [/^[a-f\d]{4,40}\.{3}[a-f\d]{4,40}$/] *)
Definition reCompare : RegExp :=
  mkRegExp false false 0
    (seqs [Bol; Rep 4 (Some 40) hexClass; Rep 3 (Some 3) (Chr ".");
           Rep 4 (Some 40) hexClass; Eol]).
(** [/[a-f]/i] *)
Definition reHexLetter : RegExp :=
  mkRegExp true false 0 (Cls false [CRange "a" "f"]).

(** ** Configuration and the URL builder *)

Inductive BuildUrlValues : Type :=
| commit (user : string) (project : option string) (hash : string)
| compare (user : string) (project : option string) (base compare : string)
| issue (user : string) (project : option string) (no : string)
| mention (user : string).

(** The source calls the hook as a method of the options object,
    [options.buildUrl(values, defaultBuildUrl)], so inside the hook [this]
    is that object.  [Receiver] is what the hook can read of it: its data
    properties [repository] and [mentionStrong] (its third property is the
    hook itself). *)
Record Receiver : Type := mkReceiver {
  thisRepository : option string;
  thisMentionStrong : option bool
}.

(** The [buildUrl] hook: called on its receiver with the value and the
    default builder, it returns a string or [false] ([None]). *)
Definition BuildUrl : Type :=
  Receiver -> BuildUrlValues -> (BuildUrlValues -> string) -> option string.

Record Options : Type := mkOptions {
  repository : option string;
  mentionStrong : option bool;
  buildUrlHook : option BuildUrl
}.

(** The options object as the receiver of a method call. *)
Definition receiver (options : Options) : Receiver :=
  mkReceiver (repository options) (mentionStrong options).

Definition noOptions : Options := mkOptions None None None.

Definition abbr (sha : string) : string := Str.take minShaLength sha.

Definition defaultBuildUrl (values : BuildUrlValues) : string :=
  let base := "https://github.com"%string in
  match values with
  | mention user => Str.join "/" [Some base; Some user]
  | commit user project hash =>
      Str.join "/" [Some base; Some user; project; Some "commit"%string; Some hash]
  | issue user project no =>
      Str.join "/" [Some base; Some user; project; Some "issues"%string; Some no]
  | compare user project b c =>
      Str.join "/" [Some base; Some user; project; Some "compare"%string;
                    Some (b ++ "..." ++ c)%string]
  end.

(** Calls of the configured hook are an effect of the rewriters: a
    computation returns its value together with the hook's arguments, in
    the order the hook was called. *)
Definition Calls (A : Type) : Type := (A * list BuildUrlValues)%type.

Definition ret {A} (a : A) : Calls A := (a, []).
Definition bind {A B} (c : Calls A) (f : A -> Calls B) : Calls B :=
  let (a, l1) := c in let (b, l2) := f a in (b, (l1 ++ l2)%list).

Notation "x <- c ;; k" := (bind c (fun x => k))
  (at level 61, c at next level, right associativity).

Definition buildUrl (options : Options) (values : BuildUrlValues)
  : Calls (option string) :=
  match buildUrlHook options with
  | Some hook => (hook (receiver options) values defaultBuildUrl, [values])
  | None => ret (Some (defaultBuildUrl values))
  end.

(** JavaScript truthiness of a [string | false] or [string | undefined]. *)
Definition truthy (v : option string) : bool :=
  match v with
  | Some s => negb (String.eqb s EmptyString)
  | None => false
  end.

(** ** Rewriters *)

(** The match object handed to a replace function. *)
Record MatchInfo : Type := mkInfo { input : string; offset : Z }.

(** [replaceMention(value, username, match)]: [false] ([None]) or the link
    that takes the place of the mention. *)
Definition replaceMention (options : Options)
           (value username : string) (mt : MatchInfo) : Calls (option Node) :=
  if test reWordTick (Str.charAt (input mt) (offset mt - 1))
     || test reSlashWordTick
             (Str.charAt (input mt) (offset mt + Z.of_nat (String.length value)))
     || denied username
  then ret None
  else
    url <- buildUrl options (mention username) ;;
    if negb (truthy url) then ret None
    else
      let node := text value in
      let node := match mentionStrong options with
                  | Some false => node
                  | _ => strong [node]
                  end in
      ret (Some (link (match url with Some u => u | None => EmptyString end)
                      None [node])).

(** [replaceReference($0, user, specificProject, no, hash, match)], with
    [all] for [$0].  A group that took no part in the match is [undefined]
    ([None]); of [no] and [hash] the pattern always captures exactly one
    (lemma [reference_groups]), so [hash] is there whenever it is read. *)
Definition replaceReference (options : Options)
           (all user : string) (specificProject no hash : option string)
           (mt : MatchInfo) : Calls (option Node) :=
  if test reNotOpening (Str.charAt (input mt) (offset mt - 1))
     || test reWord (Str.charAt (input mt) (offset mt + Z.of_nat (String.length all)))
  then ret None
  else
    let project := specificProject in
    url <- (if truthy no
            then buildUrl options
                   (issue user project (match no with Some n => n | None => EmptyString end))
            else buildUrl options
                   (commit user project (match hash with Some h => h | None => EmptyString end))) ;;
    if negb (truthy url) then ret None
    else
      let nodes :=
        if truthy no
        then [text ("#" ++ match no with Some n => n | None => EmptyString end)]
        else [text "@";
              inlineCode (abbr (match hash with Some h => h | None => EmptyString end))] in
      ret (Some (link (match url with Some u => u | None => EmptyString end)
                      None nodes)).

(** ** Parsing an existing link *)

Record ParsedLink : Type := mkParsed {
  user : string;
  project : string;
  page : string;
  reference : string;
  comment : bool
}.

(** [match[i]] of a group that took part in the match. *)
Definition grp (m : Match) (i : nat) : string :=
  match group m i with Some s => s | None => EmptyString end.

Definition parse (node : Node) : option ParsedLink :=
  let url := urlOf node in
  match exec linkRegex url 0 with
  | None => None
  | Some m =>
      if negb (List.length (childrenOf node) =? 1)
         || negb (isText (nth 0 (childrenOf node) (literal EmptyString EmptyString)))
         || negb (String.eqb (toString node) url)
         || (String.eqb (grp m 3) "commit"
             && ((String.length (grp m 4) <? 4) || (40 <? String.length (grp m 4))))
         || (String.eqb (grp m 3) "compare" && negb (test reCompare (grp m 4)))
         || ((String.eqb (grp m 3) "issues" || String.eqb (grp m 3) "pull")
             && test reHexLetter (grp m 4))
         || (100 <=? String.length (grp m 2))
      then None
      else
        let reference := grp m 4 in
        let reference :=
          if String.eqb (grp m 3) "compare"
          then match Str.split "..." reference with
               | base :: compare' :: _ => (abbr base ++ "..." ++ abbr compare')%string
               | _ => reference
               end
          else abbr reference in
        Some (mkParsed (grp m 1) (grp m 2) (grp m 3) reference
                (String.eqb (Str.charAt url (Z.of_nat (String.length (whole m)))) "#"
                 && (String.length (whole m) + 1 <? String.length url)))
  end.

(** ** The parts of [parse], named for the proofs *)

(** The link is a bare autolink: one child, a text, equal to the URL. *)
Definition bare (n : Node) : bool :=
  (List.length (childrenOf n) =? 1)
  && isText (nth 0 (childrenOf n) (literal EmptyString EmptyString))
  && String.eqb (toString n) (urlOf n).

(** The length and format checks on the groups of the match. *)
Definition invalid (m : Match) : bool :=
  (String.eqb (grp m 3) "commit"
     && ((String.length (grp m 4) <? 4) || (40 <? String.length (grp m 4))))
  || (String.eqb (grp m 3) "compare" && negb (test reCompare (grp m 4)))
  || ((String.eqb (grp m 3) "issues" || String.eqb (grp m 3) "pull")
        && test reHexLetter (grp m 4))
  || (100 <=? String.length (grp m 2)).

(** What [parse] returns once it has accepted the link. *)
Definition parsed (url : string) (m : Match) : ParsedLink :=
  let reference := grp m 4 in
  let reference :=
    if String.eqb (grp m 3) "compare"
    then match Str.split "..." reference with
         | base :: compare' :: _ => (abbr base ++ "..." ++ abbr compare')%string
         | _ => reference
         end
    else abbr reference in
  mkParsed (grp m 1) (grp m 2) (grp m 3) reference
    (String.eqb (Str.charAt url (Z.of_nat (String.length (whole m)))) "#"
     && (String.length (whole m) + 1 <? String.length url)).

(** Apply [g] to the value of a computation, keeping its calls. *)
Definition cmap {A B} (g : A -> B) (c : Calls A) : Calls B := (g (fst c), snd c).

(** A character [[a-f\d]] accepts without the [i] flag. *)
Definition lowerHex (a : ascii) : Prop :=
  class_matches false false [CRange "a" "f"; CDigit] a = true.

(** The children the link visitor gives a parsed link. *)
Definition display (l : ParsedLink) : list Node :=
  let comment' := if comment l then " (comment)"%string else EmptyString in
  let base := user l in
  if String.eqb (page l) "issues" || String.eqb (page l) "pull"
  then [text ((base ++ "#") ++ reference l ++ comment')%string]
  else
    ((if truthy (Some base) then [text (base ++ "@")%string] else [])
       ++ [inlineCode (reference l)]
       ++ (if comment l then [text comment'] else []))%list.

(** Modelled from the spec: [visit(tree, "link", visitor)] of
    unist-util-visit, a pre-order walk calling the visitor on every link
    node and then descending into the node's children as the visitor left
    them.  The visitor either leaves a link alone or replaces its
    children by [display], which has only text and code leaves: there is
    nothing below them to walk. *)
Fixpoint visitLinks (n : Node) : Node :=
  match n with
  | link url title children =>
      match parse n with
      | Some l => link url title (display l)
      | None => link url title (map visitLinks children)
      end
  | strong children => strong (map visitLinks children)
  | linkReference children => linkReference (map visitLinks children)
  | parent kind children => parent kind (map visitLinks children)
  | text _ | inlineCode _ | literal _ _ => n
  end.

(** The normaliser leaves [n] as it is. *)
Definition settled (n : Node) : Prop := visitLinks n = n.

(** ** Scanning text *)

(** A replace function: called with the match and the text it was found
    in, it answers [false] ([None]) or the node to put in its place. *)
Definition ReplaceFunction : Type := Match -> string -> Calls (option Node).

Definition mentionReplacer (options : Options) : ReplaceFunction :=
  fun m value =>
    replaceMention options (whole m) (grp m 1)
                   (mkInfo value (Z.of_nat (index m))).

Definition referenceReplacer (options : Options) : ReplaceFunction :=
  fun m value =>
    replaceReference options (whole m) (grp m 1) (group m 2) (group m 3)
                     (group m 4) (mkInfo value (Z.of_nat (index m))).

(** Modelled from the spec: the handler of mdast-util-find-and-replace
    for one text value and one [find, replace] pair.  The global pattern
    is run from [lastIndex]; an accepted match closes the pending plain
    span [start, position) and appends the replacement, a refused one is
    skipped.  Every match of the patterns used here is non-empty, so
    [lastIndex] grows and the [length + 1] rounds [handler] allows are
    enough (lemma [handler_fuel]). *)
Fixpoint handlerLoop (fuel : nat) (find : RegExp) (replace : ReplaceFunction)
         (value : string) (lastIndex start : nat) (nodes : list Node)
         (change : bool) : Calls (list Node * nat * bool) :=
  match fuel with
  | O => ret (nodes, start, change)
  | S fuel' =>
      match exec find value lastIndex with
      | None => ret (nodes, start, change)
      | Some m =>
          let position := index m in
          r <- replace m value ;;
          match r with
          | Some new =>
              let nodes :=
                (if start =? position then nodes
                 else nodes ++ [text (Str.slice start position value)])%list in
              handlerLoop fuel' find replace value (endIndex m)
                          (position + String.length (whole m))
                          (nodes ++ [new])%list true
          | None =>
              handlerLoop fuel' find replace value (endIndex m) start nodes change
          end
      end
  end.

Definition handler (find : RegExp) (replace : ReplaceFunction) (value : string)
  : Calls (list Node) :=
  r <- handlerLoop (S (String.length value)) find replace value 0 0 [] false ;;
  let '(nodes, start, change) := r in
  if change
  then ret (if start <? String.length value
            then nodes ++ [text (Str.drop start value)]
            else nodes)%list
  else ret [text value].

(** Modelled from the spec: one pass of [findAndReplace] with
    [ignore: ["link", "linkReference"]]: every text node that has a parent
    and no ignored ancestor is handed to [handler], in document order,
    and the nodes it returns take its place among its siblings. *)
Section Children.
Variable onText : string -> Calls (list Node).
Variable onNode : Node -> Calls Node.

Definition passChildren : list Node -> Calls (list Node) :=
  fix children (l : list Node) : Calls (list Node) :=
    match l with
    | [] => ret []
    | text value :: tl =>
        ns <- onText value ;;
        tl' <- children tl ;;
        ret (ns ++ tl')%list
    | c :: tl =>
        c' <- onNode c ;;
        tl' <- children tl ;;
        ret (c' :: tl')
    end.
End Children.

Fixpoint pass (find : RegExp) (replace : ReplaceFunction) (n : Node) : Calls Node :=
  match n with
  | strong c =>
      c' <- passChildren (handler find replace) (pass find replace) c ;;
      ret (strong c')
  | parent kind c =>
      c' <- passChildren (handler find replace) (pass find replace) c ;;
      ret (parent kind c')
  | link _ _ _ | linkReference _ => ret n
  | text _ | inlineCode _ | literal _ _ => ret n
  end.

(** ** The transform *)

(** The text scanner: references first, then mentions. *)
Definition textScanner (options : Options) (tree : Node) : Calls Node :=
  t <- pass referenceRegex (referenceReplacer options) tree ;;
  pass mentionRegex (mentionReplacer options) t.

(** The existing-link normaliser. *)
Definition linkNormalizer (tree : Node) : Node := visitLinks tree.

Definition remarkGithub (options : Options) (tree : Node) : Calls Node :=
  t <- textScanner options tree ;;
  ret (linkNormalizer t).

(** ** Vocabulary of the properties *)

(** The two boundary tests of [replaceMention] let the match through. *)
Definition validMention (value : string) (mt : MatchInfo) : Prop :=
  test reWordTick (Str.charAt (input mt) (offset mt - 1)) = false
  /\ test reSlashWordTick
       (Str.charAt (input mt) (offset mt + Z.of_nat (String.length value))) = false.

(** The two boundary tests of [replaceReference] let the match through. *)
Definition validReference (all : string) (mt : MatchInfo) : Prop :=
  test reNotOpening (Str.charAt (input mt) (offset mt - 1)) = false
  /\ test reWord (Str.charAt (input mt) (offset mt + Z.of_nat (String.length all))) = false.

(** What the groups [no] and [hash] of a reference match hold: an issue
    number and no hash, or a hash of at least seven characters and no
    issue number. *)
Inductive captured : option string -> option string -> Prop :=
| capturedIssue (no : string) : no <> EmptyString -> captured (Some no) None
| capturedHash (hash : string) :
    minShaLength <= String.length hash -> captured None (Some hash).

(** The value [replaceReference] hands to the URL builder. *)
Definition referenceValue (user : string) (project no hash : option string)
  : BuildUrlValues :=
  match no, hash with
  | Some n, _ => issue user project n
  | None, Some h => commit user project h
  | None, None => commit user project EmptyString
  end.

(** The children [replaceReference] gives the link it makes. *)
Definition referenceDisplay (no hash : option string) : list Node :=
  match no, hash with
  | Some n, _ => [text ("#" ++ n)]
  | None, Some h => [text "@"; inlineCode (abbr h)]
  | None, None => []
  end.

(** A scanning pattern whose matches are never empty. *)
Definition productive (find : RegExp) : Prop :=
  global find = true /\ 1 <= minlen (body find).


(** The rewriter answered with a link to [url] that has no title. *)
Definition linked (r : option Node) (url : string) : Prop :=
  exists children, r = Some (link url None children).

(** ** Configurations and nodes used as examples *)

(** A hook that answers every value with the empty string. *)
Definition emptyUrlOptions : Options :=
  mkOptions None None (Some (fun _ _ _ => Some EmptyString)).

(** The hook of the demonstration application: no link for mentions, the
    default URL for everything else. *)
Definition appOptions : Options :=
  mkOptions None None
    (Some (fun _ values defaultBuildUrl =>
             match values with
             | mention _ => None
             | _ => Some (defaultBuildUrl values)
             end)).

(** A bare autolink to an issue page spelt in capitals, with letters where
    the number should be. *)
Definition upperIssueLink : Node :=
  link "https://github.com/u/p/ISSUES/abc" None
       [text "https://github.com/u/p/ISSUES/abc"].

(** A bare autolink to a commit with a hash of three characters and a
    closing slash. *)
Definition slashCommitLink : Node :=
  link "https://github.com/u/p/commit/abc/" None
       [text "https://github.com/u/p/commit/abc/"].

(** A bare autolink to the commit with the six-character hash [abcdef],
    written with a closing slash. *)
Definition slashHashLink : Node :=
  link "https://github.com/u/p/commit/abcdef/" None
       [text "https://github.com/u/p/commit/abcdef/"].

(** A bare autolink to a comparison whose page segment is spelt with a
    capital. *)
Definition capitalCompareLink : Node :=
  link "https://github.com/u/p/Compare/abcdef1234567...1234567890" None
       [text "https://github.com/u/p/Compare/abcdef1234567...1234567890"].

(** A bare autolink to a commit page whose payload is a range. *)
Definition rangeCommitLink : Node :=
  link "https://github.com/u/p/commit/ab...1" None
       [text "https://github.com/u/p/commit/ab...1"].

(** A hook that reads the options object it is called on,
    [function (values, d) { return this.repository ? d(values) : false }]:
    the default URL when a repository is configured, no link otherwise. *)
Definition repositoryHook : BuildUrl :=
  fun this values defaultBuildUrl =>
    if truthy (thisRepository this) then Some (defaultBuildUrl values) else None.


(** ** Vocabulary for the shape of names, URLs and boundaries *)

(** The characters of the classes the patterns use, read with the [i]
    flag: [[\da-z]], [[-\da-z]], [[\w.-]] and [[a-f\d]]. *)
Definition isAlnum (a : ascii) : bool := is_digit a || is_lower a || is_upper a.
Definition isUserChar (a : ascii) : bool := isAlnum a || Ascii.eqb a "-".
Definition isProjectChar (a : ascii) : bool :=
  is_word a || Ascii.eqb a "-" || Ascii.eqb a ".".
Definition isHex (a : ascii) : bool :=
  is_digit a || between "a" "f" a || between "A" "F" a.

(** The shape of a user name: a letter or digit, then up to 38 letters,
    digits or hyphens. *)
Definition userShape (user : string) : Prop :=
  exists a u, user = String a u /\ String.length u <= 38
              /\ isAlnum a = true /\ Sall (fun c => isUserChar c = true) u.

(** The shape of a project name: one or more word characters, hyphens or
    dots. *)
Definition projectShape (project : string) : Prop :=
  1 <= String.length project /\ Sall (fun c => isProjectChar c = true) project.

(** The page segment of a link: one of the four words, in either case. *)
Definition pageWord (page : string) : Prop :=
  upper page = "COMMIT" \/ upper page = "COMPARE"
  \/ upper page = "ISSUES" \/ upper page = "PULL".

(** The shape of the payload group of the link pattern: hexadecimal
    digits, optionally three dots and more digits, optionally a slash. *)
Definition payloadShape (payload : string) : Prop :=
  exists h1 range slash,
    payload = (h1 ++ range ++ slash)%string
    /\ 1 <= String.length h1 /\ Sall (fun c => isHex c = true) h1
    /\ (range = EmptyString
        \/ exists h2, range = ("..." ++ h2)%string
                      /\ 1 <= String.length h2 /\ Sall (fun c => isHex c = true) h2)
    /\ (slash = EmptyString \/ slash = "/").

(** The characters [replaceReference] allows in front of a reference:
    the members of the class [[^\t\n\r (@[{]] negates. *)
Definition openers : list ascii :=
  ["009"; "010"; "013"; " "; "("; "@"; "["; "{"]%char.

(** The three characters at the head of [s] spell [git], in either case. *)
Definition gitAhead (s : string) : bool :=
  match s with
  | String a (String b (String c _)) =>
      Ascii.eqb (to_upper a) "G" && Ascii.eqb (to_upper b) "I"
      && Ascii.eqb (to_upper c) "T"
  | _ => false
  end.

(** A project name of word characters, hyphens and dots in which no dot is
    followed by [git]. *)
Fixpoint plainProject (s : string) : Prop :=
  match s with
  | EmptyString => True
  | String a s' =>
      (is_word a = true \/ a = "-"%char \/ (a = "."%char /\ gitAhead s' = false))
      /\ plainProject s'
  end.

(** ** Vocabulary for a text with one mention or one reference *)

(** A character that is neither [#] nor [@]. *)
Definition unmarked (a : ascii) : Prop := ~ (a = "#"%char \/ a = "@"%char).

(** The text in front of a mention lets it through and cannot be the end
    of a reference: it is empty or ends in a character outside
    [[\w.-]] other than a backtick. *)
Definition clearBefore (pre : string) : Prop :=
  pre = EmptyString
  \/ exists p a, pre = (p ++ String a EmptyString)%string
                 /\ isProjectChar a = false /\ a <> "`"%char.

(** The text behind a mention ends the name and lets the mention through:
    it is empty or begins with a character that is no word character,
    hyphen, slash or backtick. *)
Definition clearAfter (post : string) : Prop :=
  post = EmptyString
  \/ exists a p, post = String a p
                 /\ is_word a = false /\ a <> "-"%char /\ a <> "/"%char
                 /\ a <> "`"%char.

(** The text node for a span of text, none for the empty span. *)
Definition span (s : string) : list Node :=
  match s with
  | EmptyString => []
  | _ => [text s]
  end.

(** The text of a reference: the user, the project behind a slash when
    there is one, and [#] with the number or [@] with the hash. *)
Definition projectPart (project : option string) : string :=
  match project with
  | Some p => "/" ++ p
  | None => EmptyString
  end.

Definition markPart (no hash : option string) : string :=
  match no, hash with
  | Some n, _ => "#" ++ n
  | None, Some h => "@" ++ h
  | None, None => EmptyString
  end.

Definition referenceText (usr : string) (project no hash : option string) : string :=
  usr ++ projectPart project ++ markPart no hash.

(** No project, or a plain one. *)
Definition plainProjectOption (project : option string) : Prop :=
  match project with
  | Some p => plainProject p /\ 1 <= String.length p
  | None => True
  end.

(** An issue number that does not start with [0], or a hash of 7 to 40
    hexadecimal digits. *)
Definition numberOrHash (no hash : option string) : Prop :=
  (exists d ds, no = Some (String d ds) /\ hash = None
                /\ between "1" "9" d = true /\ Sall (fun c => is_digit c = true) ds)
  \/ (exists h, no = None /\ hash = Some h
                /\ 7 <= String.length h <= 40 /\ Sall (fun c => isHex c = true) h).

(** The text in front of a reference lets it through: it is empty or ends
    in one of the opening characters. *)
Definition openBefore (pre : string) : Prop :=
  pre = EmptyString
  \/ exists p a, pre = (p ++ String a EmptyString)%string /\ In a openers.

(** The text behind a reference lets it through: it is empty or begins
    with a character that is no word character. *)
Definition closedAfter (post : string) : Prop :=
  post = EmptyString \/ exists a q, post = String a q /\ is_word a = false.

End Github.

(* ================================================================== *)
(** * Facts about strings, patterns and the plugin *)
(* ================================================================== *)

Module StrFacts.
Import Str.
Local Open Scope nat_scope.

Lemma length_app (s t : string) :
  String.length (s ++ t) = String.length s + String.length t.
Proof. induction s as [|a s IH]; simpl; [reflexivity | now rewrite IH]. Qed.

Lemma app_assoc (s t u : string) : ((s ++ t) ++ u = s ++ (t ++ u))%string.
Proof. induction s as [|a s IH]; simpl; [reflexivity | now rewrite IH]. Qed.

Lemma app_nil_r (s : string) : (s ++ EmptyString = s)%string.
Proof. induction s as [|a s IH]; simpl; [reflexivity | now rewrite IH]. Qed.

Lemma take_length (n : nat) (s : string) :
  String.length (take n s) = Nat.min n (String.length s).
Proof.
  revert s; induction n as [|n IH]; intros [|a s]; simpl; try reflexivity.
  now rewrite IH.
Qed.

Lemma take_app (s t : string) : take (String.length s) (s ++ t) = s.
Proof. induction s as [|a s IH]; simpl; [now destruct t | now rewrite IH]. Qed.

Lemma take_all (n : nat) (s : string) : String.length s <= n -> take n s = s.
Proof.
  revert s; induction n as [|n IH]; intros [|a s]; simpl; intros H;
    try reflexivity; try lia.
  rewrite IH; [reflexivity | lia].
Qed.

Lemma drop_app (s t : string) : drop (String.length s) (s ++ t) = t.
Proof. induction s as [|a s IH]; simpl; [now destruct t | exact IH]. Qed.

Lemma take_drop (n : nat) (s : string) : (take n s ++ drop n s = s)%string.
Proof.
  revert s; induction n as [|n IH]; intros [|a s]; simpl; try reflexivity.
  now rewrite IH.
Qed.

Lemma drop_length (n : nat) (s : string) :
  String.length (drop n s) = String.length s - n.
Proof.
  revert s; induction n as [|n IH]; intros [|a s]; simpl; try reflexivity.
  apply IH.
Qed.

Lemma app_inv_head (s t u : string) : (s ++ t = s ++ u)%string -> t = u.
Proof. induction s as [|a s IH]; simpl; intros H; [exact H | injection H; auto]. Qed.

Lemma charAt_neg (s : string) (i : Z) : (i < 0)%Z -> charAt s i = EmptyString.
Proof. unfold charAt; intros H. apply Z.ltb_lt in H. now rewrite H. Qed.

Lemma charAt_cases (s : string) (i : Z) :
  charAt s i = EmptyString \/ exists c, charAt s i = String c EmptyString.
Proof.
  unfold charAt. destruct (i <? 0)%Z; [now left|].
  destruct (drop (Z.to_nat i) s) as [|c r]; simpl; [now left | right; now exists c].
Qed.
End StrFacts.

Module ReFacts.
Import Re StrFacts.
Local Open Scope nat_scope.

Section Soundness.
Variable ci : bool.

(** Whatever [run] accepts, [den] relates: the state the continuation
    succeeded on is one [den] reaches. *)
Lemma rep_sound (body : Cont -> MState -> option MState)
      (d : MState -> MState -> Prop) :
  (forall k st res, body k st = Some res -> exists st', d st st' /\ k st' = Some res) ->
  forall n lo k st res,
    rep body lo n k st = Some res ->
    exists m st', lo <= m /\ m <= n /\ iter d m st st' /\ k st' = Some res.
Proof.
  intros Hbody n; induction n as [|n IH]; intros lo k st res H; simpl in H.
  - destruct (Nat.eqb_spec lo 0) as [->|]; [|discriminate].
    exists 0, st; repeat split; auto.
  - destruct (body _ st) as [r|] eqn:E.
    + injection H as ->.
      apply Hbody in E as (mid & Hd & Hk).
      destruct ((lo =? 0) && (pos mid =? pos st)); [discriminate|].
      apply IH in Hk as (m & st' & Hlo & Hn & Hit & Hk).
      exists (S m), st'; repeat split; try lia; [|exact Hk].
      simpl. now exists mid.
    + destruct (Nat.eqb_spec lo 0) as [->|]; [|discriminate].
      exists 0, st; repeat split; auto; lia.
Qed.

Lemma run_sound (r : regex) :
  forall k st res,
    run ci r k st = Some res -> exists st', den ci r st st' /\ k st' = Some res.
Proof.
  induction r as [|c|neg items|r1 IH1 r2 IH2|r1 IH1 r2 IH2|lo hi r IH|i r IH|neg r IH| |];
    intros k st res H; simpl in H |- *.
  - now exists st.
  - destruct (rest st) as [|a s'] eqn:E; [discriminate|].
    destruct (Ascii.eqb _ _) eqn:Ec; [|discriminate].
    exists (advance st s'); split; [|exact H]. now exists a, s'.
  - destruct (rest st) as [|a s'] eqn:E; [discriminate|].
    destruct (class_matches _ _ _ _) eqn:Ec; [|discriminate].
    exists (advance st s'); split; [|exact H]. now exists a, s'.
  - apply IH1 in H as (mid & H1 & H2). apply IH2 in H2 as (st' & H2 & H3).
    exists st'; split; [now exists mid | exact H3].
  - destruct (run ci r1 k st) eqn:E.
    + injection H as ->. apply IH1 in E as (st' & ? & ?). exists st'; auto.
    + apply IH2 in H as (st' & ? & ?). exists st'; auto.
  - apply (rep_sound (run ci r) (den ci r) IH) in H
      as (m & st' & Hlo & Hn & Hit & Hk).
    exists st'; split; [|exact Hk].
    exists m; repeat split; auto. destruct hi; auto.
  - apply IH in H as (mid & H1 & H2). exists (capture i st mid); split; auto.
    now exists mid.
  - destruct (run ci r Some st) as [x|] eqn:E.
    + destruct neg; [discriminate|].
      apply IH in E as (x' & Hx & Hx'). injection Hx' as ->.
      eexists; split; [|exact H]. now exists x.
    + destruct neg; [|discriminate]. now exists st.
  - destruct (Nat.eqb_spec (pos st) 0); [|discriminate]. now exists st.
  - destruct (rest st) eqn:E; [|discriminate]. now exists st.
Qed.

(** A match consumes a prefix of the input it starts on. *)
Lemma iter_consumes (d : MState -> MState -> Prop) :
  (forall st st', d st st' ->
     exists u, rest st = (u ++ rest st')%string /\ pos st' = pos st + String.length u) ->
  forall n st st', iter d n st st' ->
     exists u, rest st = (u ++ rest st')%string /\ pos st' = pos st + String.length u.
Proof.
  intros Hd n; induction n as [|n IH]; intros st st' H; simpl in H.
  - subst. exists EmptyString; simpl; split; auto.
  - destruct H as (mid & H1 & H2).
    apply Hd in H1 as (u1 & E1 & P1). apply IH in H2 as (u2 & E2 & P2).
    exists (u1 ++ u2)%string. rewrite app_assoc, <- E2, length_app. split; auto; lia.
Qed.

Lemma den_consumes (r : regex) :
  forall st st', den ci r st st' ->
    exists u, rest st = (u ++ rest st')%string /\ pos st' = pos st + String.length u.
Proof.
  induction r as [|c|neg items|r1 IH1 r2 IH2|r1 IH1 r2 IH2|lo hi r IH|i r IH|neg r IH| |];
    intros st st' H; simpl in H.
  - subst; exists EmptyString; simpl; auto.
  - destruct H as (a & s' & E & _ & ->). exists (String a EmptyString); simpl; split; auto; lia.
  - destruct H as (a & s' & E & _ & ->). exists (String a EmptyString); simpl; split; auto; lia.
  - destruct H as (mid & H1 & H2).
    apply IH1 in H1 as (u1 & E1 & P1). apply IH2 in H2 as (u2 & E2 & P2).
    exists (u1 ++ u2)%string. rewrite app_assoc, <- E2, length_app. split; auto; lia.
  - destruct H as [H|H]; auto.
  - destruct H as (n & _ & _ & H). eapply iter_consumes; eauto.
  - destruct H as (mid & H & ->). apply IH in H. exact H.
  - destruct neg.
    + subst; exists EmptyString; simpl; auto.
    + destruct H as (x & _ & ->). exists EmptyString; simpl; auto.
  - destruct H as (_ & ->). exists EmptyString; simpl; auto.
  - destruct H as (_ & ->). exists EmptyString; simpl; auto.
Qed.

(** A match consumes at least [minlen] characters. *)
Lemma iter_minlen (d : MState -> MState -> Prop) (w : nat) :
  (forall st st', d st st' -> pos st + w <= pos st') ->
  forall n st st', iter d n st st' -> pos st + n * w <= pos st'.
Proof.
  intros Hd n; induction n as [|n IH]; intros st st' H; simpl in H.
  - subst; simpl; lia.
  - destruct H as (mid & H1 & H2). apply Hd in H1. apply IH in H2. simpl; lia.
Qed.

Lemma den_minlen (r : regex) :
  forall st st', den ci r st st' -> pos st + minlen r <= pos st'.
Proof.
  induction r as [|c|neg items|r1 IH1 r2 IH2|r1 IH1 r2 IH2|lo hi r IH|i r IH|neg r IH| |];
    intros st st' H; simpl in H |- *.
  - subst; lia.
  - destruct H as (a & s' & _ & _ & ->); simpl; lia.
  - destruct H as (a & s' & _ & _ & ->); simpl; lia.
  - destruct H as (mid & H1 & H2). apply IH1 in H1. apply IH2 in H2. lia.
  - destruct H as [H|H]; [apply IH1 in H | apply IH2 in H]; lia.
  - destruct H as (n & Hlo & _ & H).
    apply (iter_minlen (den ci r) (minlen r) IH) in H. nia.
  - destruct H as (mid & H & ->). apply IH in H. simpl; lia.
  - destruct neg; [subst; lia | destruct H as (x & _ & ->); simpl; lia].
  - destruct H as (_ & ->); lia.
  - destruct H as (_ & ->); lia.
Qed.

Lemma nth_set_nth_other (i j : nat) (v : option string) (l : list (option string)) :
  i <> j -> nth j (set_nth i v l) None = nth j l None.
Proof.
  revert j l; induction i as [|i IH]; intros [|j] [|x l] H; simpl; try congruence;
    try reflexivity.
  - now destruct j.
  - rewrite IH by congruence. now destruct j.
  - apply IH; congruence.
Qed.

Lemma nth_set_nth_same (i : nat) (v : option string) (l : list (option string)) :
  nth i (set_nth i v l) None = v.
Proof. revert l; induction i as [|i IH]; intros [|x l]; simpl; auto. Qed.

(** A group keeps what the groups before it captured. *)
Lemma iter_caps (d : MState -> MState -> Prop) (j : nat) :
  (forall st st', d st st' -> nth j (caps st') None = nth j (caps st) None) ->
  forall n st st', iter d n st st' -> nth j (caps st') None = nth j (caps st) None.
Proof.
  intros Hd n; induction n as [|n IH]; intros st st' H; simpl in H.
  - now subst.
  - destruct H as (mid & H1 & H2). apply Hd in H1. apply IH in H2. congruence.
Qed.

Lemma den_caps (r : regex) (j : nat) :
  ~ In j (slots r) ->
  forall st st', den ci r st st' -> nth j (caps st') None = nth j (caps st) None.
Proof.
  induction r as [|c|neg items|r1 IH1 r2 IH2|r1 IH1 r2 IH2|lo hi r IH|i r IH|neg r IH| |];
    intros Hj st st' H; simpl in H, Hj.
  - now subst.
  - now destruct H as (a & s' & _ & _ & ->).
  - now destruct H as (a & s' & _ & _ & ->).
  - destruct H as (mid & H1 & H2). rewrite in_app_iff in Hj.
    apply IH1 in H1; [|tauto]. apply IH2 in H2; [|tauto]. congruence.
  - rewrite in_app_iff in Hj. destruct H as [H|H]; [apply IH1 in H | apply IH2 in H]; tauto.
  - destruct H as (n & _ & _ & H).
    eapply (iter_caps (den ci r)); eauto.
  - destruct H as (mid & H & ->). simpl.
    rewrite nth_set_nth_other by tauto. apply IH; tauto.
  - destruct neg; [now subst|]. destruct H as (x & H & ->). simpl. apply IH; auto.
  - now destruct H as (_ & ->).
  - now destruct H as (_ & ->).
Qed.

(** A match found by [search] starts where a suffix of the input starts. *)
Lemma search_sound (r : regex) (ng : nat) :
  forall s p m,
    search ci r ng p s = Some m ->
    exists pre s1 st',
      s = (pre ++ s1)%string /\ index m = p + String.length pre
      /\ den ci r (mkSt (index m) s1 (repeat None ng)) st'
      /\ whole m = Str.take (pos st' - index m) s1
      /\ groups m = caps st'.
Proof.
  induction s as [|a s IH]; intros p m H; simpl in H.
  - destruct (run ci r Some _) as [st'|] eqn:E; [|discriminate].
    injection H as <-. apply run_sound in E as (x & Hd & Hx). injection Hx as ->.
    exists EmptyString, EmptyString, st'; simpl. repeat split; auto.
  - destruct (run ci r Some _) as [st'|] eqn:E.
    + injection H as <-. apply run_sound in E as (x & Hd & Hx). injection Hx as ->.
      exists EmptyString, (String a s), st'; simpl. repeat split; auto.
    + apply IH in H as (pre & s1 & st' & -> & Hi & Hd & Hw & Hg).
      exists (String a pre), s1, st'; simpl. repeat split; auto. lia.
Qed.

End Soundness.

(** What a successful [exec] says: the input splits around the match,
    whose body relates the state at [index] to the state at its end. *)
Lemma exec_match (re : RegExp) (s : string) (i : nat) (m : Match) :
  exec re s i = Some m ->
  exists pre post st',
    s = (pre ++ whole m ++ post)%string
    /\ index m = String.length pre
    /\ (if global re then i else 0) <= index m
    /\ den (ignoreCase re) (body re)
           (mkSt (index m) (whole m ++ post) (repeat None (ngroups re))) st'
    /\ rest st' = post
    /\ pos st' = index m + String.length (whole m)
    /\ groups m = caps st'.
Proof.
  unfold exec. set (from := if global re then i else 0).
  destruct (Nat.ltb_spec (String.length s) from) as [|Hle]; [discriminate|].
  intros H. apply search_sound in H as (pre & s1 & st' & Es & Hi & Hd & Hw & Hg).
  destruct (den_consumes _ _ _ _ Hd) as (u & Eu & Pu). simpl in Eu, Pu.
  assert (Ew : whole m = u).
  { rewrite Hw, Pu, Eu. replace (index m + String.length u - index m)
      with (String.length u) by lia. apply take_app. }
  exists (Str.take from s ++ pre)%string, (rest st'), st'.
  rewrite Ew, <- Eu. repeat split; auto.
  - rewrite app_assoc, <- Es. symmetry; apply take_drop.
  - rewrite length_app, take_length. lia.
  - lia.
Qed.

End ReFacts.

Module PatternFacts.
Import Re StrFacts ReFacts Github.
Local Open Scope nat_scope.

Lemma den_seq ci a b st st' :
  den ci (Seq a b) st st' -> exists mid, den ci a st mid /\ den ci b mid st'.
Proof. exact (fun H => H). Qed.

Lemma den_group ci i r st st' :
  den ci (Group i r) st st' -> exists mid, den ci r st mid /\ st' = capture i st mid.
Proof. exact (fun H => H). Qed.

Lemma den_chr ci c st st' :
  den ci (Chr c) st st' ->
  exists a s', rest st = String a s' /\ canon ci c = canon ci a /\ st' = advance st s'.
Proof.
  intros (a & s' & E & Hc & ->). exists a, s'. repeat split; auto.
  now apply Ascii.eqb_eq.
Qed.

Lemma to_upper_h (a : ascii) :
  to_upper "h" = to_upper a -> a = "h"%char \/ a = "H"%char.
Proof.
  destruct a as [[] [] [] [] [] [] [] []]; vm_compute; intros H;
    try discriminate; auto.
Qed.

Lemma to_upper_at (a : ascii) : to_upper "@" = to_upper a -> a = "@"%char.
Proof.
  destruct a as [[] [] [] [] [] [] [] []]; vm_compute; intros H;
    try discriminate; auto.
Qed.

(** A URL the literal-link pattern accepts begins with an [h]. *)
Lemma link_first_char (url : string) (m : Match) :
  exec linkRegex url 0 = Some m ->
  exists a s, url = String a s /\ (a = "h"%char \/ a = "H"%char).
Proof.
  intros H. apply exec_match in H as (pre & post & st' & Es & Hi & _ & Hd & _).
  unfold linkRegex in Hd; cbn [body seqs ignoreCase ngroups lit] in Hd.
  apply den_seq in Hd as (m0 & (Hp & ->) & Hd). simpl in Hp.
  apply den_seq in Hd as (m1 & Hd & _).
  apply den_seq in Hd as (m2 & Hd & _).
  apply den_chr in Hd as (a & s' & E & Hc & _). simpl in E.
  destruct pre; [|rewrite Hp in Hi; discriminate]. simpl in Es.
  exists a, s'. split; [congruence|]. now apply to_upper_h.
Qed.

(** The user captured from a link is at least 27 characters short of it. *)
Lemma link_user_length (url : string) (m : Match) :
  exec linkRegex url 0 = Some m ->
  String.length (grp m 1) + 27 <= String.length url.
Proof.
  intros H. apply exec_match in H as (pre & post & st' & Es & Hi & _ & Hd & Hr & Hp & Hg).
  unfold linkRegex in Hd; cbn [body seqs ignoreCase ngroups repoGroup] in Hd.
  apply den_seq in Hd as (m0 & H0 & Hd).
  apply den_seq in Hd as (m1 & H1 & Hd).
  apply den_seq in Hd as (m2 & H2 & Hd).
  apply den_seq in Hd as (m3 & H3 & Hd).
  apply den_seq in Hd as (m4 & Hrepo & Htail).
  apply den_seq in Hrepo as (m5 & Hu & Hrepo).
  apply den_minlen in H0, H1, H2, H3. simpl in H0, H1, H2, H3.
  pose proof (den_minlen _ _ _ _ Hrepo) as Lr.
  pose proof (den_minlen _ _ _ _ Htail) as Lt.
  assert (Cr : nth 0 (caps m4) None = nth 0 (caps m5) None).
  { eapply den_caps; [|exact Hrepo]. vm_compute. intuition lia. }
  assert (Ct : nth 0 (caps st') None = nth 0 (caps m4) None).
  { eapply den_caps; [|exact Htail]. vm_compute. intuition lia. }
  apply den_group in Hu as (mid & Hu & ->).
  destruct (den_consumes _ _ _ _ Hu) as (u & Eu & Pu).
  simpl in Cr. rewrite Eu, Pu in Cr.
  replace (pos m3 + String.length u - pos m3) with (String.length u) in Cr by lia.
  rewrite take_app in Cr.
  assert (Eg : grp m 1 = u).
  { unfold grp, group. simpl. rewrite Hg, Ct, Cr. now destruct (caps mid). }
  rewrite Eg. simpl in Lr, Lt.
  assert (String.length url = String.length pre + String.length (whole m) + String.length post).
  { rewrite Es, !length_app. lia. }
  lia.
Qed.

(** A mention match begins with the at sign. *)
Lemma mention_whole (s : string) (i : nat) (m : Match) :
  exec mentionRegex s i = Some m -> exists t, whole m = String "@" t.
Proof.
  intros H. apply exec_match in H as (pre & post & st' & Es & Hi & _ & Hd & Hr & Hp & Hg).
  unfold mentionRegex in Hd; cbn [body ignoreCase ngroups] in Hd.
  apply den_seq in Hd as (m0 & H0 & Hd).
  apply den_chr in H0 as (a & s' & E & Hc & ->). simpl in E.
  apply to_upper_at in Hc. subst a.
  apply den_minlen in Hd. simpl in Hd.
  destruct (whole m) as [|b t]; simpl in *; [lia|].
  injection E as -> _. now exists t.
Qed.

Lemma iter_cls ci neg items :
  forall n st st',
    iter (den ci (Cls neg items)) n st st' ->
    exists u, rest st = (u ++ rest st')%string /\ String.length u = n
              /\ Sall (fun a => class_matches ci neg items a = true) u
              /\ pos st' = pos st + n /\ caps st' = caps st.
Proof.
  induction n as [|n IH]; intros st st' H; simpl in H.
  - subst. exists EmptyString; simpl; repeat split; auto.
  - destruct H as (mid & (a & s' & E & Hc & ->) & H).
    apply IH in H as (u & Eu & Lu & Su & Pu & Cu). simpl in *.
    exists (String a u); simpl. rewrite <- Eu. repeat split; auto; lia.
Qed.

Lemma lowerHex_not_dot (a : ascii) : lowerHex a -> a <> "."%char.
Proof. intros H ->. vm_compute in H. discriminate. Qed.

Lemma Sall_impl (P Q : ascii -> Prop) (s : string) :
  (forall a, P a -> Q a) -> Sall P s -> Sall Q s.
Proof. intros HPQ; induction s; simpl; intuition. Qed.

(** What the compare check of [parse] accepts. *)
Lemma compare_shape (s : string) :
  test reCompare s = true ->
  exists b c, s = (b ++ "..." ++ c)%string
              /\ Sall lowerHex b /\ Sall lowerHex c
              /\ 4 <= String.length b <= 40 /\ 4 <= String.length c <= 40.
Proof.
  unfold test. destruct (exec reCompare s 0) as [m|] eqn:E; [intros _|discriminate].
  apply exec_match in E as (pre & post & st' & Es & Hi & _ & Hd & Hr & Hp & Hg).
  unfold reCompare in Hd; cbn [body seqs ignoreCase ngroups] in Hd.
  apply den_seq in Hd as (m0 & (P0 & ->) & Hd). simpl in P0.
  destruct pre; [|rewrite P0 in Hi; discriminate]. simpl in Es.
  apply den_seq in Hd as (m1 & (n1 & Lo1 & Hi1 & H1) & Hd).
  apply den_seq in Hd as (m2 & (n2 & Lo2 & Hi2 & H2) & Hd).
  apply den_seq in Hd as (m3 & (n3 & Lo3 & Hi3 & H3) & (He & ->)).
  apply iter_cls in H1 as (b & Eb & Lb & Sb & _).
  apply iter_cls in H3 as (c & Ec & Lc & Sc & _).
  assert (n2 = 3) by lia. subst n2. cbn [iter] in H2.
  destruct H2 as (x1 & D1 & x2 & D2 & x3 & D3 & ->).
  apply den_chr in D1 as (a1 & s1 & E1 & C1 & ->).
  apply den_chr in D2 as (a2 & s2 & E2 & C2 & ->).
  apply den_chr in D3 as (a3 & s3 & E3 & C3 & ->).
  cbn [canon rest advance] in *. subst a1 a2 a3.
  exists b, c. rewrite Es, Eb, E1, E2, E3, Ec, He, app_nil_r.
  repeat split; auto; lia.
Qed.

Lemma startsWith_other (a b : ascii) (p s : string) :
  a <> b -> Str.startsWith (String a p) (String b s) = false.
Proof. intros H. simpl. apply Ascii.eqb_neq in H. now rewrite H. Qed.

Lemma splitAux_plain (sep_a : ascii) (sep : string) (b cur r : string) :
  Sall (fun a => a <> sep_a) b ->
  Str.splitAux (String sep_a sep) 0 cur (b ++ r) =
  Str.splitAux (String sep_a sep) 0 (cur ++ b) r.
Proof.
  revert cur; induction b as [|a b IH]; intros cur H; simpl in H |- *.
  - now rewrite app_nil_r.
  - destruct H as (Ha & Hb).
    apply not_eq_sym, Ascii.eqb_neq in Ha. rewrite Ha. simpl.
    rewrite IH by exact Hb. now rewrite app_assoc.
Qed.

(** Splitting a validated compare payload gives its two halves. *)
Lemma split_compare (b c : string) :
  Sall lowerHex b -> Sall lowerHex c ->
  Str.split "..." (b ++ "..." ++ c) = [b; c].
Proof.
  intros Hb Hc. unfold Str.split.
  rewrite splitAux_plain by (eapply Sall_impl; [apply lowerHex_not_dot | exact Hb]).
  simpl. f_equal.
  rewrite <- (app_nil_r c) at 1.
  rewrite splitAux_plain by (eapply Sall_impl; [apply lowerHex_not_dot | exact Hc]).
  reflexivity.
Qed.

End PatternFacts.

Module PluginFacts.
Import Re StrFacts ReFacts PatternFacts Github.
Local Open Scope nat_scope.

(** [parse] in three parts: the match, the bare-autolink test, the checks. *)
Lemma parse_eq (n : Node) :
  parse n =
  match exec linkRegex (urlOf n) 0 with
  | None => None
  | Some m => if negb (bare n) || invalid m then None else Some (parsed (urlOf n) m)
  end.
Proof.
  unfold parse, bare, invalid, parsed.
  destruct (exec linkRegex (urlOf n) 0) as [m|]; [|reflexivity].
  rewrite !negb_andb, !orb_assoc. reflexivity.
Qed.

Lemma bare_inv (n : Node) :
  bare n = true -> childrenOf n = [text (urlOf n)].
Proof.
  unfold bare. intros H. apply andb_prop in H as (H & H3). apply andb_prop in H as (H1 & H2).
  assert (E : exists v, childrenOf n = [text v]).
  { destruct (childrenOf n) as [|x [|y c]]; simpl in *; try discriminate.
    destruct x; simpl in *; try discriminate. eauto. }
  destruct E as (v & E). rewrite E. apply String.eqb_eq in H3. rewrite <- H3.
  destruct n; simpl in E; try discriminate; subst; simpl; now rewrite app_nil_r.
Qed.

Lemma parse_inv (n : Node) (l : ParsedLink) :
  parse n = Some l ->
  exists u t m,
    n = link u t [text u] /\ exec linkRegex u 0 = Some m
    /\ invalid m = false /\ l = parsed u m.
Proof.
  rewrite parse_eq. destruct (exec linkRegex (urlOf n) 0) as [m|] eqn:E; [|discriminate].
  destruct (negb (bare n) || invalid m) eqn:C; [discriminate|].
  intros H; injection H as <-.
  apply orb_false_elim in C as (Hb & Hv). apply negb_false_iff in Hb.
  apply bare_inv in Hb.
  destruct (link_first_char _ _ E) as (a & s & Eu & _).
  destruct n as [v|v|c|u t c|c|k c|k v]; simpl in Eu; try discriminate.
  simpl in *. exists u, t, m. subst c. auto.
Qed.

(** A link whose only child is a text that does not begin like a URL is
    not a bare autolink. *)
Lemma parse_other_text (u : string) (t : option string) (v : string) :
  match v with String a _ => a <> "h"%char /\ a <> "H"%char | EmptyString => True end ->
  parse (link u t [text v]) = None.
Proof.
  intros Hv. destruct (parse _) as [l|] eqn:E; [|reflexivity].
  apply parse_inv in E as (u' & t' & m & En & Ex & _).
  injection En as -> -> ->.
  destruct (link_first_char _ _ Ex) as (a & s & -> & Ha). intuition.
Qed.

Lemma parse_not_bare (u : string) (t : option string) (c : list Node) :
  (forall v, c <> [text v]) -> parse (link u t c) = None.
Proof.
  intros Hc. destruct (parse _) as [l|] eqn:E; [|reflexivity].
  apply parse_inv in E as (u' & t' & m & En & _).
  injection En as -> -> ->. now destruct (Hc u').
Qed.

Lemma abbr_length (s : string) : String.length (abbr s) <= 7.
Proof. unfold abbr, minShaLength. rewrite take_length. lia. Qed.

(** After normalisation a link is no longer a bare autolink. *)
Lemma parse_display (n : Node) (l : ParsedLink) (t : option string) :
  parse n = Some l -> parse (link (urlOf n) t (display l)) = None.
Proof.
  intros H. apply parse_inv in H as (u & t0 & m & -> & Ex & Hv & ->). simpl urlOf.
  unfold display. cbn [user page reference comment parsed].
  destruct (String.eqb (grp m 3) "issues" || String.eqb (grp m 3) "pull") eqn:Ep.
  - destruct (parse _) as [l|] eqn:E; [|reflexivity]. exfalso.
    apply parse_inv in E as (u' & t' & m' & En & _).
    injection En as -> _ Ev.
    assert (Ec : String.eqb (grp m 3) "compare" = false).
    { apply orb_prop in Ep as [Ep|Ep]; apply String.eqb_eq in Ep; rewrite Ep; reflexivity. }
    rewrite Ec in Ev.
    apply (f_equal String.length) in Ev. rewrite !length_app in Ev.
    pose proof (link_user_length _ _ Ex). pose proof (abbr_length (grp m 4)).
    simpl in Ev.
    destruct (_ && _) in Ev; simpl in Ev; lia.
  - apply parse_not_bare. intros v.
    destruct (truthy (Some (grp m 1))); destruct (_ && _); simpl; congruence.
Qed.

Lemma visitLinks_link (u : string) (t : option string) (c : list Node) :
  visitLinks (link u t c) =
  match parse (link u t c) with
  | Some l => link u t (display l)
  | None => link u t (map visitLinks c)
  end.
Proof. reflexivity. Qed.

Lemma isText_visit (x : Node) : isText (visitLinks x) = isText x.
Proof.
  destruct x; try reflexivity. rewrite visitLinks_link. now destruct (parse _).
Qed.

Lemma bare_map (u : string) (t : option string) (c : list Node) :
  bare (link u t (map visitLinks c)) = bare (link u t c).
Proof.
  unfold bare. cbn [childrenOf urlOf].
  destruct c as [|x [|y c]]; try reflexivity.
  cbn [map List.length nth Nat.eqb andb].
  destruct x; try reflexivity.
  rewrite visitLinks_link. now destruct (parse _).
Qed.

Lemma parse_map (u : string) (t : option string) (c : list Node) :
  parse (link u t (map visitLinks c)) = parse (link u t c).
Proof. rewrite !parse_eq, bare_map. reflexivity. Qed.

(** The children a normalised link gets are leaves. *)
Lemma display_leaves (l : ParsedLink) : map visitLinks (display l) = display l.
Proof.
  unfold display.
  destruct (_ || _); [reflexivity|].
  destruct (truthy _); destruct (comment l); reflexivity.
Qed.

Lemma visitLinks_idem (n : Node) : visitLinks (visitLinks n) = visitLinks n.
Proof.
  induction n as [v|v|c IH|u t c IH|c IH|k c IH|k v] using Node_ind;
    try reflexivity;
    try (cbn [visitLinks]; f_equal; rewrite map_map; apply map_ext_in;
         intros x Hx; rewrite Forall_forall in IH; auto).
  rewrite visitLinks_link. destruct (parse (link u t c)) as [l|] eqn:E.
  - rewrite visitLinks_link.
    rewrite (parse_display (link u t c) l t E : parse (link u t (display l)) = None).
    now rewrite display_leaves.
  - rewrite visitLinks_link, parse_map, E. f_equal.
    rewrite map_map; apply map_ext_in; intros x Hx.
    rewrite Forall_forall in IH; auto.
Qed.

(** ** Links made by the scanner are left alone by the normaliser *)

Lemma fst_bind {A B} (c : Calls A) (f : A -> Calls B) :
  fst (bind c f) = fst (f (fst c)).
Proof. unfold bind. destruct c as [a l1]. simpl. now destruct (f a). Qed.

Lemma replaceReference_settled options all user sp no hash mt n :
  fst (replaceReference options all user sp no hash mt) = Some n -> settled n.
Proof.
  unfold replaceReference. destruct (_ || _); [cbn [ret fst]; discriminate|].
  rewrite fst_bind.
  match goal with |- context [negb (truthy ?u)] => generalize u end.
  intros url. destruct (negb (truthy url)); [cbn [ret fst]; discriminate|].
  cbn [ret fst]. intros H; injection H as <-.
  unfold settled. rewrite visitLinks_link.
  destruct (truthy no).
  - rewrite parse_other_text; [reflexivity|]. simpl. split; intros F; discriminate F.
  - rewrite parse_not_bare; [reflexivity|]. intros v; discriminate.
Qed.

Lemma replaceMention_settled options value username mt n t :
  value = String "@" t ->
  fst (replaceMention options value username mt) = Some n -> settled n.
Proof.
  intros ->. unfold replaceMention. destruct (_ || _); [cbn [ret fst]; discriminate|].
  rewrite fst_bind.
  match goal with |- context [negb (truthy ?u)] => generalize u end.
  intros url. destruct (negb (truthy url)); [cbn [ret fst]; discriminate|].
  cbn [ret fst]. intros H; injection H as <-.
  unfold settled. rewrite visitLinks_link.
  destruct (mentionStrong options) as [[]|].
  - rewrite parse_not_bare; [reflexivity|]. intros v; discriminate.
  - rewrite parse_other_text; [reflexivity|]. simpl. split; intros F; discriminate F.
  - rewrite parse_not_bare; [reflexivity|]. intros v; discriminate.
Qed.

Section Handler.
Variable find : RegExp.
Variable replace : ReplaceFunction.
Variable value : string.
Hypothesis replace_settled :
  forall i m n, exec find value i = Some m ->
                fst (replace m value) = Some n -> settled n.

Lemma handlerLoop_settled (fuel : nat) :
  forall lastIndex start nodes change,
    Forall settled nodes ->
    Forall settled
      (fst (fst (fst (handlerLoop fuel find replace value lastIndex start nodes change)))).
Proof.
  induction fuel as [|fuel IH]; intros lastIndex start nodes change Hn; simpl.
  - exact Hn.
  - destruct (exec find value lastIndex) as [m|] eqn:E; [|exact Hn].
    rewrite fst_bind.
    destruct (fst (replace m value)) as [new|] eqn:Er.
    + apply IH. apply Forall_app; split.
      * destruct (start =? index m); [exact Hn|].
        apply Forall_app; split; [exact Hn|]. now repeat constructor.
      * constructor; [|constructor]. eapply replace_settled; eauto.
    + apply IH, Hn.
Qed.

Lemma handler_settled : Forall settled (fst (handler find replace value)).
Proof.
  unfold handler. rewrite fst_bind.
  pose proof (handlerLoop_settled (S (String.length value)) 0 0 [] false
                (Forall_nil _)) as H.
  destruct (fst (handlerLoop _ _ _ _ _ _ _ _)) as [[nodes start] change].
  simpl in H. destruct change; simpl.
  - destruct (start <? String.length value); [|exact H].
    apply Forall_app; split; [exact H|]. now repeat constructor.
  - now repeat constructor.
Qed.
End Handler.

Section Commute.
Variable find : RegExp.
Variable replace : ReplaceFunction.
Hypothesis fresh_settled :
  forall value, Forall settled (fst (handler find replace value)).

Let h := handler find replace.
Let p := pass find replace.

Lemma bind_cmap {A B C} (g : A -> B) (c : Calls A) (f : B -> Calls C) :
  bind (cmap g c) f = bind c (fun a => f (g a)).
Proof. now destruct c. Qed.

Lemma cmap_bind {A B C} (g : B -> C) (c : Calls A) (f : A -> Calls B) :
  cmap g (bind c f) = bind c (fun a => cmap g (f a)).
Proof. unfold bind, cmap. destruct c as [a l1]. now destruct (f a). Qed.

Lemma bind_ext {A B} (c : Calls A) (f g : A -> Calls B) :
  f (fst c) = g (fst c) -> bind c f = bind c g.
Proof. unfold bind. destruct c as [a l]. simpl. now intros ->. Qed.

Lemma map_settled (l : list Node) : Forall settled l -> map visitLinks l = l.
Proof. induction 1 as [|x l Hx _ IH]; simpl; [reflexivity | now rewrite Hx, IH]. Qed.

Lemma passChildren_commute (c : list Node) :
  Forall (fun n => p (visitLinks n) = cmap visitLinks (p n)) c ->
  passChildren h p (map visitLinks c) = cmap (map visitLinks) (passChildren h p c).
Proof.
  induction 1 as [|x tl Hx _ IH]; [reflexivity|].
  assert (Hother : isText x = false ->
            passChildren h p (map visitLinks (x :: tl)) =
            cmap (map visitLinks) (passChildren h p (x :: tl))).
  { intros Hnt.
    assert (E1 : forall y l, isText y = false ->
              passChildren h p (y :: l) =
              bind (p y) (fun c' => bind (passChildren h p l)
                                         (fun tl' => ret (c' :: tl')))).
    { intros y l Hy. destruct y; try reflexivity; discriminate. }
    cbn [map]. rewrite E1 by (now rewrite isText_visit).
    rewrite E1 by exact Hnt.
    rewrite Hx, IH, bind_cmap, cmap_bind. apply bind_ext.
    rewrite bind_cmap, cmap_bind. reflexivity. }
  destruct x; try (apply Hother; reflexivity).
  cbn [map visitLinks passChildren]. fold (passChildren h p).
  rewrite IH, cmap_bind. apply bind_ext.
  rewrite bind_cmap, cmap_bind. apply bind_ext.
  unfold cmap, ret; cbn [fst snd]. rewrite map_app.
  unfold h. now rewrite (map_settled _ (fresh_settled value)).
Qed.

Lemma pass_commute (n : Node) : p (visitLinks n) = cmap visitLinks (p n).
Proof.
  induction n as [v|v|c IH|u t c IH|c IH|k c IH|k v] using Node_ind;
    try reflexivity.
  - cbn [visitLinks]. unfold p. cbn [pass]. fold p. fold h.
    rewrite passChildren_commute by exact IH.
    rewrite bind_cmap, cmap_bind. apply bind_ext. reflexivity.
  - unfold p, cmap. cbn [pass ret fst snd]. rewrite visitLinks_link.
    now destruct (parse _).
  - cbn [visitLinks]. unfold p. cbn [pass]. fold p. fold h.
    rewrite passChildren_commute by exact IH.
    rewrite bind_cmap, cmap_bind. apply bind_ext. reflexivity.
Qed.
End Commute.

Lemma reference_fresh (options : Options) (value : string) :
  Forall settled (fst (handler referenceRegex (referenceReplacer options) value)).
Proof.
  apply handler_settled. intros i m n _ H.
  unfold referenceReplacer in H. eapply replaceReference_settled; eauto.
Qed.

Lemma mention_fresh (options : Options) (value : string) :
  Forall settled (fst (handler mentionRegex (mentionReplacer options) value)).
Proof.
  apply handler_settled. intros i m n E H.
  apply mention_whole in E as (t & Et).
  unfold mentionReplacer in H. eapply replaceMention_settled; eauto.
Qed.

Lemma scanner_commute (options : Options) (tree : Node) :
  textScanner options (linkNormalizer tree)
  = cmap linkNormalizer (textScanner options tree).
Proof.
  unfold textScanner, linkNormalizer.
  rewrite pass_commute by apply reference_fresh.
  rewrite bind_cmap, cmap_bind. apply bind_ext.
  apply pass_commute, mention_fresh.
Qed.

End PluginFacts.

Module RewriterFacts.

Import Re StrFacts ReFacts PatternFacts Github PluginFacts.
Local Open Scope nat_scope.

(** ** The rewriters past their guards *)

(** A one-class pattern tested on a one-character string. *)
Lemma test_class1 ci neg items c :
  test (mkRegExp ci false 0 (Cls neg items)) (String c EmptyString)
  = class_matches ci neg items c.
Proof.
  unfold test, exec. cbn. destruct (class_matches ci neg items c); reflexivity.
Qed.

Lemma truthy_some (u : string) : u <> EmptyString -> truthy (Some u) = true.
Proof. intros H. simpl. apply String.eqb_neq in H. now rewrite H. Qed.

Lemma replaceReference_valid options all user project no hash mt :
  validReference all mt -> captured no hash ->
  replaceReference options all user project no hash mt =
  cmap (fun url => if truthy url
                   then Some (link (match url with Some u => u | None => EmptyString end)
                                   None (referenceDisplay no hash))
                   else None)
       (buildUrl options (referenceValue user project no hash)).
Proof.
  intros (H1 & H2) Hc. unfold replaceReference. rewrite H1, H2. cbn [orb].
  destruct Hc as [n Hn|h].
  - rewrite (truthy_some _ Hn). cbn [referenceValue referenceDisplay].
    destruct (buildUrl _ _) as [url calls]. unfold bind, cmap; cbn [fst snd].
    destruct (truthy url); cbn [negb ret]; now rewrite List.app_nil_r.
  - cbn [truthy referenceValue referenceDisplay].
    destruct (buildUrl _ _) as [url calls]. unfold bind, cmap; cbn [fst snd].
    destruct (truthy url); cbn [negb ret]; now rewrite List.app_nil_r.
Qed.

Lemma replaceMention_valid options value username mt :
  validMention value mt -> denied username = false ->
  replaceMention options value username mt =
  cmap (fun url => if truthy url
                   then Some (link (match url with Some u => u | None => EmptyString end)
                                   None
                                   [match mentionStrong options with
                                    | Some false => text value
                                    | _ => strong [text value]
                                    end])
                   else None)
       (buildUrl options (mention username)).
Proof.
  intros (H1 & H2) Hd. unfold replaceMention. rewrite H1, H2, Hd. cbn [orb].
  destruct (buildUrl _ _) as [url calls]. unfold bind, cmap; cbn [fst snd].
  destruct (truthy url); cbn [negb ret]; now rewrite List.app_nil_r.
Qed.

(** ** What the groups of a match hold *)

Lemma group_taken ci i r st st' :
  den ci (Group i r) st st' ->
  exists u, nth (i - 1) (caps st') None = Some u
            /\ minlen r <= String.length u
            /\ forall j, j <> i - 1 -> ~ In j (slots r) ->
                         nth j (caps st') None = nth j (caps st) None.
Proof.
  intros H. apply den_group in H as (mid & H & ->).
  destruct (den_consumes _ _ _ _ H) as (u & Eu & Pu).
  pose proof (den_minlen _ _ _ _ H) as Lu.
  exists u. cbn [capture caps]. rewrite nth_set_nth_same, Eu, Pu.
  replace (pos st + String.length u - pos st) with (String.length u) by lia.
  rewrite take_app. split; [reflexivity|]. split; [cbn [pos] in *; lia|].
  intros j Hj Hs. rewrite nth_set_nth_other by auto. now apply (den_caps ci r).
Qed.

(** The slot is not one the pattern of [H] writes to. *)
Ltac kept H := eapply den_caps; [|exact H]; vm_compute; intuition lia.

(** Of the issue number and the hash, a reference match captures exactly one. *)
Lemma reference_groups (s : string) (i : nat) (m : Match) :
  exec referenceRegex s i = Some m -> captured (group m 3) (group m 4).
Proof.
  intros H. apply exec_match in H as (pre & post & st' & _ & _ & _ & Hd & _ & _ & Hg).
  unfold referenceRegex in Hd; cbn [body seqs ignoreCase ngroups] in Hd.
  apply den_seq in Hd as (m1 & H1 & Hd).
  apply den_seq in Hd as (m2 & H2 & Hd).
  assert (C2 : nth 2 (caps m2) None = None /\ nth 3 (caps m2) None = None).
  { split.
    - transitivity (nth 2 (caps m1) None); [kept H2|].
      etransitivity; [kept H1 | reflexivity].
    - transitivity (nth 3 (caps m1) None); [kept H2|].
      etransitivity; [kept H1 | reflexivity]. }
  destruct C2 as (C2 & C3). unfold group. rewrite Hg. cbn [Nat.sub].
  destruct Hd as [Hd|Hd]; apply den_seq in Hd as (m3 & Hc & Hd);
    apply den_chr in Hc as (a & s' & _ & _ & ->);
    apply group_taken in Hd as (u & Eu & Lu & Ho); cbn [Nat.sub] in Eu, Ho.
  - rewrite Eu, (Ho 3) by (vm_compute; intuition lia). cbn [advance caps]. rewrite C3.
    constructor. intros ->. vm_compute in Lu. lia.
  - rewrite Eu, (Ho 2) by (vm_compute; intuition lia). cbn [advance caps]. rewrite C2.
    constructor. change (minlen (Rep 7 (Some 40) hexClass)) with 7 in Lu. exact Lu.
Qed.

(** ** The scanning loop *)

Lemma exec_progress (find : RegExp) (s : string) (i : nat) (m : Match) :
  productive find -> exec find s i = Some m ->
  i < endIndex m <= String.length s.
Proof.
  intros (Hg & Hm) H. apply exec_match in H as (pre & post & st' & Es & Hi & Hle & Hd & _ & Hp & _).
  rewrite Hg in Hle. apply den_minlen in Hd. cbn [pos] in Hd.
  unfold endIndex. rewrite Es, !length_app. lia.
Qed.

Lemma exec_past_end (find : RegExp) (s : string) (i : nat) :
  global find = true -> String.length s < i -> exec find s i = None.
Proof.
  intros Hg Hi. unfold exec. rewrite Hg.
  destruct (Nat.ltb_spec (String.length s) i); [reflexivity | lia].
Qed.

(** More rounds than the text has characters left change nothing. *)
Lemma handlerLoop_fuel (find : RegExp) (replace : ReplaceFunction) (value : string) :
  productive find ->
  forall fuel1 fuel2 lastIndex start nodes change,
    String.length value < lastIndex + fuel1 ->
    String.length value < lastIndex + fuel2 ->
    handlerLoop fuel1 find replace value lastIndex start nodes change
    = handlerLoop fuel2 find replace value lastIndex start nodes change.
Proof.
  intros Hp. induction fuel1 as [|fuel1 IH]; intros fuel2 lastIndex start nodes change H1 H2.
  - destruct fuel2 as [|fuel2]; [reflexivity|]. simpl.
    rewrite exec_past_end; [reflexivity | apply Hp | lia].
  - destruct fuel2 as [|fuel2].
    + simpl. rewrite exec_past_end; [reflexivity | apply Hp | lia].
    + simpl. destruct (exec find value lastIndex) as [m|] eqn:E; [|reflexivity].
      pose proof (exec_progress _ _ _ _ Hp E) as Hprog.
      apply bind_ext. destruct (fst (replace m value)); apply IH; lia.
Qed.

(** The rounds [handler] allows are enough: more change nothing. *)
Lemma handler_fuel (find : RegExp) (replace : ReplaceFunction) (value : string)
      (fuel : nat) :
  productive find -> String.length value < fuel ->
  handlerLoop fuel find replace value 0 0 [] false
  = handlerLoop (S (String.length value)) find replace value 0 0 [] false.
Proof. intros Hp Hf. apply handlerLoop_fuel; [exact Hp | lia | lia]. Qed.

Lemma mention_productive : productive mentionRegex.
Proof. split; [reflexivity | vm_compute; lia]. Qed.

Lemma reference_productive : productive referenceRegex.
Proof. split; [reflexivity | vm_compute; lia]. Qed.

(** A text in which every match is refused stays as it is. *)
Lemma handlerLoop_refused (find : RegExp) (replace : ReplaceFunction) (value : string) :
  (forall i m, exec find value i = Some m -> fst (replace m value) = None) ->
  forall fuel lastIndex start nodes change,
    fst (handlerLoop fuel find replace value lastIndex start nodes change)
    = (nodes, start, change).
Proof.
  intros Hr. induction fuel as [|fuel IH]; intros; simpl; [reflexivity|].
  destruct (exec find value lastIndex) as [m|] eqn:E; [|reflexivity].
  rewrite fst_bind, (Hr _ _ E). apply IH.
Qed.

Lemma handler_refused (find : RegExp) (replace : ReplaceFunction) (value : string) :
  (forall i m, exec find value i = Some m -> fst (replace m value) = None) ->
  fst (handler find replace value) = [text value].
Proof.
  intros Hr. unfold handler. rewrite fst_bind, handlerLoop_refused by exact Hr.
  reflexivity.
Qed.

(** ** Abbreviation and the parsed reference *)

Lemma take_min (n : nat) (s : string) :
  Str.take n s = Str.take (Nat.min n (String.length s)) s.
Proof.
  revert s; induction n as [|n IH]; intros [|a s]; simpl; try reflexivity.
  now rewrite <- IH.
Qed.

Lemma abbr_prefix (sha : string) :
  abbr sha = Str.take (Nat.min 7 (String.length sha)) sha
  /\ String.length (abbr sha) = Nat.min 7 (String.length sha)
  /\ exists rest, sha = (abbr sha ++ rest)%string.
Proof.
  unfold abbr, minShaLength. split; [apply take_min|]. split; [apply take_length|].
  exists (Str.drop 7 sha). symmetry; apply take_drop.
Qed.

Lemma parse_reference (node : Node) (l : ParsedLink) :
  parse node = Some l ->
  exists m,
    exec linkRegex (urlOf node) 0 = Some m
    /\ page l = grp m 3
    /\ if String.eqb (page l) "compare"
       then exists b c,
           grp m 4 = (b ++ "..." ++ c)%string
           /\ 4 <= String.length b <= 40 /\ 4 <= String.length c <= 40
           /\ reference l = (abbr b ++ "..." ++ abbr c)%string
       else reference l = abbr (grp m 4).
Proof.
  intros H. apply parse_inv in H as (u & t & m & -> & Ex & Hv & ->).
  exists m. split; [exact Ex|]. split; [reflexivity|].
  unfold parsed; cbn [page reference].
  destruct (String.eqb (grp m 3) "compare") eqn:Ec; [|reflexivity].
  unfold invalid in Hv. rewrite Ec in Hv.
  apply orb_false_elim in Hv as (Hv & _). apply orb_false_elim in Hv as (Hv & _).
  apply orb_false_elim in Hv as (_ & Hv). cbn [andb] in Hv. apply negb_false_iff in Hv.
  apply compare_shape in Hv as (b & c & E & Sb & Sc & Lb & Lc).
  exists b, c. rewrite E, split_compare by assumption. auto.
Qed.

Lemma test_wordTick (c : ascii) :
  test reWordTick (String c EmptyString) = is_word c || Ascii.eqb "`" c.
Proof.
  unfold reWordTick. rewrite test_class1. unfold class_matches. simpl.
  now rewrite orb_false_r.
Qed.

Lemma test_slashWordTick (c : ascii) :
  test reSlashWordTick (String c EmptyString)
  = Ascii.eqb "/" c || is_word c || Ascii.eqb "`" c.
Proof.
  unfold reSlashWordTick. rewrite test_class1. unfold class_matches. simpl.
  now rewrite orb_false_r, !orb_assoc.
Qed.

Lemma bind_ret_cmap {A B} (c : Calls A) (g : A -> B) :
  bind c (fun a => ret (g a)) = cmap g c.
Proof. destruct c as [a l]. unfold bind, ret, cmap; simpl. now rewrite List.app_nil_r. Qed.


Lemma defaultBuildUrl_nonempty (v : BuildUrlValues) : defaultBuildUrl v <> EmptyString.
Proof. destruct v; discriminate. Qed.

(** ** Two replace functions that answer alike *)

Section SameReplacer.
Variable find : RegExp.
Variables r1 r2 : ReplaceFunction.
Hypothesis same : forall m v, r1 m v = r2 m v.

Lemma handlerLoop_ext (value : string) (fuel : nat) :
  forall lastIndex start nodes change,
    handlerLoop fuel find r1 value lastIndex start nodes change
    = handlerLoop fuel find r2 value lastIndex start nodes change.
Proof.
  induction fuel as [|fuel IH]; intros; simpl; [reflexivity|].
  destruct (exec find value lastIndex) as [m|]; [|reflexivity].
  rewrite same. apply bind_ext. destruct (fst (r2 m value)); apply IH.
Qed.

Lemma handler_ext (value : string) : handler find r1 value = handler find r2 value.
Proof. unfold handler. now rewrite handlerLoop_ext. Qed.

Lemma passChildren_ext (c : list Node) :
  Forall (fun n => pass find r1 n = pass find r2 n) c ->
  passChildren (handler find r1) (pass find r1) c
  = passChildren (handler find r2) (pass find r2) c.
Proof.
  intros H. induction H as [|x tl Hx _ IH]; [reflexivity|].
  destruct x; cbn [passChildren];
    fold (passChildren (handler find r1) (pass find r1));
    fold (passChildren (handler find r2) (pass find r2));
    rewrite ?Hx, ?IH, ?handler_ext; reflexivity.
Qed.

Lemma pass_ext (n : Node) : pass find r1 n = pass find r2 n.
Proof.
  induction n as [v|v|c IH|u t c IH|c IH|k c IH|k v] using Node_ind;
    try reflexivity; cbn [pass]; now rewrite (passChildren_ext c IH).
Qed.
End SameReplacer.

(** ** A builder that refuses *)

(** A URL that is [false] or the empty string. *)
Lemma truthy_false (url : option string) :
  truthy url = false <-> url = None \/ url = Some EmptyString.
Proof.
  destruct url as [u|]; simpl; [|intuition].
  rewrite negb_false_iff, String.eqb_eq. split.
  - intros ->. now right.
  - intros [H | H]; [discriminate | now injection H].
Qed.

Lemma replaceReference_refused options all user project no hash mt :
  captured no hash ->
  truthy (fst (buildUrl options (referenceValue user project no hash))) = false ->
  fst (replaceReference options all user project no hash mt) = None.
Proof.
  intros Hc Hu. unfold replaceReference.
  destruct (test reNotOpening _) eqn:H1; [reflexivity|].
  destruct (test reWord _) eqn:H2; [reflexivity|].
  pose proof (replaceReference_valid options all user project no hash mt
                (conj H1 H2) Hc) as E.
  unfold replaceReference in E. rewrite H1, H2 in E. cbn [orb] in *.
  rewrite E. unfold cmap. cbn [fst]. now rewrite Hu.
Qed.



End RewriterFacts.

(* ================================================================== *)
(** * Facts for the further properties *)
(* ================================================================== *)

(** ** The shape of what the patterns match *)

Module ShapeFacts.

Import Re Github StrFacts ReFacts PatternFacts PluginFacts RewriterFacts.
Local Open Scope nat_scope.

Lemma iter_alphabet (d : MState -> MState -> Prop) (P : ascii -> Prop) :
  (forall st st', d st st' ->
     exists u, rest st = (u ++ rest st')%string /\ pos st' = pos st + String.length u
               /\ Sall P u) ->
  forall n st st', iter d n st st' ->
     exists u, rest st = (u ++ rest st')%string /\ pos st' = pos st + String.length u
               /\ Sall P u.
Proof.
  intros Hd n; induction n as [|n IH]; intros st st' H; simpl in H.
  - subst. exists EmptyString; simpl; auto.
  - destruct H as (mid & H1 & H2).
    apply Hd in H1 as (u1 & E1 & P1 & S1). apply IH in H2 as (u2 & E2 & P2 & S2).
    exists (u1 ++ u2)%string. rewrite app_assoc, <- E2, length_app.
    split; [auto|]. split; [lia|].
    clear - S1 S2. induction u1; simpl in *; intuition.
Qed.

Lemma Sall_app (P : ascii -> Prop) (u v : string) :
  Sall P (u ++ v) <-> Sall P u /\ Sall P v.
Proof. induction u; simpl; intuition. Qed.

(** The characters a match consumes are characters its leaves accept. *)
Lemma den_alphabet (ci : bool) (P : ascii -> Prop) (r : regex) :
  accepts ci P r ->
  forall st st', den ci r st st' ->
    exists u, rest st = (u ++ rest st')%string /\ pos st' = pos st + String.length u
              /\ Sall P u.
Proof.
  induction r as [|c|neg items|r1 IH1 r2 IH2|r1 IH1 r2 IH2|lo hi r IH|i r IH|neg r IH| |];
    intros Ha st st' H; simpl in H, Ha.
  - subst; exists EmptyString; simpl; auto.
  - destruct H as (a & s' & E & Hc & ->). exists (String a EmptyString); simpl.
    repeat split; auto; lia.
  - destruct H as (a & s' & E & Hc & ->). exists (String a EmptyString); simpl.
    repeat split; auto; lia.
  - destruct H as (mid & H1 & H2). destruct Ha as (Ha1 & Ha2).
    apply (IH1 Ha1) in H1 as (u1 & E1 & P1 & S1).
    apply (IH2 Ha2) in H2 as (u2 & E2 & P2 & S2).
    exists (u1 ++ u2)%string. rewrite app_assoc, <- E2, length_app, Sall_app.
    repeat split; auto; lia.
  - destruct Ha as (Ha1 & Ha2). destruct H as [H|H]; auto.
  - destruct H as (n & _ & _ & H). eapply iter_alphabet; eauto.
  - destruct H as (mid & H & ->). apply (IH Ha) in H. exact H.
  - destruct neg.
    + subst; exists EmptyString; simpl; auto.
    + destruct H as (x & _ & ->). exists EmptyString; simpl; auto.
  - destruct H as (_ & ->). exists EmptyString; simpl; auto.
  - destruct H as (_ & ->). exists EmptyString; simpl; auto.
Qed.

(** A group at the head of a sequence: what it consumed is what it holds
    at the end, when nothing after it writes to its slot. *)
Lemma den_head_group ci i r tail st st' :
  den ci (Seq (Group i r) tail) st st' ->
  ~ In (i - 1) (slots tail) ->
  exists mid u,
    den ci r st mid
    /\ rest st = (u ++ rest mid)%string /\ pos mid = pos st + String.length u
    /\ den ci tail (capture i st mid) st'
    /\ nth (i - 1) (caps st') None = Some u.
Proof.
  intros H Hs. apply den_seq in H as (m1 & Hg & Ht).
  apply den_group in Hg as (mid & Hr & ->).
  destruct (den_consumes _ _ _ _ Hr) as (u & Eu & Pu).
  exists mid, u. repeat split; auto.
  rewrite (den_caps _ _ _ Hs _ _ Ht). cbn [capture caps].
  rewrite nth_set_nth_same, Eu, Pu.
  replace (pos st + String.length u - pos st) with (String.length u) by lia.
  now rewrite take_app.
Qed.

Lemma userChar_first (a : ascii) :
  class_matches true false [CDigit; CRange "a" "z"] a = true -> isAlnum a = true.
Proof. destruct a as [[] [] [] [] [] [] [] []]; vm_compute; auto. Qed.

Lemma userChar_rest (a : ascii) :
  class_matches true false [CChar "-"; CDigit; CRange "a" "z"] a = true ->
  isUserChar a = true.
Proof. destruct a as [[] [] [] [] [] [] [] []]; vm_compute; auto. Qed.

Lemma hexChar_ci (a : ascii) :
  class_matches true false [CRange "a" "f"; CDigit] a = true -> isHex a = true.
Proof. destruct a as [[] [] [] [] [] [] [] []]; vm_compute; auto. Qed.

Lemma isAlnum_user (a : ascii) : isAlnum a = true -> isUserChar a = true.
Proof. unfold isUserChar. now intros ->. Qed.

(** What [userGroup] matches. *)
Lemma userGroup_shape st st' :
  den true userGroup st st' ->
  exists a u,
    rest st = (String a u ++ rest st')%string
    /\ pos st' = pos st + S (String.length u)
    /\ caps st' = caps st
    /\ String.length u <= 38
    /\ isAlnum a = true /\ Sall (fun c => isUserChar c = true) u.
Proof.
  unfold userGroup. intros H. apply den_seq in H as (m1 & H1 & H2).
  destruct H1 as (a & s' & E & Hc & ->).
  destruct H2 as (n & _ & Hn & H2). apply iter_cls in H2 as (u & Eu & Lu & Su & Pu & Cu).
  cbn [advance rest pos caps] in *.
  exists a, u. rewrite E, Eu. repeat split; auto; try lia.
  - now apply userChar_first.
  - eapply Sall_impl; [|exact Su]. apply userChar_rest.
Qed.

Lemma upper_cons (a : ascii) (s : string) :
  upper (String a s) = String (to_upper a) (upper s).
Proof. reflexivity. Qed.

Lemma upper_app (s t : string) : upper (s ++ t) = (upper s ++ upper t)%string.
Proof. induction s as [|a s IH]; [reflexivity|]. simpl. rewrite !upper_cons, IH. reflexivity. Qed.

(** What a literal matches under the [i] flag: itself up to case. *)
Lemma den_lit (s : string) :
  forall st st', den true (lit s) st st' ->
    exists u, rest st = (u ++ rest st')%string
              /\ pos st' = pos st + String.length u
              /\ caps st' = caps st
              /\ upper u = upper s.
Proof.
  induction s as [|a s IH]; intros st st' H.
  - simpl in H. subst. exists EmptyString; simpl; auto.
  - destruct s as [|b s].
    + apply den_chr in H as (c & s' & E & Hc & ->). exists (String c EmptyString).
      cbn [advance rest pos caps]. cbn [canon] in Hc. rewrite E, !upper_cons, Hc.
      repeat split; simpl; auto; lia.
    + change (lit (String a (String b s))) with (Seq (Chr a) (lit (String b s))) in H.
      apply den_seq in H as (m1 & H1 & H2).
      apply den_chr in H1 as (c & s' & E & Hc & ->).
      apply IH in H2 as (u & Eu & Pu & Cu & Uu). cbn [advance rest pos caps] in *.
      exists (String c u). cbn [canon] in Hc. rewrite E, Eu.
      repeat split; simpl; auto; try lia.
      rewrite (upper_cons c u), (upper_cons a (String b s)), Uu, Hc. reflexivity.
Qed.

Lemma projectChar_word (a : ascii) :
  class_matches true false [CWord; CChar "-"] a = true -> isProjectChar a = true.
Proof. destruct a as [[] [] [] [] [] [] [] []]; vm_compute; auto. Qed.

Lemma projectChar_dot (a : ascii) :
  Ascii.eqb (canon true ".") (canon true a) = true -> isProjectChar a = true.
Proof. destruct a as [[] [] [] [] [] [] [] []]; vm_compute; auto. Qed.

Lemma projectChar_git (c a : ascii) :
  In c ["g"; "i"; "t"]%char ->
  Ascii.eqb (canon true c) (canon true a) = true -> isProjectChar a = true.
Proof.
  intros [<-|[<-|[<-|[]]]];
    destruct a as [[] [] [] [] [] [] [] []]; vm_compute; auto.
Qed.

(** What [projectGroup] matches: one or more project characters. *)
Lemma projectGroup_shape st st' :
  den true projectGroup st st' ->
  exists u, rest st = (u ++ rest st')%string
            /\ pos st' = pos st + String.length u
            /\ 1 <= String.length u
            /\ Sall (fun c => isProjectChar c = true) u.
Proof.
  intros H. pose proof (den_minlen _ _ _ _ H) as L.
  apply (den_alphabet true (fun c => isProjectChar c = true)) in H
      as (u & Eu & Pu & Su).
  - exists u. repeat split; auto.
    change (minlen projectGroup) with 1 in L. lia.
  - unfold projectGroup, plus. cbn [accepts lit].
    repeat split; auto using projectChar_word, projectChar_dot;
      intros a; apply projectChar_git; simpl; auto.
Qed.

Lemma hash_or_query (a : ascii) :
  class_matches true false [CChar "#"; CChar "?"] a = true ->
  a = "#"%char \/ a = "?"%char.
Proof. destruct a as [[] [] [] [] [] [] [] []]; vm_compute; auto; discriminate. Qed.

Lemma to_upper_fixed (c a : ascii) :
  In c ["/"; "."; "#"; "@"; ":"]%char ->
  canon true c = canon true a -> a = c.
Proof.
  intros [<-|[<-|[<-|[<-|[<-|[]]]]]];
    destruct a as [[] [] [] [] [] [] [] []]; vm_compute; intros H;
      try discriminate H; reflexivity.
Qed.

(** One or more hexadecimal digits. *)
Lemma hexPlus_shape st st' :
  den true (plus hexClass) st st' ->
  exists u, rest st = (u ++ rest st')%string
            /\ pos st' = pos st + String.length u
            /\ caps st' = caps st
            /\ 1 <= String.length u
            /\ Sall (fun c => isHex c = true) u.
Proof.
  intros (n & Hn & _ & H). apply iter_cls in H as (u & Eu & Lu & Su & Pu & Cu).
  exists u. repeat split; auto; try lia.
  eapply Sall_impl; [|exact Su]. apply hexChar_ci.
Qed.

Lemma den_opt ci r st st' :
  den ci (opt r) st st' -> st' = st \/ den ci r st st'.
Proof.
  intros (n & _ & Hn & H). destruct n as [|[|n]]; [left; exact H | right | lia].
  destruct H as (mid & H & ->). exact H.
Qed.

Lemma payload_den st st' :
  den true
      (seqs [plus hexClass;
             opt (Seq (Rep 3 (Some 3) (Chr ".")) (plus hexClass));
             opt (Chr "/");
             Look false (Alt (Cls false [CChar "#"; CChar "?"]) Eol)]) st st' ->
  exists payload,
    rest st = (payload ++ rest st')%string
    /\ pos st' = pos st + String.length payload
    /\ payloadShape payload
    /\ (rest st' = EmptyString
        \/ exists a s, rest st' = String a s /\ (a = "#"%char \/ a = "?"%char)).
Proof.
  cbn [seqs]. intros H.
  apply den_seq in H as (m1 & H1 & H).
  apply den_seq in H as (m2 & H2 & H).
  apply den_seq in H as (m3 & H3 & H4).
  apply hexPlus_shape in H1 as (h1 & E1 & P1 & _ & L1 & S1).
  assert (R : exists range, rest m1 = (range ++ rest m2)%string
                /\ pos m2 = pos m1 + String.length range
                /\ (range = EmptyString
                    \/ exists h2, range = ("..." ++ h2)%string
                         /\ 1 <= String.length h2 /\ Sall (fun c => isHex c = true) h2)).
  { apply den_opt in H2 as [->|H2].
    - exists EmptyString; simpl. auto.
    - apply den_seq in H2 as (x & (n & Lo & Hi & Hd) & Hh).
      assert (n = 3) by lia. subst n. cbn [iter] in Hd.
      destruct Hd as (x1 & D1 & x2 & D2 & x3 & D3 & ->).
      apply den_chr in D1 as (a1 & s1 & Ea1 & C1 & ->).
      apply den_chr in D2 as (a2 & s2 & Ea2 & C2 & ->).
      apply den_chr in D3 as (a3 & s3 & Ea3 & C3 & ->).
      apply to_upper_fixed in C1, C2, C3; try (simpl; tauto). subst a1 a2 a3.
      apply hexPlus_shape in Hh as (h2 & E2 & P2 & _ & L2 & S2).
      cbn [advance rest pos caps] in *.
      exists ("..." ++ h2)%string. rewrite Ea1, Ea2, Ea3, E2.
      split; [reflexivity|]. split; [simpl; lia|]. right. exists h2. auto. }
  destruct R as (range & Er & Pr & Hr).
  assert (S : exists slash, rest m2 = (slash ++ rest m3)%string
                /\ pos m3 = pos m2 + String.length slash
                /\ (slash = EmptyString \/ slash = "/")).
  { apply den_opt in H3 as [->|H3].
    - exists EmptyString; simpl. auto.
    - apply den_chr in H3 as (a & s & Ea & Ca & ->).
      apply to_upper_fixed in Ca; [|simpl; tauto]. subst a.
      exists "/". cbn [advance rest pos]. rewrite Ea. simpl. repeat split; auto; lia. }
  destruct S as (slash & Es & Ps & Hs).
  cbn [den] in H4. destruct H4 as (x & Hx & ->). cbn [rest pos].
  exists (h1 ++ range ++ slash)%string.
  split; [rewrite E1, Er, Es, !app_assoc; reflexivity|].
  split; [rewrite !length_app; lia|].
  split; [exists h1, range, slash; auto|].
  destruct Hx as [Hx|Hx].
  - destruct Hx as (a & s & Ea & Hc & _). right. exists a, s. split; [exact Ea|].
    now apply hash_or_query.
  - destruct Hx as (Hx & _). now left.
Qed.

Lemma page_den st st' :
  den true (Alt (lit "commit") (Alt (lit "compare") (Alt (lit "issues") (lit "pull"))))
      st st' ->
  exists page, rest st = (page ++ rest st')%string
               /\ pos st' = pos st + String.length page
               /\ pageWord page.
Proof.
  unfold pageWord.
  intros [H|[H|[H|H]]]; apply den_lit in H as (u & E & P & _ & U);
    exists u; repeat split; auto.
Qed.

Lemma take_consumed (p : nat) (u r : string) :
  Str.take (p + String.length u - p) (u ++ r) = u.
Proof. replace (p + String.length u - p) with (String.length u) by lia. apply take_app. Qed.

(** ** The anatomy of a URL the literal-link pattern accepts *)
Lemma link_anatomy (url : string) (m : Match) :
  exec linkRegex url 0 = Some m ->
  exists scheme rest',
    url = (scheme ++ grp m 1 ++ "/" ++ grp m 2 ++ "/" ++ grp m 3 ++ "/"
                  ++ grp m 4 ++ rest')%string
    /\ whole m = (scheme ++ grp m 1 ++ "/" ++ grp m 2 ++ "/" ++ grp m 3 ++ "/"
                         ++ grp m 4)%string
    /\ index m = 0
    /\ (upper scheme = "HTTP://GITHUB.COM/" \/ upper scheme = "HTTPS://GITHUB.COM/")
    /\ (exists a u, grp m 1 = String a u /\ String.length u <= 38
                    /\ isAlnum a = true /\ Sall (fun c => isUserChar c = true) u)
    /\ (1 <= String.length (grp m 2)
        /\ Sall (fun c => isProjectChar c = true) (grp m 2))
    /\ pageWord (grp m 3)
    /\ payloadShape (grp m 4)
    /\ (rest' = EmptyString
        \/ exists a s, rest' = String a s /\ (a = "#"%char \/ a = "?"%char)).
Proof.
  intros H. apply exec_match in H as (pre & post & st' & Es & Hi & _ & Hd & Hr & Hp & Hg).
  unfold linkRegex in Hd; cbn [body seqs ignoreCase ngroups repoGroup] in Hd.
  apply den_seq in Hd as (m0 & (P0 & ->) & Hd). cbn [pos] in P0.
  destruct pre; [|rewrite P0 in Hi; discriminate]. cbn [append] in Es.
  apply den_seq in Hd as (m1 & H1 & Hd).
  apply den_seq in Hd as (m2 & H2 & Hd).
  apply den_seq in Hd as (m3 & H3 & Hd).
  apply den_seq in Hd as (m4 & Hrepo & Htail).
  apply den_lit in H1 as (u1 & E1 & P1 & C1 & U1).
  assert (S2 : exists u2, rest m1 = (u2 ++ rest m2)%string
                 /\ pos m2 = pos m1 + String.length u2
                 /\ (upper u2 = EmptyString \/ upper u2 = "S")).
  { apply den_opt in H2 as [->|H2].
    - exists EmptyString; simpl; auto.
    - apply den_chr in H2 as (a & s & Ea & Ca & ->). exists (String a EmptyString).
      cbn [advance rest pos canon] in *. rewrite Ea, upper_cons, <- Ca.
      simpl; repeat split; auto; lia. }
  destruct S2 as (u2 & E2 & P2 & U2).
  apply den_lit in H3 as (u3 & E3 & P3 & C3 & U3).
  (* user and project *)
  apply den_head_group in Hrepo as (x1 & user & Hu & Eu & Pu & Hrepo & Cu);
    [|vm_compute; intuition lia].
  apply den_seq in Hrepo as (x2 & Hs1 & Hproj).
  apply den_chr in Hs1 as (a1 & s1 & Ea1 & Ca1 & ->).
  apply to_upper_fixed in Ca1; [|simpl; tauto]. subst a1.
  assert (Cu' : nth 0 (caps m4) None = Some user) by exact Cu.
  pose proof Hproj as Hproj'.
  apply den_group in Hproj' as (x3 & Hp3 & Em4).
  destruct (projectGroup_shape _ _ Hp3) as (project & Ep & Pp & Lp & Sp).
  cbn [capture advance rest pos caps] in Ep, Pp.
  assert (Cp : nth 1 (caps m4) None = Some project).
  { rewrite Em4. cbn [capture caps advance pos rest Nat.sub].
    rewrite nth_set_nth_same, Ep, Pp. now rewrite take_consumed. }
  (* page and payload *)
  apply den_seq in Htail as (y1 & Hs2 & Htail).
  apply den_chr in Hs2 as (a2 & s2 & Ea2 & Ca2 & ->).
  apply to_upper_fixed in Ca2; [|simpl; tauto]. subst a2.
  pose proof Htail as Htail'.
  apply den_head_group in Htail' as (y2 & page & Hpg & Epg & Ppg & Hrest & Cpg);
    [|vm_compute; intuition lia].
  apply page_den in Hpg as (page' & Epg' & Ppg' & Wpg).
  assert (page' = page).
  { rewrite Epg in Epg'. apply (f_equal (Str.take (String.length page))) in Epg'.
    rewrite take_app in Epg'. assert (String.length page = String.length page') by lia.
    rewrite H, take_app in Epg'. auto. }
  subst page'.
  apply den_seq in Hrest as (y3 & Hs3 & Hpay).
  apply den_chr in Hs3 as (a3 & s3 & Ea3 & Ca3 & ->).
  apply to_upper_fixed in Ca3; [|simpl; tauto]. subst a3.
  apply den_group in Hpay as (y4 & Hpay & Est').
  apply payload_den in Hpay as (payload & Epay & Ppay & Spay & Rpay).
  cbn [capture advance rest pos caps] in Epay, Ppay, Ea3, Epg, Ppg, Ea2.
  assert (C4 : nth 3 (caps st') None = Some payload).
  { rewrite Est'. cbn [capture caps advance pos rest Nat.sub].
    rewrite nth_set_nth_same, Epay, Ppay. now rewrite take_consumed. }
  assert (C12 : nth 0 (caps st') None = Some user /\ nth 1 (caps st') None = Some project).
  { split.
    - rewrite <- Cu'. change (caps m4) with (caps (advance m4 s2)). kept Htail.
    - rewrite <- Cp. change (caps m4) with (caps (advance m4 s2)). kept Htail. }
  destruct C12 as (C1' & C2').
  assert (G : grp m 1 = user /\ grp m 2 = project /\ grp m 3 = page /\ grp m 4 = payload).
  { cbn [Nat.sub] in Cpg, C1'. unfold grp, group. cbn [Nat.sub].
    rewrite Hg, C1', C2', Cpg, C4. auto. }
  destruct G as (-> & -> & -> & ->).
  destruct (userGroup_shape _ _ Hu) as (a & u & Eua & Pua & _ & Lu & Aa & Su).
  assert (user = String a u).
  { rewrite Eu in Eua. apply (f_equal (Str.take (String.length user))) in Eua.
    rewrite take_app in Eua. assert (String.length user = String.length (String a u))
      by (simpl; lia). rewrite H, take_app in Eua. auto. }
  subst user.
  assert (Erest : rest st' = rest y4) by (rewrite Est'; reflexivity).
  assert (Em4r : rest m4 = rest x3 /\ pos m4 = pos x3) by (rewrite Em4; auto).
  destruct Em4r as (Em4r & Em4p).
  cbn [capture advance rest pos caps] in *.
  assert (Eall : (whole m ++ post)%string
                 = (((u1 ++ u2) ++ u3) ++ String a u ++ "/" ++ project ++ "/" ++ page
                      ++ "/" ++ payload ++ post)%string).
  { rewrite E1, E2, E3, Eu, Ea1, Ep, <- Em4r, Ea2, Epg, Ea3, Epay, <- Erest, Hr.
    rewrite !app_assoc. reflexivity. }
  assert (Ewhole : whole m
                   = (((u1 ++ u2) ++ u3) ++ String a u ++ "/" ++ project ++ "/" ++ page
                        ++ "/" ++ payload)%string).
  { apply (f_equal (Str.take (String.length (whole m)))) in Eall.
    rewrite take_app in Eall. rewrite Eall.
    assert (L : String.length (whole m)
                = String.length (((u1 ++ u2) ++ u3) ++ String a u ++ "/" ++ project ++ "/"
                                   ++ page ++ "/" ++ payload)%string).
    { assert (Pst : pos st' = pos y4) by (rewrite Est'; reflexivity).
      repeat (rewrite length_app || cbn [String.length]).
      cbn [String.length] in Pu. lia. }
    rewrite L.
    replace (((u1 ++ u2) ++ u3) ++ String a u ++ "/" ++ project ++ "/" ++ page ++ "/"
               ++ payload ++ post)%string
      with ((((u1 ++ u2) ++ u3) ++ String a u ++ "/" ++ project ++ "/" ++ page ++ "/"
               ++ payload) ++ post)%string
      by (repeat (rewrite app_assoc || (progress cbn [append])); reflexivity).
    apply take_app. }
  exists ((u1 ++ u2) ++ u3)%string, post.
  split; [rewrite Es, Eall; reflexivity|].
  split; [exact Ewhole|]. split; [exact Hi|].
  split.
  { rewrite !upper_app, U1, U3. destruct U2 as [-> | ->]; [left | right]; reflexivity. }
  split; [exists a, u; auto|].
  split; [auto|]. split; [exact Wpg|]. split; [exact Spay|].
  rewrite <- Hr, Erest. exact Rpay.
Qed.

(** ** Comment flag *)

Lemma charAt_app (s t : string) :
  Str.charAt (s ++ t) (Z.of_nat (String.length s)) = Str.take 1 t.
Proof.
  unfold Str.charAt. destruct (Z.ltb_spec (Z.of_nat (String.length s)) 0); [lia|].
  now rewrite Nat2Z.id, drop_app.
Qed.

Lemma comment_flag (w r : string) :
  String.eqb (Str.charAt (w ++ r) (Z.of_nat (String.length w))) "#"
  && (String.length w + 1 <? String.length (w ++ r)) = true
  <-> exists r', r = String "#" r' /\ r' <> EmptyString.
Proof.
  rewrite charAt_app, length_app, andb_true_iff, String.eqb_eq, Nat.ltb_lt. split.
  - intros (H1 & H2). destruct r as [|a [|b r]]; simpl in *; try discriminate; try lia.
    injection H1 as ->. exists (String b r). split; [reflexivity | discriminate].
  - intros (r' & -> & Hr). destruct r' as [|b r']; [congruence|]. simpl. split; [reflexivity | lia].
Qed.

(** ** Shapes of the scanning patterns *)

Lemma prefix_unique (u u' r r' : string) :
  (u ++ r = u' ++ r')%string -> String.length u = String.length u' -> u = u'.
Proof.
  intros E L. apply (f_equal (Str.take (String.length u))) in E.
  rewrite take_app, L, take_app in E. exact E.
Qed.

Lemma den_group_full ci i r st st' :
  den ci (Group i r) st st' ->
  exists mid u,
    den ci r st mid
    /\ rest st = (u ++ rest mid)%string /\ pos mid = pos st + String.length u
    /\ rest st' = rest mid /\ pos st' = pos mid
    /\ nth (i - 1) (caps st') None = Some u
    /\ (forall j, j <> i - 1 -> nth j (caps st') None = nth j (caps mid) None).
Proof.
  intros H. apply den_group in H as (mid & H & ->).
  destruct (den_consumes _ _ _ _ H) as (u & Eu & Pu).
  exists mid, u. cbn [capture rest pos caps]. repeat split; auto.
  - rewrite nth_set_nth_same, Eu, Pu. now rewrite take_consumed.
  - intros j Hj. now apply nth_set_nth_other.
Qed.

Lemma digit_first (a : ascii) :
  class_matches true false [CRange "1" "9"] a = true -> between "1" "9" a = true.
Proof. destruct a as [[] [] [] [] [] [] [] []]; vm_compute; auto. Qed.

Lemma digit_rest (a : ascii) :
  class_matches true false [CDigit] a = true -> is_digit a = true.
Proof. destruct a as [[] [] [] [] [] [] [] []]; vm_compute; auto. Qed.

Lemma number_shape st st' :
  den true (Seq (Cls false [CRange "1" "9"]) (Rep 0 None (Cls false [CDigit]))) st st' ->
  exists d ds,
    rest st = (String d ds ++ rest st')%string
    /\ pos st' = pos st + S (String.length ds)
    /\ caps st' = caps st
    /\ between "1" "9" d = true /\ Sall (fun c => is_digit c = true) ds.
Proof.
  intros H. apply den_seq in H as (m1 & H1 & H2).
  destruct H1 as (a & s' & E & Hc & ->).
  destruct H2 as (n & _ & _ & H2). apply iter_cls in H2 as (u & Eu & Lu & Su & Pu & Cu).
  cbn [advance rest pos caps] in *.
  exists a, u. rewrite E, Eu. repeat split; auto; try lia.
  - now apply digit_first.
  - eapply Sall_impl; [|exact Su]. apply digit_rest.
Qed.

Lemma hash_shape st st' :
  den true (Rep 7 (Some 40) hexClass) st st' ->
  exists h, rest st = (h ++ rest st')%string
            /\ pos st' = pos st + String.length h
            /\ caps st' = caps st
            /\ 7 <= String.length h <= 40
            /\ Sall (fun c => isHex c = true) h.
Proof.
  intros (n & Lo & Hi & H). apply iter_cls in H as (u & Eu & Lu & Su & Pu & Cu).
  exists u. repeat split; auto; try lia.
  eapply Sall_impl; [|exact Su]. apply hexChar_ci.
Qed.

Lemma userGroup_group i st st' :
  den true (Group i userGroup) st st' ->
  exists user,
    userShape user
    /\ rest st = (user ++ rest st')%string
    /\ pos st' = pos st + String.length user
    /\ nth (i - 1) (caps st') None = Some user
    /\ (forall j, j <> i - 1 -> nth j (caps st') None = nth j (caps st) None).
Proof.
  intros H. apply den_group_full in H as (mid & u & Hd & Eu & Pu & Er & Pr & Cu & Co).
  destruct (userGroup_shape _ _ Hd) as (a & u' & Eu' & Pu' & Cm & Lu & Aa & Su).
  assert (u = String a u').
  { rewrite Eu in Eu'. apply (prefix_unique _ _ _ _ Eu'). simpl. lia. }
  subst u. exists (String a u'). rewrite Er, Pr.
  split; [exists a, u'; auto|]. repeat split; auto.
  intros j Hj. rewrite (Co j Hj). now rewrite Cm.
Qed.

Lemma projectGroup_group i st st' :
  den true (Group i projectGroup) st st' ->
  exists project,
    projectShape project
    /\ rest st = (project ++ rest st')%string
    /\ pos st' = pos st + String.length project
    /\ nth (i - 1) (caps st') None = Some project
    /\ (forall j, j <> i - 1 -> nth j (caps st') None = nth j (caps st) None).
Proof.
  intros H. apply den_group_full in H as (mid & u & Hd & Eu & Pu & Er & Pr & Cu & Co).
  destruct (projectGroup_shape _ _ Hd) as (p & Ep & Pp & Lp & Sp).
  assert (u = p). { rewrite Eu in Ep. apply (prefix_unique _ _ _ _ Ep). lia. }
  subst u. exists p. rewrite Er, Pr. split; [split; auto|]. repeat split; auto.
  intros j Hj. rewrite (Co j Hj).
  apply (den_caps true projectGroup j); [vm_compute; tauto | exact Hd].
Qed.

(** ** The anatomy of a reference match *)
Lemma reference_anatomy (s : string) (i : nat) (m : Match) :
  exec referenceRegex s i = Some m ->
  exists user proj tail,
    whole m = (user ++ proj ++ tail)%string
    /\ group m 1 = Some user /\ userShape user
    /\ ((group m 2 = None /\ proj = EmptyString)
        \/ exists p, group m 2 = Some p /\ proj = ("/" ++ p)%string /\ projectShape p)
    /\ ((exists d ds, group m 3 = Some (String d ds) /\ group m 4 = None
                      /\ tail = ("#" ++ String d ds)%string
                      /\ between "1" "9" d = true
                      /\ Sall (fun c => is_digit c = true) ds)
        \/ (exists h, group m 3 = None /\ group m 4 = Some h
                      /\ tail = ("@" ++ h)%string
                      /\ 7 <= String.length h <= 40
                      /\ Sall (fun c => isHex c = true) h)).
Proof.
  intros H. apply exec_match in H as (pre & post & st' & _ & _ & _ & Hd & Hr & Hp & Hg).
  unfold referenceRegex in Hd; cbn [body seqs ignoreCase ngroups] in Hd.
  apply den_seq in Hd as (m1 & H1 & Hd).
  apply den_seq in Hd as (m2 & H2 & H3).
  apply userGroup_group in H1 as (user & Su & Eu & Pu & Cu & Ou).
  cbn [rest pos caps Nat.sub] in Eu, Pu, Cu, Ou.
  (* the optional project *)
  assert (P : exists proj,
             rest m1 = (proj ++ rest m2)%string
             /\ pos m2 = pos m1 + String.length proj
             /\ nth 0 (caps m2) None = Some user
             /\ nth 2 (caps m2) None = None /\ nth 3 (caps m2) None = None
             /\ ((nth 1 (caps m2) None = None /\ proj = EmptyString)
                 \/ exists p, nth 1 (caps m2) None = Some p
                              /\ proj = ("/" ++ p)%string /\ projectShape p)).
  { apply den_opt in H2 as [->|H2].
    - exists EmptyString. simpl.
      split; [reflexivity|]. split; [lia|]. split; [exact Cu|].
      rewrite !Ou by lia. cbn [caps]. split; [reflexivity|]. split; [reflexivity|].
      left. split; reflexivity.
    - apply den_seq in H2 as (x & Hc & Hg2).
      apply den_chr in Hc as (a & s1 & Ea & Ca & ->).
      apply to_upper_fixed in Ca; [|simpl; tauto]. subst a.
      apply projectGroup_group in Hg2 as (p & Sp & Ep & Pp & Cp & Op).
      cbn [advance rest pos caps Nat.sub] in Ep, Pp, Cp, Op.
      exists ("/" ++ p)%string. rewrite Ea, Ep.
      split; [reflexivity|]. split; [simpl; lia|].
      rewrite (Op 0), (Op 2), (Op 3) by lia. rewrite (Ou 2), (Ou 3) by lia.
      cbn [caps]. repeat split; auto.
      right. exists p. auto. }
  destruct P as (proj & Ep & Pp & C0 & C2 & C3 & Hproj).
  assert (T : exists tail,
             rest m2 = (tail ++ rest st')%string
             /\ pos st' = pos m2 + String.length tail
             /\ nth 0 (caps st') None = nth 0 (caps m2) None
             /\ nth 1 (caps st') None = nth 1 (caps m2) None
             /\ ((exists d ds, nth 2 (caps st') None = Some (String d ds)
                               /\ nth 3 (caps st') None = None
                               /\ tail = ("#" ++ String d ds)%string
                               /\ between "1" "9" d = true
                               /\ Sall (fun c => is_digit c = true) ds)
                 \/ (exists h, nth 2 (caps st') None = None
                               /\ nth 3 (caps st') None = Some h
                               /\ tail = ("@" ++ h)%string
                               /\ 7 <= String.length h <= 40
                               /\ Sall (fun c => isHex c = true) h))).
  { destruct H3 as [H3|H3]; apply den_seq in H3 as (x & Hc & Hg3);
      apply den_chr in Hc as (a & s1 & Ea & Ca & ->);
      (apply to_upper_fixed in Ca; [|simpl; tauto]); subst a;
      apply den_group_full in Hg3 as (mid & u & Hd3 & Eu3 & Pu3 & Er3 & Pr3 & Cu3 & Ou3);
      cbn [advance rest pos caps Nat.sub] in *.
    - destruct (number_shape _ _ Hd3) as (d & ds & En & Pn & Cn & Hd1 & Hds).
      cbn [advance rest pos caps] in *.
      assert (u = String d ds).
      { rewrite Eu3 in En. apply (prefix_unique _ _ _ _ En). simpl. lia. }
      subst u. exists ("#" ++ String d ds)%string. rewrite Ea, Eu3, Er3, Pr3.
      split; [reflexivity|]. split; [simpl in *; lia|].
      rewrite (Ou3 0), (Ou3 1), (Ou3 3) by lia. rewrite Cn. cbn [advance caps].
      repeat split; auto. left. exists d, ds. rewrite C3. auto.
    - destruct (hash_shape _ _ Hd3) as (h & Eh & Ph & Ch & Lh & Sh).
      cbn [advance rest pos caps] in *.
      assert (u = h). { rewrite Eu3 in Eh. apply (prefix_unique _ _ _ _ Eh). lia. }
      subst u. exists ("@" ++ h)%string. rewrite Ea, Eu3, Er3, Pr3.
      split; [reflexivity|]. split; [simpl in *; lia|].
      rewrite (Ou3 0), (Ou3 1), (Ou3 2) by lia. rewrite Ch. cbn [advance caps].
      repeat split; auto. right. exists h. rewrite C2. auto. }
  destruct T as (tail & Et & Pt & T0 & T1 & Htail).
  exists user, proj, tail.
  assert (Ew : whole m = (user ++ proj ++ tail)%string).
  { assert (E : (whole m ++ post)%string = ((user ++ proj ++ tail) ++ post)%string).
    { rewrite Eu, Ep, Et, Hr, !app_assoc. reflexivity. }
    apply (prefix_unique _ _ _ _ E). rewrite !length_app. lia. }
  unfold group. cbn [Nat.sub]. rewrite Hg.
  split; [exact Ew|]. split; [rewrite T0; exact C0|]. split; [exact Su|].
  rewrite T1. split; [exact Hproj | exact Htail].
Qed.

Lemma userGroup_plain st st' :
  den true userGroup st st' ->
  exists user, userShape user
               /\ rest st = (user ++ rest st')%string
               /\ pos st' = pos st + String.length user.
Proof.
  intros H. destruct (userGroup_shape _ _ H) as (a & u & E & P & _ & L & A & S).
  exists (String a u). split; [exists a, u; auto|]. split; [exact E | simpl; lia].
Qed.

(** ** The anatomy of a mention match *)
Lemma mention_anatomy (s : string) (i : nat) (m : Match) :
  exec mentionRegex s i = Some m ->
  exists name,
    whole m = ("@" ++ name)%string
    /\ group m 1 = Some name
    /\ (userShape name
        \/ exists u1 u2, name = (u1 ++ "/" ++ u2)%string /\ userShape u1 /\ userShape u2).
Proof.
  intros H. apply exec_match in H as (pre & post & st' & _ & _ & _ & Hd & Hr & Hp & Hg).
  unfold mentionRegex in Hd; cbn [body ignoreCase ngroups] in Hd.
  apply den_seq in Hd as (m0 & H0 & Hd).
  apply den_chr in H0 as (a & s' & E & Hc & ->).
  apply to_upper_fixed in Hc; [|simpl; tauto]. subst a.
  apply den_group_full in Hd as (mid & name & Hn & En & Pn & Er & Pr & Cn & _).
  cbn [advance rest pos caps Nat.sub] in *.
  exists name.
  assert (Ew : whole m = ("@" ++ name)%string).
  { assert (E' : (whole m ++ post)%string = (("@" ++ name) ++ post)%string).
    { rewrite E, En, <- Er, Hr. reflexivity. }
    apply (prefix_unique _ _ _ _ E'). simpl.
    lia. }
  split; [exact Ew|]. split; [unfold group; cbn [Nat.sub]; now rewrite Hg|].
  apply den_seq in Hn as (x & H1 & H2).
  apply userGroup_plain in H1 as (u1 & S1 & E1 & P1).
  cbn [advance rest pos] in E1, P1.
  apply den_opt in H2 as [->|H2].
  - left. assert (name = u1).
    { rewrite En in E1. apply (prefix_unique _ _ _ _ E1). lia. }
    now subst.
  - right. apply den_seq in H2 as (y & Hs & H3).
    apply den_chr in Hs as (a & s2 & Ea & Ca & ->).
    apply to_upper_fixed in Ca; [|simpl; tauto]. subst a.
    apply userGroup_plain in H3 as (u2 & S2 & E2 & P2). cbn [advance rest pos] in E2, P2.
    exists u1, u2. split; [|auto].
    assert (E' : (name ++ rest mid)%string = ((u1 ++ "/" ++ u2) ++ rest mid)%string).
    { rewrite <- En, E1, Ea, E2, !app_assoc. reflexivity. }
    apply (prefix_unique _ _ _ _ E'). rewrite !length_app. simpl. lia.
Qed.

End ShapeFacts.

(** ** The scanner on texts and trees *)

Module ScannerFacts.

Import Re Github StrFacts ReFacts PatternFacts PluginFacts RewriterFacts.
Local Open Scope nat_scope.
Import ShapeFacts.

(** ** Reference boundary *)
Lemma test_notOpening (c : ascii) :
  test reNotOpening (String c EmptyString) = negb (existsb (Ascii.eqb c) openers).
Proof.
  unfold reNotOpening. rewrite test_class1.
  destruct c as [[] [] [] [] [] [] [] []]; vm_compute; reflexivity.
Qed.

Lemma test_word (c : ascii) : test reWord (String c EmptyString) = is_word c.
Proof.
  unfold reWord. rewrite test_class1. unfold class_matches. simpl.
  now rewrite orb_false_r.
Qed.

Lemma existsb_eqb_In (c : ascii) (l : list ascii) :
  existsb (Ascii.eqb c) l = true <-> In c l.
Proof.
  rewrite existsb_exists. split.
  - intros (x & Hx & E). apply Ascii.eqb_eq in E. now subst.
  - intros H. exists c. split; [exact H | apply Ascii.eqb_refl].
Qed.

Lemma validReference_iff (all : string) (mt : MatchInfo) :
  validReference all mt <->
  (Str.charAt (input mt) (offset mt - 1) = EmptyString
   \/ exists c, Str.charAt (input mt) (offset mt - 1) = String c EmptyString
                /\ In c openers)
  /\ (Str.charAt (input mt) (offset mt + Z.of_nat (String.length all)) = EmptyString
      \/ exists c, Str.charAt (input mt) (offset mt + Z.of_nat (String.length all))
                   = String c EmptyString
                   /\ is_word c = false).
Proof.
  unfold validReference.
  destruct (charAt_cases (input mt) (offset mt - 1)) as [-> | (c & ->)];
    destruct (charAt_cases (input mt) (offset mt + Z.of_nat (String.length all)))
      as [-> | (d & ->)];
    rewrite ?test_notOpening, ?test_word, ?negb_false_iff, ?existsb_eqb_In.
  - split; [intros _|intros _; split; reflexivity]. split; left; reflexivity.
  - split.
    + intros (_ & H). split; [left; reflexivity | right; exists d; auto].
    + intros (_ & [H | (d' & E & H)]); [discriminate|]. injection E as <-.
      split; [reflexivity | exact H].
  - split.
    + intros (H & _). split; [right; exists c; auto | left; reflexivity].
    + intros ([H | (c' & E & H)] & _); [discriminate|]. injection E as <-.
      split; [exact H | reflexivity].
  - split.
    + intros (H & H'). split; right; eauto.
    + intros ([H | (c' & E & H)] & [H' | (d' & E' & H')]); try discriminate.
      injection E as <-. injection E' as <-. split; assumption.
Qed.

Lemma replaceReference_guard options all user project no hash mt :
  ~ validReference all mt ->
  replaceReference options all user project no hash mt = (None, []).
Proof.
  unfold validReference, replaceReference. intros H.
  destruct (test reNotOpening _); [reflexivity|].
  destruct (test reWord _); [reflexivity|]. exfalso. apply H. split; reflexivity.
Qed.

(** ** The text content through the scanning loop *)

Lemma contents_cons (a : Node) (l : list Node) :
  contents (a :: l) = (toString a ++ contents l)%string.
Proof. reflexivity. Qed.

Lemma contents_app (l1 l2 : list Node) :
  contents (l1 ++ l2) = (contents l1 ++ contents l2)%string.
Proof.
  induction l1 as [|x l1 IH]; [reflexivity|]. unfold contents in *. simpl.
  now rewrite IH, app_assoc.
Qed.

Lemma take_take_drop (i j : nat) (s : string) :
  i <= j -> (Str.take i s ++ Str.take (j - i) (Str.drop i s))%string = Str.take j s.
Proof.
  revert j s; induction i as [|i IH]; intros j s H.
  - simpl. rewrite Nat.sub_0_r. now destruct s.
  - destruct j as [|j]; [lia|]. destruct s as [|a s].
    + simpl. now destruct (j - i).
    + simpl. rewrite IH by lia. reflexivity.
Qed.

Lemma take_app_more (n : nat) (s t : string) :
  Str.take (String.length s + n) (s ++ t) = (s ++ Str.take n t)%string.
Proof. induction s as [|a s IH]; simpl; [reflexivity | now rewrite IH]. Qed.

Section Content.
Variable find : RegExp.
Variable replace : ReplaceFunction.
Variable value : string.
Hypothesis find_global : global find = true.
Hypothesis replace_content :
  forall i m n, exec find value i = Some m ->
                fst (replace m value) = Some n -> toString n = whole m.

Lemma handlerLoop_content (fuel : nat) :
  forall lastIndex start nodes change,
    start <= lastIndex ->
    contents nodes = Str.take start value ->
    let '(nodes', start', _) :=
      fst (handlerLoop fuel find replace value lastIndex start nodes change) in
    contents nodes' = Str.take start' value.
Proof.
  induction fuel as [|fuel IH]; intros lastIndex start nodes change Hs Hc; simpl.
  - exact Hc.
  - destruct (exec find value lastIndex) as [m|] eqn:E; [|exact Hc].
    rewrite fst_bind.
    pose proof (exec_match _ _ _ _ E) as (pre & post & st' & Ev & Hi & Hle & _).
    rewrite find_global in Hle.
    destruct (fst (replace m value)) as [new|] eqn:Er.
    + apply IH; [unfold endIndex; lia|].
      rewrite contents_app.
      assert (Hn : contents [new] = whole m).
      { unfold contents; simpl. rewrite (replace_content _ _ _ E Er). apply app_nil_r. }
      rewrite Hn.
      assert (Hp : contents (if start =? index m then nodes
                             else nodes ++ [text (Str.slice start (index m) value)])
                   = Str.take (index m) value).
      { destruct (Nat.eqb_spec start (index m)) as [->|Hne]; [exact Hc|].
        rewrite contents_app, Hc. unfold contents, Str.slice; simpl.
        rewrite app_nil_r. apply take_take_drop. lia. }
      rewrite Hp, Hi. rewrite Ev at 1 2.
      rewrite take_app, take_app_more, take_app. reflexivity.
    + apply IH; [unfold endIndex; lia | exact Hc].
Qed.

Lemma handler_content : contents (fst (handler find replace value)) = value.
Proof.
  unfold handler. rewrite fst_bind.
  pose proof (handlerLoop_content (S (String.length value)) 0 0 [] false
                (Nat.le_refl 0) eq_refl) as H.
  destruct (fst (handlerLoop _ _ _ _ _ _ _ _)) as [[nodes start] change].
  destruct change; cbn [ret fst].
  - destruct (Nat.ltb_spec start (String.length value)).
    + rewrite contents_app, H. unfold contents; simpl. rewrite app_nil_r.
      apply take_drop.
    + rewrite H. apply take_all. lia.
  - unfold contents; simpl. apply app_nil_r.
Qed.
End Content.

Section PassContent.
Variable find : RegExp.
Variable replace : ReplaceFunction.
Hypothesis handler_keeps :
  forall value, contents (fst (handler find replace value)) = value.

Lemma passChildren_content (c : list Node) :
  Forall (fun n => toString (fst (pass find replace n)) = toString n) c ->
  contents (fst (passChildren (handler find replace) (pass find replace) c))
  = contents c.
Proof.
  induction 1 as [|x tl Hx _ IH]; [reflexivity|].
  assert (Hother : isText x = false ->
            contents (fst (passChildren (handler find replace) (pass find replace) (x :: tl)))
            = contents (x :: tl)).
  { intros Hnt.
    assert (E1 : passChildren (handler find replace) (pass find replace) (x :: tl) =
                 bind (pass find replace x)
                      (fun c' => bind (passChildren (handler find replace)
                                                    (pass find replace) tl)
                                      (fun tl' => ret (c' :: tl')))).
    { destruct x; try reflexivity; discriminate. }
    rewrite E1, !fst_bind. cbn [ret fst].
    now rewrite !contents_cons, Hx, IH. }
  destruct x; try (apply Hother; reflexivity).
  cbn [passChildren]. fold (passChildren (handler find replace) (pass find replace)).
  rewrite !fst_bind. cbn [ret fst].
  rewrite contents_app, handler_keeps, IH. reflexivity.
Qed.

Lemma pass_content (n : Node) :
  toString (fst (pass find replace n)) = toString n.
Proof.
  induction n as [v|v|c IH|u t c IH|c IH|k c IH|k v] using Node_ind;
    try reflexivity.
  - cbn [pass]. rewrite fst_bind. cbn [ret fst toString].
    apply (passChildren_content c IH).
  - cbn [pass]. rewrite fst_bind. cbn [ret fst toString].
    apply (passChildren_content c IH).
Qed.
End PassContent.

Lemma mentionReplacer_content options m value n :
  fst (mentionReplacer options m value) = Some n -> toString n = whole m.
Proof.
  unfold mentionReplacer, replaceMention.
  destruct (_ || _); [cbn [ret fst]; discriminate|].
  rewrite fst_bind.
  match goal with |- context [negb (truthy ?x)] => generalize x end.
  intros url. destruct (negb (truthy url)); cbn [ret fst]; [discriminate|].
  intros H; injection H as <-.
  destruct (mentionStrong options) as [[]|]; simpl; now rewrite ?app_nil_r.
Qed.

(** ** Texts the scanner leaves alone *)

Section PassUnchanged.
Variable find : RegExp.
Variable replace : ReplaceFunction.

Lemma passChildren_unchanged (c : list Node) :
  (forall v, In v (flat_map texts c) -> handler find replace v = ([text v], [])) ->
  Forall (fun n => (forall v, In v (texts n) -> handler find replace v = ([text v], [])) ->
                   pass find replace n = (n, [])) c ->
  passChildren (handler find replace) (pass find replace) c = (c, []).
Proof.
  intros Hv H. induction H as [|x tl Hx _ IH]; [reflexivity|].
  cbn [flat_map] in Hv.
  assert (Htl : passChildren (handler find replace) (pass find replace) tl = (tl, [])).
  { apply IH. intros v Hin. apply Hv, in_or_app. now right. }
  assert (Hx' : pass find replace x = (x, [])).
  { apply Hx. intros v Hin. apply Hv, in_or_app. now left. }
  destruct x; cbn [passChildren];
    fold (passChildren (handler find replace) (pass find replace));
    rewrite ?Hx', Htl; try reflexivity.
  rewrite (Hv value) by (apply in_or_app; left; simpl; auto). reflexivity.
Qed.

Lemma pass_unchanged (n : Node) :
  (forall v, In v (texts n) -> handler find replace v = ([text v], [])) ->
  pass find replace n = (n, []).
Proof.
  induction n as [v|v|c IH|u t c IH|c IH|k c IH|k v] using Node_ind;
    intros Hv; try reflexivity.
  - cbn [pass]. rewrite (passChildren_unchanged c Hv IH). reflexivity.
  - cbn [pass]. rewrite (passChildren_unchanged c Hv IH). reflexivity.
Qed.

Lemma passChildren_fst_unchanged (c : list Node) :
  (forall v, fst (handler find replace v) = [text v]) ->
  Forall (fun n => fst (pass find replace n) = n) c ->
  fst (passChildren (handler find replace) (pass find replace) c) = c.
Proof.
  intros Hv H. induction H as [|x tl Hx _ IH]; [reflexivity|].
  destruct x; cbn [passChildren];
    fold (passChildren (handler find replace) (pass find replace));
    rewrite !fst_bind; cbn [ret fst]; rewrite ?Hx, ?IH, ?Hv; reflexivity.
Qed.

Lemma pass_fst_unchanged (n : Node) :
  (forall v, fst (handler find replace v) = [text v]) ->
  fst (pass find replace n) = n.
Proof.
  intros Hv.
  induction n as [v|v|c IH|u t c IH|c IH|k c IH|k v] using Node_ind;
    try reflexivity.
  - cbn [pass]. rewrite fst_bind. cbn [ret fst].
    now rewrite (passChildren_fst_unchanged c Hv IH).
  - cbn [pass]. rewrite fst_bind. cbn [ret fst].
    now rewrite (passChildren_fst_unchanged c Hv IH).
Qed.
End PassUnchanged.

Lemma handler_no_match find replace value :
  exec find value 0 = None -> handler find replace value = ([text value], []).
Proof. intros H. unfold handler. cbn [handlerLoop]. rewrite H. reflexivity. Qed.

Lemma hasChar_app (c : ascii) (s t : string) :
  hasChar c (s ++ t) = hasChar c s || hasChar c t.
Proof. induction s as [|a s IH]; simpl; [reflexivity | now rewrite IH, orb_assoc]. Qed.

Lemma mention_needs_at (s : string) (i : nat) (m : Match) :
  exec mentionRegex s i = Some m -> hasChar "@" s = true.
Proof.
  intros H. pose proof (exec_match _ _ _ _ H) as (pre & post & st' & Es & _).
  apply mention_anatomy in H as (name & Ew & _).
  rewrite Es, Ew, !hasChar_app. simpl. now rewrite orb_true_r.
Qed.

Lemma reference_needs_mark (s : string) (i : nat) (m : Match) :
  exec referenceRegex s i = Some m -> hasChar "#" s || hasChar "@" s = true.
Proof.
  intros H. pose proof (exec_match _ _ _ _ H) as (pre & post & st' & Es & _).
  apply reference_anatomy in H as (user & proj & tail & Ew & _ & _ & _ & Ht).
  rewrite Es, Ew, !hasChar_app.
  destruct Ht as [(d & ds & _ & _ & -> & _) | (h & _ & _ & -> & _)]; simpl;
    rewrite ?orb_true_r; reflexivity.
Qed.

Lemma userShape_truthy (u : string) : userShape u -> truthy (Some u) = true.
Proof. intros (a & r & -> & _). reflexivity. Qed.

Lemma abbr_nonempty (s : string) : 1 <= String.length s -> 1 <= String.length (abbr s).
Proof. destruct s; simpl; lia. Qed.

Lemma abbr_short (s : string) :
  4 <= String.length s -> 4 <= String.length (abbr s) <= 7.
Proof.
  intros H. split; [|apply abbr_length].
  unfold abbr, minShaLength. rewrite take_length. lia.
Qed.

Lemma payloadShape_nonempty (p : string) : payloadShape p -> 1 <= String.length p.
Proof.
  intros (h1 & range & slash & -> & H & _). rewrite !length_app. lia.
Qed.

(** ** Two replacers that answer alike *)
Section SameAnswers.
Variable find : RegExp.
Variables r1 r2 : ReplaceFunction.
Hypothesis same : forall m v, fst (r1 m v) = fst (r2 m v).

Lemma handlerLoop_fst_ext (value : string) (fuel : nat) :
  forall lastIndex start nodes change,
    fst (handlerLoop fuel find r1 value lastIndex start nodes change)
    = fst (handlerLoop fuel find r2 value lastIndex start nodes change).
Proof.
  induction fuel as [|fuel IH]; intros; simpl; [reflexivity|].
  destruct (exec find value lastIndex) as [m|]; [|reflexivity].
  rewrite !fst_bind, same. destruct (fst (r2 m value)); apply IH.
Qed.

Lemma handler_fst_ext (value : string) :
  fst (handler find r1 value) = fst (handler find r2 value).
Proof.
  unfold handler. rewrite !fst_bind, handlerLoop_fst_ext. reflexivity.
Qed.

Lemma passChildren_fst_ext (c : list Node) :
  Forall (fun n => fst (pass find r1 n) = fst (pass find r2 n)) c ->
  fst (passChildren (handler find r1) (pass find r1) c)
  = fst (passChildren (handler find r2) (pass find r2) c).
Proof.
  intros H. induction H as [|x tl Hx _ IH]; [reflexivity|].
  destruct x; cbn [passChildren];
    fold (passChildren (handler find r1) (pass find r1));
    fold (passChildren (handler find r2) (pass find r2));
    rewrite !fst_bind; cbn [ret fst]; rewrite ?Hx, ?IH, ?handler_fst_ext; reflexivity.
Qed.

Lemma pass_fst_ext (n : Node) : fst (pass find r1 n) = fst (pass find r2 n).
Proof.
  induction n as [v|v|c IH|u t c IH|c IH|k c IH|k v] using Node_ind;
    try reflexivity; cbn [pass]; rewrite !fst_bind; cbn [ret fst];
    now rewrite (passChildren_fst_ext c IH).
Qed.
End SameAnswers.

Lemma referenceReplacer_app (m : Match) (v : string) :
  fst (referenceReplacer appOptions m v) = fst (referenceReplacer noOptions m v).
Proof.
  unfold referenceReplacer, replaceReference.
  destruct (_ || _); [reflexivity|]. rewrite !fst_bind.
  destruct (truthy (group m 3)); reflexivity.
Qed.

Lemma mentionReplacer_none options hook :
  buildUrlHook options = Some hook ->
  (forall user, hook (receiver options) (mention user) defaultBuildUrl = None) ->
  forall m v, fst (mentionReplacer options m v) = None.
Proof.
  intros Hh Hnone m v. unfold mentionReplacer, replaceMention.
  destruct (_ || _); [reflexivity|].
  rewrite fst_bind. unfold buildUrl. rewrite Hh. cbn [fst]. rewrite Hnone. reflexivity.
Qed.

Lemma display_links (l : ParsedLink) : flat_map links (display l) = [].
Proof.
  unfold display. destruct (_ || _); [reflexivity|].
  destruct (truthy _), (comment l); reflexivity.
Qed.

Lemma flat_map_links_visit (c : list Node) :
  Forall (fun n => links (visitLinks n) = links n) c ->
  flat_map links (map visitLinks c) = flat_map links c.
Proof.
  intros H. induction H as [|x tl Hx _ IH]; [reflexivity|].
  simpl. now rewrite Hx, IH.
Qed.

End ScannerFacts.

(** ** Texts the patterns accept *)

Module AcceptFacts.

Import Re Github StrFacts ReFacts PatternFacts PluginFacts RewriterFacts.
Local Open Scope nat_scope.
Import ShapeFacts ScannerFacts.

Lemma iterw_consumes (d : nat -> string -> nat -> string -> Prop) :
  (forall p s p' s', d p s p' s' ->
                     exists u, s = (u ++ s')%string /\ p' = p + String.length u) ->
  forall n p s p' s', iterw d n p s p' s' ->
                      exists u, s = (u ++ s')%string /\ p' = p + String.length u
                                /\ n <= String.length u.
Proof.
  intros Hd. induction n as [|n IH]; intros p s p' s' H; simpl in H.
  - destruct H as (-> & ->). exists EmptyString. simpl. repeat split; lia.
  - destruct H as (p1 & s1 & H1 & Hlt & H2).
    apply Hd in H1 as (u1 & -> & ->). apply IH in H2 as (u2 & -> & -> & Hn).
    exists (u1 ++ u2)%string. rewrite app_assoc, length_app. repeat split; lia.
Qed.

Lemma way_consumes (ci : bool) (r : regex) :
  forall p s p' s', way ci r p s p' s' ->
                    exists u, s = (u ++ s')%string /\ p' = p + String.length u.
Proof.
  induction r as [|c|neg items|r1 IH1 r2 IH2|r1 IH1 r2 IH2|lo hi r IH|i r IH|neg r IH| |];
    intros p s p' s' H; cbn [way] in H.
  - destruct H as (-> & ->). exists EmptyString. simpl. split; [reflexivity|lia].
  - destruct H as (a & -> & _ & ->). exists (String a EmptyString). simpl. split; [reflexivity|lia].
  - destruct H as (a & -> & _ & ->). exists (String a EmptyString). simpl. split; [reflexivity|lia].
  - destruct H as (p1 & s1 & H1 & H2).
    apply IH1 in H1 as (u1 & -> & ->). apply IH2 in H2 as (u2 & -> & ->).
    exists (u1 ++ u2)%string. rewrite app_assoc, length_app. split; [reflexivity|lia].
  - destruct H as [H|H]; [now apply IH1 | now apply IH2].
  - destruct H as (n & _ & _ & H).
    apply (iterw_consumes _ IH) in H as (u & -> & -> & _). now exists u.
  - now apply IH.
  - destruct H as (-> & -> & _). exists EmptyString. simpl. split; [reflexivity|lia].
  - destruct H as (_ & -> & ->). exists EmptyString. simpl. split; [reflexivity|lia].
  - destruct H as (_ & -> & ->). exists EmptyString. simpl. split; [reflexivity|lia].
Qed.

Lemma rep_complete (body : Cont -> MState -> option MState)
      (D : nat -> string -> nat -> string -> Prop) :
  (forall p s p1 s1, D p s p1 s1 ->
     forall k, (forall c, k (mkSt p1 s1 c) <> None) ->
               forall c, body k (mkSt p s c) <> None) ->
  forall n m lo p s p' s',
    iterw D m p s p' s' -> lo <= m -> m <= n ->
    forall k, (forall c, k (mkSt p' s' c) <> None) ->
              forall c, rep body lo n k (mkSt p s c) <> None.
Proof.
  intros Hbody. induction n as [|n IH]; intros m lo p s p' s' Hw Hlo Hn k Hk c.
  - assert (m = 0) by lia. subst m. assert (lo = 0) by lia. subst lo.
    destruct Hw as (-> & ->). simpl. apply Hk.
  - destruct m as [|m].
    + assert (lo = 0) by lia. subst lo. destruct Hw as (-> & ->).
      cbn [rep]. destruct (body _ _); [discriminate|]. simpl. apply Hk.
    + destruct Hw as (p1 & s1 & H1 & Hlt & H2). cbn [rep].
      match goal with |- context [body ?k' ?st] =>
        assert (Hb : body k' st <> None) end.
      { apply (Hbody _ _ _ _ H1). intros c'. cbn [pos].
        replace (p1 =? p) with false by (symmetry; apply Nat.eqb_neq; lia).
        rewrite andb_false_r.
        apply (IH m (Nat.pred lo) p1 s1 p' s' H2); [lia | lia | exact Hk]. }
      destruct (body _ _); [discriminate | contradiction].
Qed.

Lemma run_complete (ci : bool) (r : regex) :
  forall p s p' s', way ci r p s p' s' ->
    forall k, (forall c, k (mkSt p' s' c) <> None) ->
              forall c, run ci r k (mkSt p s c) <> None.
Proof.
  induction r as [|c0|neg items|r1 IH1 r2 IH2|r1 IH1 r2 IH2|lo hi r IH|i r IH|neg r IH| |];
    intros p s p' s' H k Hk c; cbn [way] in H; cbn [run rest pos].
  - destruct H as (-> & ->). apply Hk.
  - destruct H as (a & -> & -> & ->). apply Hk.
  - destruct H as (a & -> & -> & ->). apply Hk.
  - destruct H as (p1 & s1 & H1 & H2).
    apply (IH1 _ _ _ _ H1). intros c'. apply (IH2 _ _ _ _ H2 k Hk).
  - destruct H as [H|H].
    + pose proof (IH1 _ _ _ _ H k Hk c). destruct (run ci r1 k _); [discriminate|contradiction].
    + destruct (run ci r1 k _); [discriminate|]. apply (IH2 _ _ _ _ H k Hk).
  - destruct H as (n & Hlo & Hhi & H).
    eapply (rep_complete (run ci r) (way ci r) IH _ n lo p s p' s' H Hlo); [|exact Hk].
    destruct hi as [h|]; [exact Hhi|].
    apply (iterw_consumes _ (way_consumes ci r)) in H as (u & -> & _ & Hn).
    rewrite length_app. lia.
  - apply (IH _ _ _ _ H). intros c'. unfold capture. cbn [pos rest]. apply Hk.
  - destruct H as (-> & -> & H). destruct neg.
    + rewrite H. apply Hk.
    + destruct H as (p1 & s1 & H).
      pose proof (IH _ _ _ _ H Some ltac:(discriminate) c) as Hr.
      destruct (run ci r Some _); [apply Hk | contradiction].
  - destruct H as (-> & -> & ->). apply Hk.
  - destruct H as (-> & -> & ->). apply Hk.
Qed.

(** A pattern that has a way from the start of [s] is found by [exec]
    there. *)
Lemma exec_complete (re : RegExp) (s : string) (p' : nat) (s' : string) :
  way (ignoreCase re) (body re) 0 s p' s' ->
  exists m, exec re s 0 = Some m /\ index m = 0.
Proof.
  intros H. unfold exec.
  replace (if global re then 0 else 0) with 0 by now destruct (global re).
  assert (Hd : Str.drop 0 s = s) by now destruct s.
  rewrite Hd. cbn [Nat.ltb Nat.leb].
  pose proof (run_complete _ _ _ _ _ _ H Some ltac:(discriminate) (repeat None (ngroups re))) as Hr.
  destruct s; cbn [search]; destruct (run _ _ _ _) as [st'|]; try contradiction;
    eexists; split; reflexivity.
Qed.

Lemma way_seq ci r1 r2 p s p1 s1 p' s' :
  way ci r1 p s p1 s1 -> way ci r2 p1 s1 p' s' -> way ci (Seq r1 r2) p s p' s'.
Proof. intros H1 H2. exists p1, s1. now split. Qed.

Lemma way_chr ci c p s : way ci (Chr c) p (String c s) (S p) s.
Proof. exists c. repeat split. apply Ascii.eqb_refl. Qed.

Lemma way_lit ci (w : string) :
  forall p s, way ci (lit w) p (w ++ s) (p + String.length w) s.
Proof.
  induction w as [|a w IH]; intros p s.
  - simpl. split; [lia | reflexivity].
  - destruct w as [|b w].
    + simpl. exists a. repeat split; [apply Ascii.eqb_refl | lia].
    + change (lit (String a (String b w))) with (Seq (Chr a) (lit (String b w))).
      eapply way_seq; [apply way_chr|].
      replace (p + String.length (String a (String b w)))
        with (S p + String.length (String b w)) by (simpl; lia).
      apply IH.
Qed.

Lemma way_opt_skip ci r p s : way ci (opt r) p s p s.
Proof. exists 0. repeat split; lia. Qed.

Lemma way_opt_take ci r p s p' s' :
  way ci r p s p' s' -> p < p' -> way ci (opt r) p s p' s'.
Proof.
  intros H Hlt. exists 1. repeat split; [lia | lia |].
  exists p', s'. repeat split; assumption.
Qed.

Lemma iterw_class ci neg items (u : string) :
  Sall (fun a => class_matches ci neg items a = true) u ->
  forall p s,
    iterw (way ci (Cls neg items)) (String.length u) p (u ++ s)
          (p + String.length u) s.
Proof.
  induction u as [|a u IH]; intros Hu p s; simpl.
  - split; [lia | reflexivity].
  - destruct Hu as (Ha & Hu). exists (S p), (u ++ s)%string.
    split; [exists a; repeat split; exact Ha|]. split; [lia|].
    replace (p + S (String.length u)) with (S p + String.length u) by lia.
    now apply IH.
Qed.

Lemma way_class_run ci neg items lo hi (u : string) p s :
  Sall (fun a => class_matches ci neg items a = true) u ->
  lo <= String.length u ->
  match hi with Some h => String.length u <= h | None => True end ->
  way ci (Rep lo hi (Cls neg items)) p (u ++ s) (p + String.length u) s.
Proof.
  intros Hu Hlo Hhi. exists (String.length u). repeat split; try assumption.
  now apply iterw_class.
Qed.

Lemma alnum_class (a : ascii) :
  isAlnum a = true -> class_matches true false [CDigit; CRange "a" "z"] a = true.
Proof. destruct a as [[] [] [] [] [] [] [] []]; vm_compute; auto. Qed.

Lemma userChar_class (a : ascii) :
  isUserChar a = true ->
  class_matches true false [CChar "-"; CDigit; CRange "a" "z"] a = true.
Proof. destruct a as [[] [] [] [] [] [] [] []]; vm_compute; auto. Qed.

Lemma hex_class (a : ascii) :
  isHex a = true -> class_matches true false [CRange "a" "f"; CDigit] a = true.
Proof. destruct a as [[] [] [] [] [] [] [] []]; vm_compute; auto. Qed.

Lemma word_class (a : ascii) :
  is_word a = true \/ a = "-"%char ->
  class_matches true false [CWord; CChar "-"] a = true.
Proof.
  intros [H | ->]; [|reflexivity]. unfold class_matches. simpl. now rewrite H.
Qed.

Lemma way_user (user : string) p s :
  userShape user -> way true userGroup p (user ++ s) (p + String.length user) s.
Proof.
  intros (a & u & -> & Hl & Ha & Hu). unfold userGroup.
  eapply way_seq.
  - exists a. repeat split. now apply alnum_class.
  - replace (p + String.length (String a u)) with (S p + String.length u) by (simpl; lia).
    apply way_class_run; [|lia|exact Hl].
    eapply Sall_impl; [|exact Hu]. apply userChar_class.
Qed.

Lemma way_hexes lo hi (h : string) p s :
  Sall (fun c => isHex c = true) h ->
  lo <= String.length h ->
  match hi with Some n => String.length h <= n | None => True end ->
  way true (Rep lo hi hexClass) p (h ++ s) (p + String.length h) s.
Proof.
  intros Hh Hlo Hhi. apply way_class_run; try assumption.
  eapply Sall_impl; [|exact Hh]. apply hex_class.
Qed.

(** The lookahead for [git] after a dot. *)
Lemma git_lookahead (s tail : string) (p : nat) (c : list (option string)) :
  gitAhead s = false ->
  run true (lit "git") Some (mkSt p (s ++ String "/" tail) c) = None.
Proof.
  intros H. cbn [lit run rest].
  destruct s as [|a [|b [|d s]]]; cbn [append gitAhead canon] in *.
  - reflexivity.
  - destruct (Ascii.eqb _ (to_upper a)); [|reflexivity]. reflexivity.
  - destruct (Ascii.eqb _ (to_upper a)); [|reflexivity]. cbn [advance rest].
    destruct (Ascii.eqb _ (to_upper b)); [|reflexivity]. reflexivity.
  - cbn [advance rest].
    rewrite (Ascii.eqb_sym _ (to_upper a)), (Ascii.eqb_sym _ (to_upper b)),
      (Ascii.eqb_sym _ (to_upper d)).
    change (to_upper "g") with "G"%char. change (to_upper "i") with "I"%char.
    change (to_upper "t") with "T"%char.
    destruct (Ascii.eqb (to_upper a) "G"); [|reflexivity].
    destruct (Ascii.eqb (to_upper b) "I"); [|reflexivity].
    simpl in H. rewrite H. reflexivity.
Qed.

Lemma way_project (project tail : string) :
  plainProject project ->
  forall p,
    iterw (way true (Alt (Seq (lit ".git") (Cls false [CWord; CChar "-"]))
                         (Alt (Seq (Chr ".") (Look true (lit "git")))
                              (Cls false [CWord; CChar "-"]))))
          (String.length project) p (project ++ String "/" tail)
          (p + String.length project) (String "/" tail).
Proof.
  induction project as [|a project IH]; intros Hp p.
  - simpl. split; [lia | reflexivity].
  - destruct Hp as (Ha & Hp). cbn [String.length iterw append].
    exists (S p), (project ++ String "/" tail)%string. split; [|split; [lia|]].
    + destruct Ha as [Ha | [Ha | (-> & Hg)]].
      * right. right. exists a. repeat split. apply word_class. now left.
      * right. right. exists a. repeat split. apply word_class. now right.
      * right. left. eapply way_seq; [apply way_chr|].
        cbn [way]. repeat split. intros c. now apply git_lookahead.
    + replace (p + S (String.length project)) with (S p + String.length project) by lia.
      now apply IH.
Qed.

Lemma way_projectGroup (project tail : string) p :
  plainProject project -> 1 <= String.length project ->
  way true projectGroup p (project ++ String "/" tail)
      (p + String.length project) (String "/" tail).
Proof.
  intros Hp Hl. unfold projectGroup, plus. exists (String.length project).
  repeat split; [exact Hl|]. now apply way_project.
Qed.

Lemma way_seq_ex ci r1 r2 p s p1 s1 s' :
  way ci r1 p s p1 s1 -> (exists p', way ci r2 p1 s1 p' s') ->
  exists p', way ci (Seq r1 r2) p s p' s'.
Proof. intros H1 (p' & H2). exists p', p1, s1. now split. Qed.

Lemma way_bol ci s : way ci Bol 0 s 0 s.
Proof. repeat split. Qed.

Lemma way_group ci i r p s p' s' :
  way ci r p s p' s' -> way ci (Group i r) p s p' s'.
Proof. exact (fun H => H). Qed.

Ltac lit_way :=
  cbn [lit]; repeat (eapply way_seq; [apply way_chr|]); apply way_chr.

(** The payload of a link: hexadecimal digits up to the end of the URL. *)
Lemma payload_way_hex (h : string) (p : nat) :
  Sall (fun c => isHex c = true) h -> 1 <= String.length h ->
  way true
      (seqs [plus hexClass;
             opt (Seq (Rep 3 (Some 3) (Chr ".")) (plus hexClass));
             opt (Chr "/");
             Look false (Alt (Cls false [CChar "#"; CChar "?"]) Eol)])
      p h (p + String.length h) EmptyString.
Proof.
  intros Hh Hl. cbn [seqs].
  rewrite <- (app_nil_r h) at 1.
  eapply way_seq; [apply way_hexes; [exact Hh | exact Hl | exact I]|].
  eapply way_seq; [apply way_opt_skip|].
  eapply way_seq; [apply way_opt_skip|].
  cbn [way]. repeat split. exists (p + String.length h), EmptyString.
  right. repeat split.
Qed.

(** The payload of a comparison: two runs of digits around three dots. *)
Lemma payload_way_range (b c : string) (p : nat) :
  Sall (fun a => isHex a = true) b -> 1 <= String.length b ->
  Sall (fun a => isHex a = true) c -> 1 <= String.length c ->
  exists p',
    way true
        (seqs [plus hexClass;
               opt (Seq (Rep 3 (Some 3) (Chr ".")) (plus hexClass));
               opt (Chr "/");
               Look false (Alt (Cls false [CChar "#"; CChar "?"]) Eol)])
        p (b ++ "..." ++ c) p' EmptyString.
Proof.
  intros Hb Lb Hc Lc. eexists. cbn [seqs append].
  eapply way_seq; [apply way_hexes; [exact Hb | exact Lb | exact I]|].
  eapply way_seq.
  { apply way_opt_take.
    - eapply way_seq.
      + exists 3. repeat split; [lia | lia |]. cbn [iterw].
        do 3 (eexists; eexists; split; [apply way_chr | split; [lia|]]).
        split; reflexivity.
      + rewrite <- (app_nil_r c) at 1.
        apply way_hexes; [exact Hc | exact Lc | exact I].
    - lia. }
  eapply way_seq; [apply way_opt_skip|].
  cbn [way]. repeat split. eexists _, EmptyString. right. repeat split.
Qed.

Lemma link_way (user project pg payload : string) :
  userShape user -> plainProject project -> 1 <= String.length project ->
  In pg ["commit"; "compare"; "issues"; "pull"] ->
  (forall p, exists p',
      way true
          (seqs [plus hexClass;
                 opt (Seq (Rep 3 (Some 3) (Chr ".")) (plus hexClass));
                 opt (Chr "/");
                 Look false (Alt (Cls false [CChar "#"; CChar "?"]) Eol)])
          p payload p' EmptyString) ->
  exists p',
    way true (body linkRegex) 0
        ("https://github.com/" ++ user ++ "/" ++ project ++ "/" ++ pg ++ "/" ++ payload)
        p' EmptyString.
Proof.
  intros Hu Hp Lp Hpg Hpay.
  unfold linkRegex. cbn [body seqs repoGroup].
  assert (Hpage : forall p s,
             way true (Group 3 (Alt (lit "commit")
                                    (Alt (lit "compare") (Alt (lit "issues") (lit "pull")))))
                 p (pg ++ s) (p + String.length pg) s).
  { intros p s. apply way_group.
    destruct Hpg as [<-|[<-|[<-|[<-|[]]]]].
    - left. apply way_lit.
    - right; left. apply way_lit.
    - right; right; left. apply way_lit.
    - right; right; right. apply way_lit. }
  cbn [append].
  eapply way_seq_ex; [apply way_bol|].
  eapply way_seq_ex; [lit_way|].
  eapply way_seq_ex; [apply way_opt_take; [apply way_chr | lia]|].
  eapply way_seq_ex; [lit_way|].
  eapply way_seq_ex.
  { unfold repoGroup. cbn [seqs].
    eapply way_seq; [apply way_group, way_user, Hu|].
    eapply way_seq; [apply way_chr|].
    apply way_group, way_projectGroup; assumption. }
  eapply way_seq_ex; [apply way_chr|].
  eapply way_seq_ex; [apply Hpage|].
  eapply way_seq_ex; [apply way_chr|].
  apply Hpay.
Qed.

Lemma upper_length (s : string) : String.length (upper s) = String.length s.
Proof. induction s as [|a s IH]; [reflexivity|]. rewrite upper_cons. simpl. now rewrite IH. Qed.

(** The scheme and host in front of a URL that begins with
    [https://github.com/]. *)
Lemma scheme_exact (scheme x y : string) :
  upper scheme = "HTTP://GITHUB.COM/" \/ upper scheme = "HTTPS://GITHUB.COM/" ->
  (scheme ++ x = "https://github.com/" ++ y)%string ->
  scheme = "https://github.com/" /\ x = y.
Proof.
  intros Hs E.
  assert (Et : scheme = Str.take (String.length scheme) ("https://github.com/" ++ y)).
  { rewrite <- E. symmetry. apply take_app. }
  destruct Hs as [Hs|Hs]; pose proof (f_equal String.length Hs) as L;
    rewrite upper_length in L; simpl in L; rewrite L in Et; simpl in Et;
    rewrite Et in Hs.
  - vm_compute in Hs. discriminate.
  - rewrite Et in E. split; [exact Et|]. simpl in E.
    now repeat (injection E as E).
Qed.

Lemma split_at (c : ascii) (u u' r r' : string) :
  Sall (fun a => a <> c) u -> Sall (fun a => a <> c) u' ->
  (u ++ String c r = u' ++ String c r')%string -> u = u' /\ r = r'.
Proof.
  revert u'; induction u as [|a u IH]; intros [|a' u'] Hu Hu' E; simpl in *.
  - injection E as <-. auto.
  - injection E as <- _. now destruct Hu' as (Hn & _).
  - injection E as -> _. now destruct Hu as (Hn & _).
  - injection E as <- E. destruct (IH u' (proj2 Hu) (proj2 Hu') E) as (<- & <-). auto.
Qed.

Lemma upper_without (c : ascii) (s : string) :
  to_upper c = c -> hasChar c (upper s) = false -> Sall (fun a => a <> c) s.
Proof.
  intros Hc. induction s as [|a s IH]; intros H; [exact I|].
  rewrite upper_cons in H. simpl in H. apply orb_false_iff in H as (Ha & Hs).
  split; [|now apply IH]. intros ->. rewrite Hc, Ascii.eqb_refl in Ha. discriminate.
Qed.

Lemma pageWord_noslash (pg : string) : pageWord pg -> Sall (fun a => a <> "/"%char) pg.
Proof.
  intros H. apply upper_without; [reflexivity|].
  destruct H as [-> | [-> | [-> | ->]]]; reflexivity.
Qed.

Lemma userChar_noslash (a : ascii) : isUserChar a = true -> a <> "/"%char.
Proof. intros H ->. discriminate. Qed.

Lemma projectChar_noslash (a : ascii) : isProjectChar a = true -> a <> "/"%char.
Proof. intros H ->. discriminate. Qed.

Lemma userShape_noslash (u : string) : userShape u -> Sall (fun a => a <> "/"%char) u.
Proof.
  intros (a & r & -> & _ & Ha & Hr). split.
  - apply userChar_noslash. now apply isAlnum_user.
  - eapply Sall_impl; [|exact Hr]. apply userChar_noslash.
Qed.

Lemma plainProject_chars (p : string) :
  plainProject p -> Sall (fun c => isProjectChar c = true) p.
Proof.
  induction p as [|a p IH]; [auto|]. intros (Ha & Hp). split; [|now apply IH].
  unfold isProjectChar. destruct Ha as [-> | [-> | (-> & _)]]; reflexivity.
Qed.

(** The groups of a match of the link pattern on a URL whose four segments
    are known: the segments themselves. *)
Lemma link_groups (usr proj pg payload : string) (m : Match) :
  Sall (fun a => a <> "/"%char) usr ->
  Sall (fun a => a <> "/"%char) proj ->
  Sall (fun a => a <> "/"%char) pg ->
  Sall (fun a => a <> "#"%char /\ a <> "?"%char) payload ->
  exec linkRegex
       ("https://github.com/" ++ usr ++ "/" ++ proj ++ "/" ++ pg ++ "/" ++ payload) 0
  = Some m ->
  grp m 1 = usr /\ grp m 2 = proj /\ grp m 3 = pg /\ grp m 4 = payload
  /\ whole m
     = ("https://github.com/" ++ usr ++ "/" ++ proj ++ "/" ++ pg ++ "/" ++ payload)%string.
Proof.
  intros Hu Hp Hg Hy E.
  pose proof (link_anatomy _ _ E)
    as (scheme & rest' & Eurl & Ew & _ & Hs & H1 & H2 & H3 & H4 & Hr).
  symmetry in Eurl.
  destruct (scheme_exact _ _ _ Hs Eurl) as (Es & Ex).
  cbn [append] in Ex.
  apply split_at in Ex as (E1 & Ex);
    [|apply userShape_noslash; exact H1|exact Hu].
  apply split_at in Ex as (E2 & Ex);
    [|eapply Sall_impl; [|exact (proj2 H2)]; apply projectChar_noslash|exact Hp].
  apply split_at in Ex as (E3 & Ex);
    [|now apply pageWord_noslash|exact Hg].
  assert (rest' = EmptyString) as ->.
  { destruct Hr as [-> | (a & s & -> & Ha)]; [reflexivity|].
    rewrite <- Ex in Hy. apply Sall_app in Hy as (_ & ((Hh & Hq) & _)).
    destruct Ha; contradiction. }
  rewrite app_nil_r in Ex.
  rewrite Ew, Es, E1, E2, E3, Ex. auto.
Qed.

Lemma bare_autolink (url : string) (title : option string) :
  bare (link url title [text url]) = true.
Proof.
  unfold bare. cbn [childrenOf List.length nth isText urlOf toString fold_right].
  now rewrite app_nil_r, String.eqb_refl.
Qed.

Lemma charAt_end (s : string) :
  Str.charAt s (Z.of_nat (String.length s)) = EmptyString.
Proof.
  rewrite <- (app_nil_r s) at 1. now rewrite charAt_app.
Qed.

Lemma search_class_none ci neg items n (s : string) :
  Sall (fun a => class_matches ci neg items a = false) s ->
  forall p, search ci (Cls neg items) n p s = None.
Proof.
  induction s as [|a s IH]; intros H p; [reflexivity|].
  destruct H as (Ha & H). cbn [search run rest]. rewrite Ha. now apply IH.
Qed.

Lemma digit_not_letter (a : ascii) :
  is_digit a = true -> class_matches true false [CRange "a" "f"] a = false.
Proof. destruct a as [[] [] [] [] [] [] [] []]; vm_compute; auto. Qed.

Lemma digit_hex (a : ascii) : is_digit a = true -> isHex a = true.
Proof. unfold isHex. now intros ->. Qed.

Lemma lowerHex_hex (a : ascii) : lowerHex a -> isHex a = true.
Proof. unfold lowerHex. destruct a as [[] [] [] [] [] [] [] []]; vm_compute; auto. Qed.

Lemma hex_plain (a : ascii) :
  isHex a = true -> a <> "/"%char /\ a <> "#"%char /\ a <> "?"%char /\ a <> "."%char.
Proof. intros H. repeat split; intros ->; discriminate. Qed.

Lemma digits_no_letter (no : string) :
  Sall (fun c => is_digit c = true) no -> test reHexLetter no = false.
Proof.
  intros H. unfold test, exec, reHexLetter.
  cbn [global ignoreCase body ngroups Nat.ltb Nat.leb].
  replace (Str.drop 0 no) with no by now destruct no.
  rewrite search_class_none; [reflexivity|].
  eapply Sall_impl; [|exact H]. apply digit_not_letter.
Qed.

Lemma compare_accepts (b c : string) :
  Sall lowerHex b -> Sall lowerHex c ->
  4 <= String.length b <= 40 -> 4 <= String.length c <= 40 ->
  test reCompare (b ++ "..." ++ c) = true.
Proof.
  intros Hb Hc Lb Lc. unfold test.
  destruct (exec_complete reCompare (b ++ "..." ++ c)
              (S (S (S (0 + String.length b))) + String.length c) EmptyString)
    as (m & -> & _); [|reflexivity].
  unfold reCompare. cbn [ignoreCase body seqs append].
  eapply way_seq; [apply way_bol|].
  eapply way_seq; [apply way_class_run; [exact Hb | lia | lia]|].
  eapply way_seq.
  { exists 3. repeat split; [lia | lia |]. cbn [iterw].
    do 3 (eexists; eexists; split; [apply way_chr | split; [lia|]]).
    split; reflexivity. }
  rewrite <- (app_nil_r c) at 1.
  eapply way_seq; [apply way_class_run; [exact Hc | lia | lia]|].
  repeat split.
Qed.

(** [parse] on the bare autolink to a URL of four known segments. *)
Lemma parse_autolink (usr proj pg payload : string) (title : option string) :
  userShape usr -> plainProject proj -> 1 <= String.length proj ->
  In pg ["commit"; "compare"; "issues"; "pull"] ->
  Sall (fun a => a <> "#"%char /\ a <> "?"%char) payload ->
  (forall p, exists p',
      way true
          (seqs [plus hexClass;
                 opt (Seq (Rep 3 (Some 3) (Chr ".")) (plus hexClass));
                 opt (Chr "/");
                 Look false (Alt (Cls false [CChar "#"; CChar "?"]) Eol)])
          p payload p' EmptyString) ->
  exists m,
    parse (link ("https://github.com/" ++ usr ++ "/" ++ proj ++ "/" ++ pg
                                       ++ "/" ++ payload) title
                [text ("https://github.com/" ++ usr ++ "/" ++ proj ++ "/" ++ pg
                                             ++ "/" ++ payload)])
    = (if invalid m then None
       else Some (parsed ("https://github.com/" ++ usr ++ "/" ++ proj ++ "/" ++ pg
                                                ++ "/" ++ payload) m))
    /\ grp m 1 = usr /\ grp m 2 = proj /\ grp m 3 = pg /\ grp m 4 = payload
    /\ whole m
       = ("https://github.com/" ++ usr ++ "/" ++ proj ++ "/" ++ pg ++ "/" ++ payload)%string.
Proof.
  intros Hu Hp Lp Hpg Hy Hw.
  destruct (link_way usr proj pg payload Hu Hp Lp Hpg Hw) as (p' & W).
  destruct (exec_complete linkRegex _ _ _ W) as (m & E & _).
  exists m. split.
  - rewrite parse_eq. cbn [urlOf]. rewrite E.
    now rewrite bare_autolink.
  - apply link_groups; try assumption.
    + now apply userShape_noslash.
    + eapply Sall_impl; [|apply plainProject_chars; exact Hp]. apply projectChar_noslash.
    + destruct Hpg as [<-|[<-|[<-|[<-|[]]]]]; simpl; repeat split; discriminate.
Qed.

Lemma normalize_parsed (url : string) (title : option string) (l : ParsedLink) :
  parse (link url title [text url]) = Some l ->
  linkNormalizer (link url title [text url]) = link url title (display l).
Proof. intros H. unfold linkNormalizer. cbn [visitLinks]. now rewrite H. Qed.

Lemma hexes_plain (h : string) :
  Sall (fun c => isHex c = true) h ->
  Sall (fun a => a <> "#"%char /\ a <> "?"%char) h.
Proof.
  apply Sall_impl. intros a Ha. apply hex_plain in Ha. tauto.
Qed.

Lemma comment_none (url : string) (m : Match) :
  whole m = url ->
  String.eqb (Str.charAt url (Z.of_nat (String.length (whole m)))) "#"
  && (String.length (whole m) + 1 <? String.length url) = false.
Proof. intros ->. now rewrite charAt_end. Qed.

(** A URL with an empty project segment is not matched by the link
    pattern. *)
Lemma link_needs_project (usr tail : string) :
  Sall (fun a => a <> "/"%char) usr ->
  exec linkRegex ("https://github.com/" ++ usr ++ "//" ++ tail) 0 = None.
Proof.
  intros Hu. destruct (exec linkRegex _ 0) as [m|] eqn:E; [exfalso | reflexivity].
  pose proof (link_anatomy _ _ E)
    as (scheme & rest' & Eurl & _ & _ & Hs & H1 & H2 & _).
  symmetry in Eurl. destruct (scheme_exact _ _ _ Hs Eurl) as (_ & Ex).
  cbn [append] in Ex.
  apply split_at in Ex as (_ & Ex);
    [|apply userShape_noslash; exact H1|exact Hu].
  destruct H2 as (L & H2). destruct (grp m 2) as [|a g]; [simpl in L; lia|].
  cbn [append] in Ex. injection Ex as -> _. destruct H2 as (H2 & _). discriminate.
Qed.

End AcceptFacts.

(** ** The matcher where the text forces its way *)

Module ForcedFacts.

Import Re Github StrFacts ReFacts PatternFacts PluginFacts RewriterFacts.
Local Open Scope nat_scope.
Import ShapeFacts ScannerFacts AcceptFacts.

(** ** The matcher on a forced path

    Where the text leaves the matcher one way to go, the result of [run]
    is the result of its continuation at the end of that way. *)

Lemma run_chr_hit ci c a s' p caps0 (k : Cont) :
  Ascii.eqb (canon ci c) (canon ci a) = true ->
  run ci (Chr c) k (mkSt p (String a s') caps0) = k (mkSt (S p) s' caps0).
Proof. intros H. cbn [run rest]. now rewrite H. Qed.

Lemma run_chr_miss ci c s p caps0 (k : Cont) :
  (s = EmptyString
   \/ exists a s', s = String a s' /\ Ascii.eqb (canon ci c) (canon ci a) = false) ->
  run ci (Chr c) k (mkSt p s caps0) = None.
Proof.
  intros [-> | (a & s' & -> & H)]; cbn [run rest]; [reflexivity | now rewrite H].
Qed.

Lemma run_cls_hit ci neg items a s' p caps0 (k : Cont) :
  class_matches ci neg items a = true ->
  run ci (Cls neg items) k (mkSt p (String a s') caps0) = k (mkSt (S p) s' caps0).
Proof. intros H. cbn [run rest]. now rewrite H. Qed.

(** A greedy repetition of a class takes the whole run of class
    characters, when the continuation succeeds after it. *)
Lemma rep_class_max ci neg items (u r : string) :
  Sall (fun a => class_matches ci neg items a = true) u ->
  (r = EmptyString
   \/ exists a r', r = String a r' /\ class_matches ci neg items a = false) ->
  forall lo n p caps0 (k : Cont) x,
    lo <= String.length u -> String.length u <= n ->
    k (mkSt (p + String.length u) r caps0) = Some x ->
    rep (run ci (Cls neg items)) lo n k (mkSt p (u ++ r) caps0) = Some x.
Proof.
  intros Hu Hr. induction u as [|a u IH]; intros lo n p caps0 k x Hlo Hn Hk.
  - simpl in Hlo. assert (lo = 0) by lia. subst lo. cbn [append String.length] in *.
    rewrite Nat.add_0_r in Hk.
    destruct n as [|n]; cbn [rep Nat.eqb]; [exact Hk|].
    assert (Hb : forall k', run ci (Cls neg items) k' (mkSt p r caps0) = None).
    { intros k'. cbn [run rest].
      destruct Hr as [-> | (a & r' & -> & H)]; [reflexivity | now rewrite H]. }
    rewrite Hb. exact Hk.
  - destruct Hu as (Ha & Hu). cbn [append String.length] in *.
    destruct n as [|n]; [lia|]. cbn [rep].
    rewrite run_cls_hit by exact Ha. cbn [pos].
    replace (S p =? p) with false by (symmetry; apply Nat.eqb_neq; lia).
    rewrite andb_false_r.
    rewrite (IH Hu (Nat.pred lo) n (S p) caps0 k x); [reflexivity | lia | lia |].
    replace (S p + String.length u) with (p + S (String.length u)) by lia. exact Hk.
Qed.

(** An optional part whose body cannot start is skipped. *)
Lemma opt_miss ci r (k : Cont) st :
  (forall k', run ci r k' st = None) -> run ci (opt r) k st = k st.
Proof. intros H. unfold opt. cbn [run rep Nat.eqb]. now rewrite H. Qed.

(** An optional part is taken when the continuation succeeds after it. *)
Lemma opt_hit ci r (k : Cont) st x :
  run ci r (fun st' => if pos st' =? pos st then None else k st') st = Some x ->
  run ci (opt r) k st = Some x.
Proof.
  intros H. unfold opt. cbn [run rep Nat.eqb Nat.pred andb]. now rewrite H.
Qed.

(** ** [exec] from a later offset *)

Lemma drop_S (i : nat) (s : string) :
  i < String.length s -> exists a, Str.drop i s = String a (Str.drop (S i) s).
Proof.
  revert s; induction i as [|i IH]; intros [|a s] H; simpl in H; try lia.
  - exists a. now destruct s.
  - destruct (IH s ltac:(lia)) as (b & E). exists b. exact E.
Qed.

Lemma exec_step (re : RegExp) (s : string) (i : nat) :
  global re = true -> i < String.length s ->
  (forall m, exec re s i = Some m -> index m <> i) ->
  exec re s i = exec re s (S i).
Proof.
  intros Hg Hi Hm. unfold exec in *. rewrite Hg in *.
  replace (String.length s <? i) with false in * by (symmetry; apply Nat.ltb_ge; lia).
  replace (String.length s <? S i) with false by (symmetry; apply Nat.ltb_ge; lia).
  destruct (drop_S i s Hi) as (a & E). rewrite E in *. cbn [search] in *.
  destruct (run _ _ _ _) as [st'|]; [|reflexivity].
  exfalso. eapply Hm; reflexivity.
Qed.

Lemma exec_skip (re : RegExp) (s : string) (j : nat) :
  global re = true -> j <= String.length s ->
  (forall i m, exec re s i = Some m -> j <= index m) ->
  forall i, i <= j -> exec re s i = exec re s j.
Proof.
  intros Hg Hj Hm i Hi. remember (j - i) as d eqn:Ed.
  revert i Hi Ed. induction d as [|d IH]; intros i Hi Ed.
  - assert (i = j) by lia. now subst.
  - rewrite exec_step; [apply IH; lia | exact Hg | lia |].
    intros m E. apply Hm in E. lia.
Qed.

Lemma exec_none_from (re : RegExp) (s : string) (j : nat) :
  global re = true ->
  (forall i m, exec re s i = Some m -> index m < j) ->
  forall i, j <= i -> exec re s i = None.
Proof.
  intros Hg Hm i Hi. destruct (exec re s i) as [m|] eqn:E; [|reflexivity].
  pose proof (Hm _ _ E). pose proof (exec_match _ _ _ _ E) as (_ & _ & _ & _ & _ & L & _).
  rewrite Hg in L. lia.
Qed.

(** ** Where a character occurs once *)

Lemma hasChar_Sall (c : ascii) (s : string) :
  hasChar c s = false <-> Sall (fun a => a <> c) s.
Proof.
  induction s as [|a s IH]; simpl; [tauto|].
  rewrite orb_false_iff, IH, Ascii.eqb_neq. tauto.
Qed.

Lemma first_occurrence (c : ascii) (u u' t t' : string) :
  Sall (fun a => a <> c) u -> Sall (fun a => a <> c) t ->
  (u' ++ String c t' = u ++ String c t)%string -> u' = u /\ t' = t.
Proof.
  revert u; induction u' as [|a' u' IH]; intros [|a u] Hu Ht E; simpl in *.
  - injection E as <-. auto.
  - injection E as <- _. now destruct Hu.
  - injection E as -> E. exfalso.
    rewrite <- E in Ht. apply Sall_app in Ht as (_ & (Hc & _)). now apply Hc.
  - injection E as <- E. destruct (IH u (proj2 Hu) Ht E) as (<- & <-). auto.
Qed.

Lemma last_char (x y p : string) (a : ascii) :
  (x ++ y = p ++ String a EmptyString)%string -> y <> EmptyString ->
  exists y0, y = (y0 ++ String a EmptyString)%string.
Proof.
  revert p; induction x as [|b x IH]; intros p E Hy; simpl in E.
  - exists p. exact E.
  - destruct p as [|b' p]; simpl in E.
    + injection E as _ E. destruct x; [simpl in E; contradiction | discriminate].
    + injection E as _ E. now apply (IH p).
Qed.

Lemma Sall_last (P : ascii -> Prop) (y0 : string) (a : ascii) :
  Sall P (y0 ++ String a EmptyString) -> P a.
Proof. intros H. apply Sall_app in H as (_ & (H & _)). exact H. Qed.

Lemma not_userChar_class (a : ascii) :
  is_word a = false -> a <> "-"%char ->
  class_matches true false [CChar "-"; CDigit; CRange "a" "z"] a = false.
Proof.
  intros Hw Hd.
  destruct (class_matches true false [CChar "-"; CDigit; CRange "a" "z"] a) eqn:E;
    [|reflexivity].
  apply userChar_rest in E. unfold isUserChar, isAlnum in E. unfold is_word in Hw.
  apply orb_false_iff in Hw as (Hw & _). apply orb_false_iff in Hw as (Hw & Hdg).
  apply orb_false_iff in Hw as (Hl & Hu). rewrite Hl, Hu, Hdg in E. simpl in E.
  apply Ascii.eqb_eq in E. contradiction.
Qed.

Lemma slash_miss (a : ascii) :
  a <> "/"%char -> Ascii.eqb (canon true "/") (canon true a) = false.
Proof.
  intros H. apply Ascii.eqb_neq. intros E. apply H.
  apply (to_upper_fixed "/" a); [simpl; auto | exact E].
Qed.

Lemma run_seq ci r1 r2 (k : Cont) st :
  run ci (Seq r1 r2) k st = run ci r1 (fun st' => run ci r2 k st') st.
Proof. reflexivity. Qed.

Lemma run_group ci i r (k : Cont) st :
  run ci (Group i r) k st = run ci r (fun st' => k (capture i st st')) st.
Proof. reflexivity. Qed.

Lemma run_rep ci lo hi r (k : Cont) st :
  run ci (Rep lo hi r) k st
  = rep (run ci r) lo
        (match hi with Some h => h | None => lo + String.length (rest st) end) k st.
Proof. reflexivity. Qed.

(** The mention pattern on [@], a user name and a text that ends the
    name: the name is matched whole. *)
Lemma mention_run (usr post : string) (p : nat) (c0 : list (option string)) :
  userShape usr -> clearAfter post ->
  run true (body mentionRegex) Some (mkSt p (String "@" (usr ++ post)) c0)
  = Some (mkSt (S p + String.length usr) post (set_nth 0 (Some usr) c0)).
Proof.
  intros (a & u & -> & Lu & Ha & Hu) Hpost.
  unfold mentionRegex. cbn [body].
  rewrite run_seq, run_chr_hit by reflexivity. cbn beta.
  rewrite run_group, run_seq. unfold userGroup at 1.
  rewrite run_seq. cbn [append]. rewrite run_cls_hit by (now apply alnum_class).
  cbn beta. rewrite run_rep.
  erewrite rep_class_max with (r := post).
  - reflexivity.
  - eapply Sall_impl; [|exact Hu]. apply userChar_class.
  - destruct Hpost as [-> | (b & q & -> & Hw & Hd & _)]; [now left | right].
    exists b, q. split; [reflexivity | now apply not_userChar_class].
  - lia.
  - exact Lu.
  - rewrite opt_miss.
    + unfold capture. cbn [pos rest caps].
      replace (S (S p) + String.length u - S p) with (S (String.length u)) by lia.
      cbn [Str.take Nat.sub]. rewrite take_app.
      replace (S (S p) + String.length u) with (S p + String.length (String a u))
        by (simpl; lia).
      reflexivity.
    + intros k'. cbn [run]. apply run_chr_miss.
      destruct Hpost as [-> | (b & q & -> & _ & _ & Hs & _)]; [now left | right].
      exists b, q. split; [reflexivity | now apply slash_miss].
Qed.

Lemma take_whole_app (s t : string) (n : nat) :
  n = String.length s -> Str.take n (s ++ t) = s.
Proof. intros ->. apply take_app. Qed.

(** [exec] at the offset of the one mention of a text. *)
Lemma mention_exec_at (pre usr post : string) :
  userShape usr -> clearAfter post ->
  exec mentionRegex (pre ++ "@" ++ usr ++ post) (String.length pre)
  = Some (mkMatch (String.length pre) ("@" ++ usr) [Some usr]).
Proof.
  intros Hu Hp. unfold exec. cbn [global mentionRegex ignoreCase ngroups].
  replace (String.length (pre ++ "@" ++ usr ++ post) <? String.length pre) with false
    by (symmetry; apply Nat.ltb_ge; rewrite length_app; lia).
  rewrite drop_app. cbn [append search repeat].
  change (Seq (Chr "@") (Group 1 (Seq userGroup (opt (Seq (Chr "/") userGroup)))))
    with (body mentionRegex).
  rewrite (mention_run usr post _ _ Hu Hp). cbn [pos caps set_nth].
  replace (S (String.length pre) + String.length usr - String.length pre)
    with (S (String.length usr)) by lia.
  cbn [Str.take]. now rewrite take_app.
Qed.

(** ** Greedy repetition on a forced path *)

Section Forced.
Variable body : Cont -> MState -> option MState.

Lemma rep_forced (u r : string) :
  forced body u r ->
  forall lo n p c (k : Cont) x,
    lo <= String.length u -> String.length u <= n ->
    k (mkSt (p + String.length u) r c) = Some x ->
    rep body lo n k (mkSt p (u ++ r) c) = Some x.
Proof.
  induction u as [|a u IH]; intros Hf lo n p c k x Hlo Hn Hk.
  - simpl in Hlo. assert (lo = 0) by lia. subst lo. cbn [append String.length] in *.
    rewrite Nat.add_0_r in Hk.
    destruct n as [|n]; cbn [rep Nat.eqb]; [exact Hk|].
    rewrite (Hf p c). exact Hk.
  - destruct Hf as (Ha & Hf). cbn [append String.length] in *.
    destruct n as [|n]; [lia|]. cbn [rep].
    rewrite (Ha p c). cbn [pos].
    replace (S p =? p) with false by (symmetry; apply Nat.eqb_neq; lia).
    rewrite andb_false_r.
    rewrite (IH Hf (Nat.pred lo) n (S p) c k x); [reflexivity | lia | lia |].
    replace (S p + String.length u) with (p + S (String.length u)) by lia. exact Hk.
Qed.
End Forced.

(** ** The project group on a plain project *)

(** A character that ends a project: not a project character. *)
Lemma not_projectChar (b : ascii) :
  isProjectChar b = false ->
  class_matches true false [CWord; CChar "-"] b = false
  /\ Ascii.eqb (canon true ".") (canon true b) = false
  /\ to_upper b <> "G"%char /\ to_upper b <> "I"%char /\ to_upper b <> "T"%char.
Proof. destruct b as [[] [] [] [] [] [] [] []]; vm_compute; intuition discriminate. Qed.

Lemma word_not_dot (a : ascii) :
  is_word a = true \/ a = "-"%char ->
  Ascii.eqb (canon true ".") (canon true a) = false.
Proof.
  intros H. apply Ascii.eqb_neq. intros E.
  apply (to_upper_fixed "." a) in E; [|simpl; auto]. subst a.
  destruct H as [H | H]; discriminate.
Qed.

Lemma git_miss (s tail : string) (b : ascii) p c (k : Cont) :
  gitAhead s = false ->
  to_upper b <> "G"%char -> to_upper b <> "I"%char -> to_upper b <> "T"%char ->
  run true (lit "git") k (mkSt p (s ++ String b tail) c) = None.
Proof.
  intros H Hg Hi Ht.
  assert (Bg : Ascii.eqb "G" (to_upper b) = false) by (apply Ascii.eqb_neq; congruence).
  assert (Bi : Ascii.eqb "I" (to_upper b) = false) by (apply Ascii.eqb_neq; congruence).
  assert (Bt : Ascii.eqb "T" (to_upper b) = false) by (apply Ascii.eqb_neq; congruence).
  cbn [lit run rest].
  destruct s as [|a1 [|a2 [|a3 s]]]; cbn [append gitAhead canon advance rest] in *;
    change (to_upper "g") with "G"%char; change (to_upper "i") with "I"%char;
    change (to_upper "t") with "T"%char.
  - now rewrite Bg.
  - destruct (Ascii.eqb "G" (to_upper a1)); [|reflexivity]. now rewrite Bi.
  - destruct (Ascii.eqb "G" (to_upper a1)); [|reflexivity].
    destruct (Ascii.eqb "I" (to_upper a2)); [|reflexivity]. now rewrite Bt.
  - rewrite (Ascii.eqb_sym "G"), (Ascii.eqb_sym "I"), (Ascii.eqb_sym "T").
    destruct (Ascii.eqb (to_upper a1) "G"); [|reflexivity].
    destruct (Ascii.eqb (to_upper a2) "I"); [|reflexivity].
    simpl in H. now rewrite H.
Qed.

Lemma run_alt_miss ci r1 r2 (k : Cont) st :
  run ci r1 k st = None -> run ci (Alt r1 r2) k st = run ci r2 k st.
Proof. intros H. cbn [run]. now rewrite H. Qed.

Lemma run_cls_miss ci neg items s p caps0 (k : Cont) :
  (s = EmptyString
   \/ exists a s', s = String a s' /\ class_matches ci neg items a = false) ->
  run ci (Cls neg items) k (mkSt p s caps0) = None.
Proof.
  intros [-> | (a & s' & -> & H)]; cbn [run rest]; [reflexivity | now rewrite H].
Qed.

Lemma run_look_not ci r (k : Cont) st :
  run ci r Some st = None -> run ci (Look true r) k st = k st.
Proof. intros H. cbn [run]. now rewrite H. Qed.

(** The characters of a plain project, followed by a character that ends
    the project, force the repetition of the project group. *)
Lemma project_forced (project : string) (b : ascii) (tail : string) :
  plainProject project -> isProjectChar b = false ->
  forced (run true (Alt (Seq (lit ".git") (Cls false [CWord; CChar "-"]))
                        (Alt (Seq (Chr ".") (Look true (lit "git")))
                             (Cls false [CWord; CChar "-"]))))
         project (String b tail).
Proof.
  intros Hp Hb. destruct (not_projectChar b Hb) as (Bc & Bd & Bg & Bi & Bt).
  induction project as [|a project IH]; cbn [forced].
  - intros p c k.
    rewrite run_alt_miss.
    2:{ cbn [lit]. rewrite run_seq, run_seq. apply run_chr_miss. right.
        eexists _, _. split; [reflexivity | exact Bd]. }
    rewrite run_alt_miss.
    2:{ rewrite run_seq. apply run_chr_miss. right.
        eexists _, _. split; [reflexivity | exact Bd]. }
    apply run_cls_miss. right. eexists _, _. split; [reflexivity | exact Bc].
  - destruct Hp as (Ha & Hp). split; [|now apply IH].
    intros p c k.
    assert (Hw : is_word a = true \/ a = "-"%char
                 \/ (a = "."%char /\ gitAhead project = false)) by exact Ha.
    destruct Hw as [Hw | [Hw | (-> & Hg)]].
    + rewrite run_alt_miss.
      2:{ cbn [lit]. rewrite run_seq, run_seq. apply run_chr_miss. right.
          eexists _, _. split; [reflexivity | apply word_not_dot; now left]. }
      rewrite run_alt_miss.
      2:{ rewrite run_seq. apply run_chr_miss. right.
          eexists _, _. split; [reflexivity | apply word_not_dot; now left]. }
      apply run_cls_hit. apply word_class. now left.
    + rewrite run_alt_miss.
      2:{ cbn [lit]. rewrite run_seq, run_seq. apply run_chr_miss. right.
          eexists _, _. split; [reflexivity | apply word_not_dot; now right]. }
      rewrite run_alt_miss.
      2:{ rewrite run_seq. apply run_chr_miss. right.
          eexists _, _. split; [reflexivity | apply word_not_dot; now right]. }
      apply run_cls_hit. apply word_class. now right.
    + rewrite run_alt_miss.
      2:{ change (lit ".git") with (Seq (Chr ".") (lit "git")).
          rewrite run_seq, run_seq, run_chr_hit by reflexivity. cbn beta.
          rewrite <- run_seq. now apply git_miss. }
      cbn [run rest]. change (Ascii.eqb (canon true ".") (canon true ".")) with true.
      cbn iota. unfold advance. cbn [pos caps].
      rewrite (git_miss project tail b (S p) c Some Hg Bg Bi Bt).
      change (class_matches true false [CWord; CChar "-"] ".") with false.
      now destruct (k _).
Qed.

Lemma not_word_classes (a : ascii) :
  is_word a = false ->
  class_matches true false [CDigit] a = false
  /\ class_matches true false [CRange "a" "f"; CDigit] a = false.
Proof. destruct a as [[] [] [] [] [] [] [] []]; vm_compute; auto. Qed.

Lemma digit_class (a : ascii) :
  is_digit a = true -> class_matches true false [CDigit] a = true.
Proof. intros H. unfold class_matches. simpl. now rewrite H. Qed.

Lemma nonzero_class (a : ascii) :
  between "1" "9" a = true -> class_matches true false [CRange "1" "9"] a = true.
Proof. intros H. unfold class_matches. simpl. now rewrite H. Qed.

Lemma take_len_app (n p : nat) (s t : string) :
  n = p + String.length s -> Str.take (n - p) (s ++ t) = s.
Proof. intros ->. replace (p + String.length s - p) with (String.length s) by lia. apply take_app. Qed.

(** The user group in front of a character that ends the name. *)
Lemma user_run (usr r : string) p c (k : Cont) x :
  userShape usr ->
  (r = EmptyString
   \/ exists b r', r = String b r'
                   /\ class_matches true false [CChar "-"; CDigit; CRange "a" "z"] b = false) ->
  k (mkSt (p + String.length usr) r (set_nth 0 (Some usr) c)) = Some x ->
  run true (Group 1 userGroup) k (mkSt p (usr ++ r) c) = Some x.
Proof.
  intros (a & u & -> & Lu & Ha & Hu) Hr Hk.
  rewrite run_group. unfold userGroup. rewrite run_seq. cbn [append].
  rewrite run_cls_hit by (now apply alnum_class). cbn beta. rewrite run_rep.
  apply rep_class_max; [|exact Hr|lia|exact Lu|].
  - eapply Sall_impl; [|exact Hu]. apply userChar_class.
  - unfold capture. cbn [pos rest caps Nat.sub].
    rewrite (take_len_app _ p (String a u) r) by (simpl; lia).
    replace (S p + String.length u) with (p + String.length (String a u)) by (simpl; lia).
    exact Hk.
Qed.

(** The project group in front of a character that ends the project. *)
Lemma project_run (proj : string) (b : ascii) (tail : string) p c (k : Cont) x :
  plainProject proj -> 1 <= String.length proj -> isProjectChar b = false ->
  k (mkSt (p + String.length proj) (String b tail) (set_nth 1 (Some proj) c)) = Some x ->
  run true (Group 2 projectGroup) k (mkSt p (proj ++ String b tail) c) = Some x.
Proof.
  intros Hp Lp Hb Hk. rewrite run_group. unfold projectGroup, plus. rewrite run_rep.
  apply rep_forced; [now apply project_forced | exact Lp | |].
  - cbn [rest]. rewrite length_app. lia.
  - unfold capture. cbn [pos rest caps Nat.sub].
    rewrite (take_len_app _ p proj) by reflexivity. exact Hk.
Qed.

(** [#] and a number in front of a character that is no digit. *)
Lemma number_run (d : ascii) (ds post : string) p c (k : Cont) x :
  between "1" "9" d = true -> Sall (fun a => is_digit a = true) ds ->
  closedAfter post ->
  k (mkSt (S p + String.length (String d ds)) post (set_nth 2 (Some (String d ds)) c))
  = Some x ->
  run true (Seq (Chr "#")
                (Group 3 (Seq (Cls false [CRange "1" "9"])
                              (Rep 0 None (Cls false [CDigit])))))
      k (mkSt p (String "#" (String d ds ++ post)) c) = Some x.
Proof.
  intros Hd Hds Hpost Hk.
  rewrite run_seq, run_chr_hit by reflexivity. cbn beta.
  rewrite run_group, run_seq. cbn [append].
  rewrite run_cls_hit by (now apply nonzero_class). cbn beta. rewrite run_rep.
  apply rep_class_max.
  - eapply Sall_impl; [|exact Hds]. apply digit_class.
  - destruct Hpost as [-> | (a & q & -> & Hw)]; [now left | right].
    exists a, q. split; [reflexivity | apply (not_word_classes a Hw)].
  - lia.
  - cbn [rest]. rewrite length_app. lia.
  - unfold capture. cbn [pos rest caps Nat.sub].
    rewrite (take_len_app _ (S p) (String d ds) post) by (simpl; lia).
    replace (S (S p) + String.length ds) with (S p + String.length (String d ds))
      by (simpl; lia).
    exact Hk.
Qed.

(** [@] and a hash in front of a character that is no hexadecimal digit. *)
Lemma hash_run (h post : string) p c (k : Cont) x :
  7 <= String.length h <= 40 -> Sall (fun a => isHex a = true) h ->
  closedAfter post ->
  k (mkSt (S p + String.length h) post (set_nth 3 (Some h) c)) = Some x ->
  run true (Seq (Chr "@") (Group 4 (Rep 7 (Some 40) hexClass)))
      k (mkSt p (String "@" (h ++ post)) c) = Some x.
Proof.
  intros Lh Hh Hpost Hk.
  rewrite run_seq, run_chr_hit by reflexivity. cbn beta.
  rewrite run_group, run_rep. unfold hexClass.
  apply rep_class_max.
  - eapply Sall_impl; [|exact Hh]. apply hex_class.
  - destruct Hpost as [-> | (a & q & -> & Hw)]; [now left | right].
    exists a, q. split; [reflexivity | apply (not_word_classes a Hw)].
  - lia.
  - lia.
  - unfold capture. cbn [pos rest caps Nat.sub].
    rewrite (take_len_app _ (S p) h post) by reflexivity. exact Hk.
Qed.

Lemma run_alt_hit ci r1 r2 (k : Cont) st x :
  run ci r1 k st = Some x -> run ci (Alt r1 r2) k st = Some x.
Proof. intros H. cbn [run]. now rewrite H. Qed.

(** The number or the hash of a reference. *)
Lemma mark_run (no hash : option string) (post : string) p c :
  numberOrHash no hash -> closedAfter post ->
  exists q caps',
    run true
        (Alt (Seq (Chr "#")
                  (Group 3 (Seq (Cls false [CRange "1" "9"])
                                (Rep 0 None (Cls false [CDigit])))))
             (Seq (Chr "@") (Group 4 (Rep 7 (Some 40) hexClass))))
        Some (mkSt p (markPart no hash ++ post) c)
    = Some (mkSt q post caps')
    /\ q = p + String.length (markPart no hash)
    /\ caps' = match no, hash with
               | Some n, _ => set_nth 2 (Some n) c
               | None, Some h => set_nth 3 (Some h) c
               | None, None => c
               end.
Proof.
  intros [(d & ds & -> & -> & Hd & Hds) | (h & -> & -> & Lh & Hh)] Hpost;
    cbn [markPart append]; eexists _, _.
  - split; [|split; [|reflexivity]].
    + apply run_alt_hit. now apply number_run.
    + simpl. lia.
  - split; [|split; [|reflexivity]].
    + rewrite run_alt_miss.
      * now apply hash_run.
      * rewrite run_seq. apply run_chr_miss. right. eexists _, _. split; reflexivity.
    + simpl. lia.
Qed.

Lemma markPart_head (no hash : option string) :
  numberOrHash no hash ->
  exists b t, markPart no hash = String b t
              /\ (b = "#"%char \/ b = "@"%char).
Proof.
  intros [(d & ds & -> & -> & _) | (h & -> & -> & _)]; cbn [markPart append];
    eexists _, _; split; try reflexivity; auto.
Qed.

(** The reference pattern at the start of a reference: the user, the
    project, and the number or the hash are matched whole. *)
Lemma reference_run (usr : string) (project no hash : option string) (post : string) p :
  userShape usr -> plainProjectOption project -> numberOrHash no hash ->
  closedAfter post ->
  exists q,
    run true (body referenceRegex) Some
        (mkSt p (referenceText usr project no hash ++ post) [None; None; None; None])
    = Some (mkSt q post [Some usr; project; no; hash])
    /\ q = p + String.length (referenceText usr project no hash).
Proof.
  intros Hu Hp Hm Hpost.
  destruct (markPart_head no hash Hm) as (b & t & Eb & Hb).
  assert (Bp : isProjectChar b = false) by (destruct Hb as [-> | ->]; reflexivity).
  assert (Bs : Ascii.eqb (canon true "/") (canon true b) = false)
    by (destruct Hb as [-> | ->]; reflexivity).
  assert (Bu : class_matches true false [CChar "-"; CDigit; CRange "a" "z"] b = false)
    by (destruct Hb as [-> | ->]; reflexivity).
  unfold referenceRegex, referenceText. cbn [body seqs].
  destruct project as [proj|]; cbn [projectPart plainProjectOption] in *.
  - destruct Hp as (Hp & Lp).
    destruct (mark_run no hash post (S (p + String.length usr) + String.length proj)
                       [Some usr; Some proj; None; None] Hm Hpost)
      as (q & caps' & Er & Eq & Ec).
    exists q. split.
    + rewrite !app_assoc. cbn [append]. rewrite run_seq.
      apply user_run; [exact Hu | right; eexists _, _; split; reflexivity|].
      rewrite run_seq. apply opt_hit.
      rewrite run_seq, run_chr_hit by reflexivity. cbn beta.
      rewrite Eb. cbn [append].
      apply project_run; [exact Hp | exact Lp | exact Bp|].
      cbn [pos].
      replace (S (p + String.length usr) + String.length proj =? p + String.length usr)
        with false by (symmetry; apply Nat.eqb_neq; lia).
      change (String b (t ++ post)) with (String b t ++ post)%string.
      rewrite <- Eb. cbn [set_nth]. rewrite Er. rewrite Ec.
      destruct Hm as [(d & ds & -> & -> & _) | (h & -> & -> & _)]; reflexivity.
    + rewrite Eq, !length_app. simpl. lia.
  - destruct (mark_run no hash post (p + String.length usr)
                       [Some usr; None; None; None] Hm Hpost)
      as (q & caps' & Er & Eq & Ec).
    exists q. split.
    + cbn [append]. rewrite !app_assoc. rewrite run_seq.
      apply user_run;
        [exact Hu | right; rewrite Eb; cbn [append]; eexists _, _; split;
                    [reflexivity | exact Bu]|].
      rewrite run_seq. rewrite opt_miss.
      * cbn [set_nth]. rewrite Er, Ec.
        destruct Hm as [(d & ds & -> & -> & _) | (h & -> & -> & _)]; reflexivity.
      * intros k'. rewrite run_seq. apply run_chr_miss. right.
        rewrite Eb. cbn [append]. eexists _, _. split; [reflexivity | exact Bs].
    + rewrite Eq, !length_app. simpl. lia.
Qed.

End ForcedFacts.

(** ** A text with one mention or one reference *)

Module SingleFacts.

Import Re Github StrFacts ReFacts PatternFacts PluginFacts RewriterFacts.
Local Open Scope nat_scope.
Import ShapeFacts ScannerFacts AcceptFacts.

Import ForcedFacts.

Lemma handlerLoop_done (fuel : nat) find replace value lastIndex start nodes change :
  exec find value lastIndex = None ->
  handlerLoop fuel find replace value lastIndex start nodes change
  = ret (nodes, start, change).
Proof. intros H. destruct fuel; cbn [handlerLoop]; [|rewrite H]; reflexivity. Qed.

Lemma userChar_project (a : ascii) : isUserChar a = true -> isProjectChar a = true.
Proof.
  unfold isUserChar, isProjectChar, isAlnum, is_word. intros H.
  apply orb_true_iff in H as [H | H]; [|now rewrite H, orb_true_r].
  apply orb_true_iff in H as [H | H];
    [apply orb_true_iff in H as [H | H]|]; rewrite H; now rewrite ?orb_true_r.
Qed.

Lemma userShape_chars (u : string) :
  userShape u -> u <> EmptyString /\ Sall (fun c => isProjectChar c = true) u.
Proof.
  intros (a & r & -> & _ & Ha & Hr). split; [discriminate|]. split.
  - now apply userChar_project, isAlnum_user.
  - eapply Sall_impl; [|exact Hr]. apply userChar_project.
Qed.

Lemma charAt_before (p : string) (a : ascii) (t : string) :
  Str.charAt ((p ++ String a EmptyString) ++ t)
             (Z.of_nat (String.length (p ++ String a EmptyString)) - 1)
  = String a EmptyString.
Proof.
  rewrite length_app. cbn [String.length].
  replace (Z.of_nat (String.length p + 1) - 1)%Z with (Z.of_nat (String.length p)) by lia.
  rewrite app_assoc, charAt_app. reflexivity.
Qed.

Lemma search_hit ci r n p s st' :
  run ci r Some (mkSt p s (repeat None n)) = Some st' ->
  search ci r n p s = Some (mkMatch p (Str.take (pos st' - p) s) (caps st')).
Proof. intros H. destruct s; cbn [search]; now rewrite H. Qed.

(** One accepted match in a text: the text in front of it, the node put
    in its place and the text behind it. *)
Lemma handler_single find replace (pre mid post : string) (m : Match) (new : Node) :
  exec find (pre ++ mid ++ post) 0 = Some m ->
  index m = String.length pre -> whole m = mid ->
  replace m (pre ++ mid ++ post)%string = (Some new, []) ->
  exec find (pre ++ mid ++ post) (endIndex m) = None ->
  handler find replace (pre ++ mid ++ post)
  = ((span pre ++ [new] ++ span post)%list, []).
Proof.
  intros E Hi Hw Hr Hnone.
  unfold handler. cbn [handlerLoop]. rewrite E, Hr. cbn [bind].
  rewrite handlerLoop_done by exact Hnone.
  rewrite Hi, Hw.
  unfold Str.slice. cbn [Str.drop]. rewrite Nat.sub_0_r, take_app.
  assert (Hn : (if 0 =? String.length pre then [] else ([] ++ [text pre])%list)
               = span pre) by now destruct pre.
  rewrite Hn.
  assert (Hv : (pre ++ mid ++ post)%string = ((pre ++ mid) ++ post)%string)
    by (now rewrite !app_assoc).
  assert (Hl : String.length pre + String.length mid = String.length (pre ++ mid))
    by (symmetry; apply length_app).
  rewrite Hl, Hv. unfold bind, ret. rewrite drop_app, (length_app _ post).
  cbn [List.app]. f_equal.
  destruct post as [|a q].
  - cbn [String.length span]. rewrite Nat.add_0_r, Nat.ltb_irrefl. reflexivity.
  - replace (_ <? _) with true by (symmetry; apply Nat.ltb_lt; simpl; lia).
    cbn [span]. now rewrite <- ?List.app_assoc.
Qed.

(** ** Where the one mark of a text is *)

Lemma first_mark (M : ascii -> Prop) (x x' y y' : string) (b b' : ascii) :
  Sall (fun a => ~ M a) x -> Sall (fun a => ~ M a) y -> M b -> M b' ->
  (x' ++ String b' y' = x ++ String b y)%string -> x' = x /\ b' = b /\ y' = y.
Proof.
  revert x; induction x' as [|a' x' IH]; intros [|a x] Hx Hy Hb Hb' E; simpl in *.
  - injection E as <- <-. auto.
  - injection E as <- _. now destruct Hx.
  - injection E as -> E. exfalso.
    rewrite <- E in Hy. apply Sall_app in Hy as (_ & (Hc & _)). now apply Hc.
  - injection E as <- E. destruct (IH x (proj2 Hx) Hy Hb Hb' E) as (<- & <- & <-). auto.
Qed.

Lemma app_split (x w y z : string) :
  (x ++ w = y ++ z)%string -> String.length x < String.length y ->
  exists w0, y = (x ++ w0)%string /\ w = (w0 ++ z)%string /\ w0 <> EmptyString.
Proof.
  revert y; induction x as [|a x IH]; intros [|b y] E L; simpl in *; try lia.
  - exists (String b y). repeat split; [exact E | discriminate].
  - injection E as <- E. destruct (IH y E ltac:(lia)) as (w0 & -> & -> & Hn).
    exists w0. auto.
Qed.

Lemma quiet_unmarked (s : string) :
  hasChar "@" s = false /\ hasChar "#" s = false -> Sall unmarked s.
Proof.
  intros (Ha & Hh). apply hasChar_Sall in Ha. apply hasChar_Sall in Hh.
  induction s as [|a s IH]; [exact I|]. destruct Ha as (Ha & Ha'), Hh as (Hh & Hh').
  split; [|now apply IH]. intros [-> | ->]; contradiction.
Qed.

Lemma projectChars_unmarked (s : string) :
  Sall (fun c => isProjectChar c = true) s -> Sall unmarked s.
Proof. apply Sall_impl. intros a H [-> | ->]; discriminate. Qed.

Lemma hexes_unmarked (s : string) :
  Sall (fun c => isHex c = true) s -> Sall unmarked s.
Proof. apply Sall_impl. intros a H [-> | ->]; discriminate. Qed.

Lemma opener_outside (a : ascii) :
  In a openers -> isProjectChar a = false /\ a <> "/"%char.
Proof.
  intros H. repeat (destruct H as [<- | H]; [split; [reflexivity | discriminate]|]).
  destruct H.
Qed.

Section LoneMention.
Variables pre usr post : string.
Hypothesis usr_shape : userShape usr.
Hypothesis pre_quiet : hasChar "@" pre = false.
Hypothesis post_quiet : hasChar "@" post = false.
Hypothesis post_clear : clearAfter post.

Lemma userShape_no_at : Sall (fun a => a <> "@"%char) usr.
Proof.
  destruct usr_shape as (a & u & -> & _ & Ha & Hu). split.
  - intros ->. discriminate.
  - eapply Sall_impl; [|exact Hu]. intros b Hb ->. discriminate.
Qed.

(** Every match of the mention pattern in the text is the one mention. *)
Lemma mention_index (i : nat) (m : Match) :
  exec mentionRegex (pre ++ "@" ++ usr ++ post) i = Some m -> index m = String.length pre.
Proof.
  intros E. pose proof (exec_match _ _ _ _ E) as (pre' & post' & st' & Ev & Hi & _).
  apply mention_anatomy in E as (name & Ew & _).
  rewrite Ew in Ev. cbn [append] in Ev.
  symmetry in Ev. apply first_occurrence in Ev as (-> & _); [exact Hi | |].
  - now apply hasChar_Sall.
  - apply Sall_app. split; [apply userShape_no_at | now apply hasChar_Sall].
Qed.

Lemma mention_exec_first :
  exec mentionRegex (pre ++ "@" ++ usr ++ post) 0
  = Some (mkMatch (String.length pre) ("@" ++ usr) [Some usr]).
Proof.
  rewrite (exec_skip mentionRegex (pre ++ "@" ++ usr ++ post) (String.length pre)); try reflexivity.
  - now apply mention_exec_at.
  - rewrite length_app. lia.
  - intros i m E. rewrite (mention_index _ _ E). lia.
  - lia.
Qed.

Lemma mention_exec_after (i : nat) :
  String.length pre < i -> exec mentionRegex (pre ++ "@" ++ usr ++ post) i = None.
Proof.
  intros Hi. apply (exec_none_from mentionRegex (pre ++ "@" ++ usr ++ post) (S (String.length pre)));
    [reflexivity | | lia].
  intros j m E. rewrite (mention_index _ _ E). lia.
Qed.
End LoneMention.

Section LoneMention.
Variable options : Options.
Variables pre usr post : string.
Hypothesis no_hook : buildUrlHook options = None.
Hypothesis usr_shape : userShape usr.
Hypothesis usr_free : denied usr = false.
Hypothesis pre_quiet : hasChar "@" pre = false /\ hasChar "#" pre = false.
Hypothesis post_quiet : hasChar "@" post = false /\ hasChar "#" post = false.
Hypothesis pre_clear : clearBefore pre.
Hypothesis post_clear : clearAfter post.

Let made : Node :=
  link ("https://github.com/" ++ usr) None
       [match mentionStrong options with
        | Some false => text ("@" ++ usr)
        | _ => strong [text ("@" ++ usr)]
        end].

Lemma lone_mention_valid :
  validMention ("@" ++ usr) (mkInfo (pre ++ "@" ++ usr ++ post) (Z.of_nat (String.length pre))).
Proof.
  unfold validMention. cbn [input offset]. split.
  - destruct pre_clear as [E | (p & a & E & Ha & Hb)].
    + rewrite E. cbn [String.length]. now rewrite charAt_neg by lia.
    + rewrite E, charAt_before, test_wordTick.
      unfold isProjectChar in Ha. apply orb_false_iff in Ha as (Ha & _).
      apply orb_false_iff in Ha as (Ha & _). rewrite Ha. cbn [orb].
      apply Ascii.eqb_neq. congruence.
  - rewrite <- Nat2Z.inj_add, <- length_app.
    replace (pre ++ "@" ++ usr ++ post)%string with ((pre ++ "@" ++ usr) ++ post)%string
      by (now rewrite !app_assoc).
    rewrite charAt_app.
    destruct post_clear as [-> | (a & q & -> & Hw & _ & Hs & Hb)]; [reflexivity|].
    cbn [Str.take]. rewrite test_slashWordTick, Hw.
    replace (Ascii.eqb "/" a) with false by (symmetry; apply Ascii.eqb_neq; congruence).
    replace (Ascii.eqb "`" a) with false by (symmetry; apply Ascii.eqb_neq; congruence).
    reflexivity.
Qed.

Lemma lone_mention_replaced :
  mentionReplacer options (mkMatch (String.length pre) ("@" ++ usr) [Some usr]) (pre ++ "@" ++ usr ++ post)
  = (Some made, []).
Proof.
  unfold mentionReplacer. cbn [whole index]. change (grp _ 1) with usr.
  rewrite (replaceMention_valid _ _ _ _ lone_mention_valid usr_free).
  unfold buildUrl. rewrite no_hook. reflexivity.
Qed.

Lemma lone_mention_handler :
  handler mentionRegex (mentionReplacer options) (pre ++ "@" ++ usr ++ post)
  = ((span pre ++ [made] ++ span post)%list, []).
Proof.
  destruct pre_quiet as (Hpa & _). destruct post_quiet as (Hqa & _).
  apply (handler_single mentionRegex (mentionReplacer options) pre ("@" ++ usr) post
           (mkMatch (String.length pre) ("@" ++ usr) [Some usr]) made).
  - now apply mention_exec_first.
  - reflexivity.
  - reflexivity.
  - apply lone_mention_replaced.
  - apply (mention_exec_after pre usr post usr_shape Hpa Hqa).
    unfold endIndex. cbn [index whole String.length append]. lia.
Qed.

Lemma value_hash_free : hasChar "#" (pre ++ "@" ++ usr ++ post) = false.
Proof.
  rewrite !hasChar_app. destruct pre_quiet as (_ & ->).
  destruct post_quiet as (_ & ->). cbn [hasChar orb].
  change (Ascii.eqb "@" "#") with false. cbn [orb]. rewrite orb_false_r.
  apply hasChar_Sall. destruct (userShape_chars _ usr_shape) as (_ & H).
  eapply Sall_impl; [|exact H]. intros a Ha ->. discriminate.
Qed.

Lemma lone_mention_no_reference (i : nat) : exec referenceRegex (pre ++ "@" ++ usr ++ post) i = None.
Proof.
  destruct (exec referenceRegex (pre ++ "@" ++ usr ++ post) i) as [m|] eqn:E; [exfalso | reflexivity].
  pose proof (exec_match _ _ _ _ E) as (pre' & post' & st' & Ev & _).
  apply reference_anatomy in E as (u' & pr & tail & Ew & _ & Hu' & Hpr & Ht).
  destruct (userShape_chars _ Hu') as (Hne & Hc').
  destruct Ht as [(d & ds & _ & _ & -> & _) | (h & _ & _ & -> & _)].
  - pose proof value_hash_free as Hf. rewrite Ev, Ew in Hf.
    rewrite !hasChar_app in Hf. cbn [append hasChar] in Hf.
    rewrite Ascii.eqb_refl in Hf. cbn [orb] in Hf. now rewrite !orb_true_r in Hf.
  - rewrite Ew in Ev.
    assert (Ev' : ((pre' ++ u' ++ pr) ++ String "@" (h ++ post')
                   = pre ++ String "@" (usr ++ post))%string).
    { change (pre ++ String "@" (usr ++ post))%string
        with (pre ++ "@" ++ usr ++ post)%string.
      rewrite Ev, !app_assoc. reflexivity. }
    apply first_occurrence in Ev' as (Ep & _).
    2:{ apply hasChar_Sall. exact (proj1 pre_quiet). }
    2:{ apply Sall_app. split; [now apply userShape_no_at|].
        apply hasChar_Sall. exact (proj1 post_quiet). }
    destruct pre_clear as [E0 | (p & a & E0 & Ha & _)].
    + rewrite E0 in Ep. destruct pre'; [|discriminate].
      destruct u'; [contradiction | discriminate].
    + rewrite E0 in Ep.
      destruct Hpr as [(_ & ->) | (p0 & _ & -> & Lp0 & Hp0)].
      * rewrite app_nil_r in Ep. apply last_char in Ep as (y0 & Ey); [|exact Hne].
        rewrite Ey in Hc'. apply Sall_last in Hc'. congruence.
      * replace (pre' ++ u' ++ "/" ++ p0)%string
          with ((pre' ++ u' ++ "/") ++ p0)%string in Ep by (now rewrite !app_assoc).
        apply last_char in Ep as (y0 & Ey).
        -- rewrite Ey in Hp0. apply Sall_last in Hp0. congruence.
        -- intros ->. simpl in Lp0. lia.
Qed.
End LoneMention.

Lemma plainProject_unmarked (p : string) : plainProject p -> Sall unmarked p.
Proof. intros H. now apply projectChars_unmarked, plainProject_chars. Qed.

Lemma digits_unmarked (s : string) :
  Sall (fun c => is_digit c = true) s -> Sall unmarked s.
Proof. apply Sall_impl. intros a H [-> | ->]; discriminate. Qed.

Section LoneReference.
Variable options : Options.
Variables pre usr post : string.
Variables project no hash : option string.
Hypothesis no_hook : buildUrlHook options = None.
Hypothesis usr_shape : userShape usr.
Hypothesis project_plain : plainProjectOption project.
Hypothesis mark_shape : numberOrHash no hash.
Hypothesis pre_quiet : hasChar "@" pre = false /\ hasChar "#" pre = false.
Hypothesis post_quiet : hasChar "@" post = false /\ hasChar "#" post = false.
Hypothesis pre_open : openBefore pre.
Hypothesis post_closed : closedAfter post.

Lemma reference_exec_at :
  exec referenceRegex (pre ++ referenceText usr project no hash ++ post)
       (String.length pre)
  = Some (mkMatch (String.length pre) (referenceText usr project no hash)
                  [Some usr; project; no; hash]).
Proof.
  unfold exec. cbn [global referenceRegex ignoreCase ngroups].
  replace (_ <? _) with false by (symmetry; apply Nat.ltb_ge; rewrite length_app; lia).
  rewrite drop_app.
  destruct (reference_run usr project no hash post (String.length pre)
              usr_shape project_plain mark_shape post_closed) as (q & Er & Eq).
  rewrite (search_hit _ _ 4 _ _ _ Er). cbn [pos caps].
  rewrite (take_len_app q (String.length pre) _ post Eq). reflexivity.
Qed.

(** The text in front of the mark and the text behind it hold no mark. *)
Lemma reference_parts :
  exists b t,
    markPart no hash = String b t /\ (b = "#"%char \/ b = "@"%char)
    /\ Sall unmarked (pre ++ usr ++ projectPart project)
    /\ Sall unmarked (t ++ post).
Proof.
  destruct mark_shape as [(d & ds & -> & -> & Hd & Hds) | (h & -> & -> & Lh & Hh)];
    cbn [markPart append]; eexists _, _; (split; [reflexivity|]);
      (split; [auto|]); split.
  1,3: apply Sall_app; split; [now apply quiet_unmarked|];
    apply Sall_app; split;
      [apply projectChars_unmarked, userShape_chars, usr_shape|];
      destruct project as [p|]; cbn [projectPart plainProjectOption append] in *;
        [split; [intros [E | E]; discriminate | apply plainProject_unmarked, project_plain]
        | exact I].
  - apply Sall_app. split; [|now apply quiet_unmarked].
    split; [intros [-> | ->]; discriminate | now apply digits_unmarked].
  - apply Sall_app. split; [now apply hexes_unmarked | now apply quiet_unmarked].
Qed.

(** Every match of the reference pattern in the text ends at the one mark
    and does not start in front of the reference. *)
Lemma reference_index (i : nat) (m : Match) :
  exec referenceRegex (pre ++ referenceText usr project no hash ++ post) i = Some m ->
  String.length pre <= index m
  /\ index m < String.length pre + String.length (referenceText usr project no hash).
Proof.
  intros E. pose proof (exec_match _ _ _ _ E) as (pre' & post' & st' & Ev & Hi & _).
  apply reference_anatomy in E as (u' & pr' & tail' & Ew & _ & Hu' & Hpr' & Ht').
  destruct reference_parts as (b & t & Eb & Hb & Hx & Hy).
  assert (Et : exists b' t', tail' = String b' t' /\ (b' = "#"%char \/ b' = "@"%char)).
  { destruct Ht' as [(d & ds & _ & _ & -> & _) | (h & _ & _ & -> & _)];
      eexists _, _; split; try reflexivity; auto. }
  destruct Et as (b' & t' & -> & Hb').
  assert (Ex : ((pre' ++ u' ++ pr') ++ String b' (t' ++ post')
                = (pre ++ usr ++ projectPart project) ++ String b (t ++ post))%string).
  { change (String b (t ++ post)) with (String b t ++ post)%string.
    rewrite <- Eb. unfold referenceText in Ev.
    transitivity (pre ++ (usr ++ projectPart project ++ markPart no hash) ++ post)%string;
      [|now rewrite !app_assoc].
    rewrite Ev, Ew, !app_assoc. reflexivity. }
  apply (first_mark (fun a => a = "#"%char \/ a = "@"%char)) in Ex as (Ep & _ & _);
    [|exact Hx|exact Hy|exact Hb|exact Hb'].
  assert (Lx : String.length pre' <= String.length pre + String.length usr
                                     + String.length (projectPart project)).
  { apply (f_equal String.length) in Ep. rewrite !length_app in Ep. lia. }
  split.
  - rewrite Hi. destruct (Nat.le_gt_cases (String.length pre) (String.length pre'))
      as [L | L]; [exact L | exfalso].
    apply app_split in Ep as (w0 & Epre & Ew0 & Hw0); [|exact L].
    destruct pre_open as [E0 | (p0 & a & E0 & Ha)];
      [rewrite E0 in L; simpl in L; lia|].
    rewrite E0 in Epre. symmetry in Epre.
    apply last_char in Epre as (y0 & ->); [|exact Hw0].
    destruct (opener_outside a Ha) as (Hp & Hs).
    destruct (userShape_chars _ Hu') as (_ & Hc').
    assert (Q : Sall (fun c => isProjectChar c = true \/ c = "/"%char) (u' ++ pr')).
    { apply Sall_app. split; [eapply Sall_impl; [|exact Hc']; auto|].
      destruct Hpr' as [(_ & ->) | (p1 & _ & -> & _ & Hp1)]; [exact I|].
      cbn [append Sall]. split; [now right|]. eapply Sall_impl; [|exact Hp1]; auto. }
    rewrite Ew0, !app_assoc in Q. apply Sall_app in Q as (_ & Q).
    cbn [append Sall] in Q. destruct Q as (Q & _).
    destruct Q as [Q | Q]; congruence.
  - rewrite Hi. unfold referenceText. rewrite !length_app.
    destruct reference_parts as (b0 & t0 & -> & _). simpl. lia.
Qed.

Lemma reference_exec_first :
  exec referenceRegex (pre ++ referenceText usr project no hash ++ post) 0
  = Some (mkMatch (String.length pre) (referenceText usr project no hash)
                  [Some usr; project; no; hash]).
Proof.
  rewrite (exec_skip referenceRegex _ (String.length pre)); try reflexivity.
  - apply reference_exec_at.
  - rewrite length_app. lia.
  - intros i m E. apply (reference_index _ _ E).
  - lia.
Qed.

Lemma reference_exec_after (i : nat) :
  String.length pre + String.length (referenceText usr project no hash) <= i ->
  exec referenceRegex (pre ++ referenceText usr project no hash ++ post) i = None.
Proof.
  intros Hi. eapply exec_none_from; [reflexivity | | exact Hi].
  intros j m E. apply (reference_index _ _ E).
Qed.

Lemma lone_reference_valid :
  validReference (referenceText usr project no hash)
                 (mkInfo (pre ++ referenceText usr project no hash ++ post)
                         (Z.of_nat (String.length pre))).
Proof.
  unfold validReference. cbn [input offset]. split.
  - destruct pre_open as [E | (p & a & E & Ha)].
    + rewrite E. cbn [String.length]. now rewrite charAt_neg by lia.
    + rewrite E, charAt_before, test_notOpening.
      apply negb_false_iff, existsb_eqb_In, Ha.
  - rewrite <- Nat2Z.inj_add, <- length_app.
    replace (pre ++ referenceText usr project no hash ++ post)%string
      with ((pre ++ referenceText usr project no hash) ++ post)%string
      by (now rewrite !app_assoc).
    rewrite charAt_app.
    destruct post_closed as [-> | (a & q & -> & Hw)]; [reflexivity|].
    cbn [Str.take]. now rewrite test_word.
Qed.

Lemma numberOrHash_captured : captured no hash.
Proof.
  destruct mark_shape as [(d & ds & -> & -> & _) | (h & -> & -> & Lh & _)].
  - constructor. discriminate.
  - constructor. unfold minShaLength. lia.
Qed.

Lemma lone_reference_replaced :
  referenceReplacer options
    (mkMatch (String.length pre) (referenceText usr project no hash)
             [Some usr; project; no; hash])
    (pre ++ referenceText usr project no hash ++ post)
  = (Some (link (defaultBuildUrl (referenceValue usr project no hash)) None
                (referenceDisplay no hash)), []).
Proof.
  unfold referenceReplacer. cbn [whole index].
  change (grp _ 1) with usr. change (group _ 2) with project.
  change (group _ 3) with no. change (group _ 4) with hash.
  rewrite (replaceReference_valid _ _ _ _ _ _ _ lone_reference_valid numberOrHash_captured).
  unfold buildUrl. rewrite no_hook. unfold cmap, ret. cbn [fst snd].
  now rewrite (truthy_some _ (defaultBuildUrl_nonempty _)).
Qed.

Lemma lone_reference_handler :
  handler referenceRegex (referenceReplacer options)
          (pre ++ referenceText usr project no hash ++ post)
  = ((span pre
      ++ [link (defaultBuildUrl (referenceValue usr project no hash)) None
               (referenceDisplay no hash)]
      ++ span post)%list, []).
Proof.
  eapply handler_single.
  - apply reference_exec_first.
  - reflexivity.
  - reflexivity.
  - apply lone_reference_replaced.
  - apply reference_exec_after. unfold endIndex. cbn [index whole]. lia.
Qed.
End LoneReference.

Lemma span_texts (s : string) : forall v, In v (flat_map texts (span s)) -> v = s.
Proof. destruct s; simpl; intros v H; [contradiction | destruct H as [<- | []]; reflexivity]. Qed.

End SingleFacts.

(* ================================================================== *)
(** * The model on the scenarios of the specification *)
(* ================================================================== *)

Module Scenarios.

Import Github.

(** A mention in running text becomes a link around the text in bold. *)
Example mention_in_text :
  remarkGithub noOptions (parent "paragraph" [text "hello there @tivie"])
  = (parent "paragraph"
            [text "hello there ";
             link "https://github.com/tivie" None [strong [text "@tivie"]]], []).
Proof. vm_compute. reflexivity. Qed.

(** An issue reference shows the number only. *)
Example issue_in_text :
  remarkGithub noOptions (parent "paragraph" [text "wooorm/remark-github#1"])
  = (parent "paragraph"
            [link "https://github.com/wooorm/remark-github/issues/1" None
                  [text "#1"]], []).
Proof. vm_compute. reflexivity. Qed.

(** A bare autolink to a commit is relabelled with the abbreviated hash. *)
Example commit_autolink :
  linkNormalizer
    (link "https://github.com/wooorm/remark-github/commit/abcdef1234567890" None
          [text "https://github.com/wooorm/remark-github/commit/abcdef1234567890"])
  = link "https://github.com/wooorm/remark-github/commit/abcdef1234567890" None
         [text "wooorm@"; inlineCode "abcdef1"].
Proof. vm_compute. reflexivity. Qed.

(** A link with a label of its own is left alone. *)
Example labelled_link :
  linkNormalizer
    (link "https://github.com/wooorm/remark-github/commit/abcdef1234567890" None
          [text "this commit"])
  = link "https://github.com/wooorm/remark-github/commit/abcdef1234567890" None
         [text "this commit"].
Proof. vm_compute. reflexivity. Qed.

(** With the hook of the demonstration application the issue is linked and
    the mention is not; the hook is called once for each, the reference
    first. *)
Example application_hook :
  remarkGithub appOptions (parent "paragraph" [text "see wooorm/remark#1 @tivie"])
  = (parent "paragraph"
            [text "see ";
             link "https://github.com/wooorm/remark/issues/1" None [text "#1"];
             text " @tivie"],
     [issue "wooorm" (Some "remark") "1"; mention "tivie"]).
Proof. vm_compute. reflexivity. Qed.

(** Text inside an existing link is not scanned. *)
Example inside_link :
  remarkGithub noOptions
    (parent "paragraph" [link "https://github.com/wooorm" None [strong [text "@wooorm"]]])
  = (parent "paragraph" [link "https://github.com/wooorm" None [strong [text "@wooorm"]]],
     []).
Proof. vm_compute. reflexivity. Qed.

End Scenarios.

(* ================================================================== *)
(** * The properties *)
(* ================================================================== *)

Import Re Github StrFacts ReFacts PatternFacts PluginFacts RewriterFacts.
Local Open Scope nat_scope.

(** ** Hash abbreviation *)

(** C1.  [abbr] itself keeps the law: for every string it is the prefix
    of [min 7 (length)] characters.  The link path breaks it, because
    what [parse] abbreviates is group 4 of the link pattern and not the
    hash.  For the bare autolink to commit [abcdef] written with a closing
    slash, group 4 is [abcdef/], it passes the check commented "SHAs can be
    min 4, max 40 characters", and the code span shows [abcdef/], which is
    no prefix of the hash.  For a comparison whose page is spelt [Compare]
    the pattern (flag [i]) matches, the test [=== "compare"] fails, the
    payload is not split and the code span shows [abcdef1], not the two
    abbreviated halves around three dots.  For a commit page with a range
    as payload the code span shows [ab...1]. *)
Theorem C1_link_payload_is_not_the_hash :
  (forall sha,
      abbr sha = Str.take (Nat.min 7 (String.length sha)) sha
      /\ String.length (abbr sha) = Nat.min 7 (String.length sha)
      /\ exists rest, sha = (abbr sha ++ rest)%string)
  /\ (exists m,
         exec linkRegex (urlOf slashHashLink) 0 = Some m
         /\ grp m 3 = "commit" /\ grp m 4 = "abcdef/"
         /\ invalid m = false
         /\ linkNormalizer slashHashLink
            = link "https://github.com/u/p/commit/abcdef/" None
                   [text "u@"; inlineCode "abcdef/"]
         /\ abbr "abcdef" = "abcdef"
         /\ ~ (exists rest, "abcdef" = ("abcdef/" ++ rest)%string))
  /\ (exists m,
         exec linkRegex (urlOf capitalCompareLink) 0 = Some m
         /\ grp m 3 = "Compare" /\ grp m 4 = "abcdef1234567...1234567890"
         /\ linkNormalizer capitalCompareLink
            = link "https://github.com/u/p/Compare/abcdef1234567...1234567890" None
                   [text "u@"; inlineCode "abcdef1"]
         /\ (abbr "abcdef1234567" ++ "..." ++ abbr "1234567890")%string
            = "abcdef1...1234567")
  /\ (exists m,
         exec linkRegex (urlOf rangeCommitLink) 0 = Some m
         /\ grp m 3 = "commit" /\ grp m 4 = "ab...1"
         /\ invalid m = false
         /\ linkNormalizer rangeCommitLink
            = link "https://github.com/u/p/commit/ab...1" None
                   [text "u@"; inlineCode "ab...1"]).
Proof.
  split; [exact abbr_prefix|]. split; [|split].
  - eexists. split; [vm_compute; reflexivity|].
    repeat split; try (vm_compute; reflexivity).
    intros (rest & H). discriminate H.
  - eexists. split; [vm_compute; reflexivity|].
    repeat split; vm_compute; reflexivity.
  - eexists. split; [vm_compute; reflexivity|].
    repeat split; vm_compute; reflexivity.
Qed.

(** ** Display of a reference found in text *)

(** Without the condition that the URL is not empty the statement fails:
    for a hook that returns the empty string the rewriter answers [false]. *)
Lemma C2_counterexample :
  ~ (forall options value i m u,
        exec referenceRegex value i = Some m ->
        validReference (whole m) (mkInfo value (Z.of_nat (index m))) ->
        fst (buildUrl options
               (referenceValue (grp m 1) (group m 2) (group m 3) (group m 4))) = Some u ->
        fst (referenceReplacer options m value)
        = Some (link u None (referenceDisplay (group m 3) (group m 4)))).
Proof.
  intros H.
  specialize (H emptyUrlOptions "wooorm/remark-github#1" 0
                (mkMatch 0 "wooorm/remark-github#1"
                         [Some "wooorm"; Some "remark-github"; Some "1"; None])
                EmptyString).
  assert (F : fst (referenceReplacer emptyUrlOptions
                     (mkMatch 0 "wooorm/remark-github#1"
                              [Some "wooorm"; Some "remark-github"; Some "1"; None])
                     "wooorm/remark-github#1") = None) by (vm_compute; reflexivity).
  rewrite H in F; [discriminate F| | |]; vm_compute; auto.
Qed.

(** C2, amended.  For every match of the reference pattern that passes the
    boundary tests: when the URL builder returns a non-empty string [u],
    the rewriter answers a link to [u] with no title whose children are
    the single text ["#" ++ no] when an issue number was captured, and the
    text ["@"] followed by a code span with the abbreviated hash when a
    hash was captured; the user and project of the match appear in
    neither.  When the builder returns [false] or the empty string, the
    rewriter answers [false]: there is no link.  A link [replaceMention]
    makes has no title either. *)
Theorem C2_reference_display (options : Options) (value : string) (i : nat)
        (m : Match) :
  exec referenceRegex value i = Some m ->
  validReference (whole m) (mkInfo value (Z.of_nat (index m))) ->
  (forall u,
      fst (buildUrl options
             (referenceValue (grp m 1) (group m 2) (group m 3) (group m 4))) = Some u ->
      u <> EmptyString ->
      fst (referenceReplacer options m value)
      = Some (link u None (referenceDisplay (group m 3) (group m 4))))
  /\ (fst (buildUrl options
              (referenceValue (grp m 1) (group m 2) (group m 3) (group m 4))) = None
      \/ fst (buildUrl options
                 (referenceValue (grp m 1) (group m 2) (group m 3) (group m 4)))
         = Some EmptyString ->
      fst (referenceReplacer options m value) = None)
  /\ ((exists no, group m 3 = Some no
                  /\ referenceDisplay (group m 3) (group m 4) = [text ("#" ++ no)])
      \/ (exists hash, group m 3 = None /\ group m 4 = Some hash
                       /\ referenceDisplay (group m 3) (group m 4)
                          = [text "@"; inlineCode (abbr hash)]))
  /\ (forall text' username mt node,
         fst (replaceMention options text' username mt) = Some node ->
         exists url child, node = link url None [child]).
Proof.
  intros E Hv. pose proof (reference_groups _ _ _ E) as Hc.
  split; [|split; [|split]].
  - intros u Hu Hne.
    unfold referenceReplacer. rewrite (replaceReference_valid _ _ _ _ _ _ _ Hv Hc).
    unfold cmap; cbn [fst]. rewrite Hu, (truthy_some _ Hne). reflexivity.
  - intros Hu. unfold referenceReplacer.
    apply replaceReference_refused; [exact Hc | now apply truthy_false].
  - destruct Hc as [n Hn|h Hh]; [left; exists n | right; exists h]; auto.
  - intros text' username mt node. unfold replaceMention.
    destruct (_ || _); [cbn [ret fst]; discriminate|].
    rewrite fst_bind.
    match goal with |- context [negb (truthy ?x)] => generalize x end.
    intros url. destruct (negb (truthy url)); cbn [ret fst]; [discriminate|].
    intros H; injection H as <-. eauto.
Qed.

Lemma C2_witness :
  fst (referenceReplacer noOptions
         (mkMatch 4 "wooorm/remark@deadbee1"
                  [Some "wooorm"; Some "remark"; None; Some "deadbee1"])
         "see wooorm/remark@deadbee1")
  = Some (link "https://github.com/wooorm/remark/commit/deadbee1" None
               [text "@"; inlineCode "deadbee"])
  /\ fst (referenceReplacer emptyUrlOptions
            (mkMatch 4 "wooorm/remark@deadbee1"
                     [Some "wooorm"; Some "remark"; None; Some "deadbee1"])
            "see wooorm/remark@deadbee1")
     = None.
Proof.
  split.
  - refine (proj1 (C2_reference_display noOptions "see wooorm/remark@deadbee1" 0
                     (mkMatch 4 "wooorm/remark@deadbee1"
                              [Some "wooorm"; Some "remark"; None; Some "deadbee1"])
                     _ _)
                  "https://github.com/wooorm/remark/commit/deadbee1" _ _).
    + vm_compute; reflexivity.
    + vm_compute; auto.
    + vm_compute; reflexivity.
    + discriminate.
  - refine (proj1 (proj2 (C2_reference_display emptyUrlOptions
                            "see wooorm/remark@deadbee1" 0
                            (mkMatch 4 "wooorm/remark@deadbee1"
                                     [Some "wooorm"; Some "remark"; None; Some "deadbee1"])
                            _ _)) _).
    + vm_compute; reflexivity.
    + vm_compute; auto.
    + right. vm_compute; reflexivity.
Defined.

(** ** Validation of an existing link *)

(** C3.  A bare autolink whose page segment is spelt [ISSUES] and whose
    number is [abc] matches the literal-link pattern; its number has
    hexadecimal letters (the test [parse] makes on issue numbers says so),
    yet it passes every check of [parse], because those compare the page
    with the lower-case words, and has its children replaced, in the commit
    form.
    A commit link with a hash of three characters and a closing slash has
    its children replaced as well: the slash is part of the group whose
    length [parse] checks. *)
Theorem C3_uppercase_page_escapes_validation :
  (exists m,
      exec linkRegex (urlOf upperIssueLink) 0 = Some m
      /\ grp m 3 = "ISSUES" /\ grp m 4 = "abc"
      /\ test reHexLetter (grp m 4) = true
      /\ invalid m = false
      /\ linkNormalizer upperIssueLink
         = link "https://github.com/u/p/ISSUES/abc" None
                [text "u@"; inlineCode "abc"])
  /\ (exists m,
         exec linkRegex (urlOf slashCommitLink) 0 = Some m
         /\ grp m 3 = "commit" /\ grp m 4 = "abc/"
         /\ linkNormalizer slashCommitLink
            = link "https://github.com/u/p/commit/abc/" None
                   [text "u@"; inlineCode "abc/"]).
Proof.
  split.
  - exists (mkMatch 0 "https://github.com/u/p/ISSUES/abc"
                    [Some "u"; Some "p"; Some "ISSUES"; Some "abc"]).
    repeat split; vm_compute; reflexivity.
  - exists (mkMatch 0 "https://github.com/u/p/commit/abc/"
                    [Some "u"; Some "p"; Some "commit"; Some "abc/"]).
    repeat split; vm_compute; reflexivity.
Qed.

(** ** Idempotence of the normaliser *)

(** C4.  Normalising a tree twice gives what normalising it once gives.
    The reason: a link the first run rewrote has children [display l],
    which are never a single text equal to the URL, so [parse] refuses the
    link the second time. *)
Theorem C4_normalizer_idempotent :
  (forall tree, linkNormalizer (linkNormalizer tree) = linkNormalizer tree)
  /\ (forall url title l,
         parse (link url title [text url]) = Some l ->
         linkNormalizer (link url title [text url]) = link url title (display l)
         /\ (forall v, display l = [text v] -> v <> url)
         /\ parse (link url title (display l)) = None).
Proof.
  split; [exact visitLinks_idem|].
  intros url title l H.
  pose proof (parse_display _ _ title H) as Hn. cbn [urlOf] in Hn.
  split; [|split; [|exact Hn]].
  - unfold linkNormalizer. rewrite visitLinks_link, H. reflexivity.
  - intros v Hd ->. rewrite Hd in Hn. congruence.
Qed.

Lemma C4_witness :
  parse (link "https://github.com/wooorm/remark-github/issues/12" None
              [text "wooorm#12"]) = None.
Proof.
  apply (proj2 C4_normalizer_idempotent
           "https://github.com/wooorm/remark-github/issues/12" None
           (mkParsed "wooorm" "remark-github" "issues" "12" false)).
  vm_compute; reflexivity.
Defined.

(** ** The denylist *)

(** C5.  Whatever the configuration, [replaceMention] answers [false] for
    the user names [mention] and [mentions], and does so without a call of
    the [buildUrl] hook (the list of calls is empty); a paragraph holding
    only the two words comes out of the scanner as it went in. *)
Theorem C5_denylist (options : Options) (value username : string) (mt : MatchInfo) :
  username = "mention" \/ username = "mentions" ->
  replaceMention options value username mt = (None, [])
  /\ textScanner options (parent "paragraph" [text "@mention and @mentions"])
     = (parent "paragraph" [text "@mention and @mentions"], []).
Proof.
  intros H. split.
  - unfold replaceMention.
    assert (Hd : denied username = true) by (destruct H as [-> | ->]; reflexivity).
    rewrite Hd, !orb_true_r. reflexivity.
  - vm_compute. reflexivity.
Qed.

Lemma C5_witness :
  replaceMention emptyUrlOptions "@mention" "mention" (mkInfo "hi @mention" 3)
  = (None, []).
Proof.
  apply (C5_denylist emptyUrlOptions "@mention" "mention" (mkInfo "hi @mention" 3)).
  left; reflexivity.
Defined.

(** ** The boundary of a mention *)

(** C6.  [replaceMention] answers [false], with no call of the hook, when
    the character before the match is a word character or a backtick, or
    the character after it is a word character, a slash or a backtick; and
    of the text around the match it reads those two characters only: two
    match objects that agree on them get the same answer. *)
Theorem C6_mention_boundary (options : Options) (value username : string)
        (mt mt' : MatchInfo) :
  ((exists c, Str.charAt (input mt) (offset mt - 1) = String c EmptyString
              /\ (is_word c = true \/ c = "`"%char))
   \/ (exists c, Str.charAt (input mt) (offset mt + Z.of_nat (String.length value))
                 = String c EmptyString
                 /\ (is_word c = true \/ c = "/"%char \/ c = "`"%char)) ->
   replaceMention options value username mt = (None, []))
  /\ (Str.charAt (input mt) (offset mt - 1) = Str.charAt (input mt') (offset mt' - 1) ->
      Str.charAt (input mt) (offset mt + Z.of_nat (String.length value))
      = Str.charAt (input mt') (offset mt' + Z.of_nat (String.length value)) ->
      replaceMention options value username mt
      = replaceMention options value username mt').
Proof.
  split.
  - intros [(c & E & Hc) | (c & E & Hc)]; unfold replaceMention; rewrite E.
    + rewrite test_wordTick.
      destruct Hc as [-> | ->]; reflexivity.
    + rewrite test_slashWordTick.
      destruct Hc as [Hc | [-> | ->]];
        [rewrite Hc | ..]; rewrite ?orb_true_r; reflexivity.
  - intros E1 E2. unfold replaceMention. rewrite E1, E2. reflexivity.
Qed.

Lemma C6_witness :
  replaceMention noOptions "@foo" "foo" (mkInfo "a@foo" 1) = (None, []).
Proof.
  apply (proj1 (C6_mention_boundary noOptions "@foo" "foo"
                  (mkInfo "a@foo" 1) (mkInfo "a@foo" 1))).
  left. exists "a"%char. split; [reflexivity | left; reflexivity].
Defined.

(** ** Order of the two passes *)

(** C7.  Scanning the text and then normalising the links gives the same
    tree, and the same calls of the hook, as normalising first and scanning
    second; and every node the scanner puts in place of a text is left as
    it is by the normaliser. *)
Theorem C7_pass_order (options : Options) (tree : Node) :
  (t <- textScanner options tree ;; ret (linkNormalizer t))
  = (t <- ret (linkNormalizer tree) ;; textScanner options t)
  /\ remarkGithub options tree = textScanner options (linkNormalizer tree)
  /\ (forall value,
         Forall (fun n => linkNormalizer n = n)
                (fst (handler referenceRegex (referenceReplacer options) value))
         /\ Forall (fun n => linkNormalizer n = n)
                   (fst (handler mentionRegex (mentionReplacer options) value))).
Proof.
  assert (E : remarkGithub options tree = textScanner options (linkNormalizer tree)).
  { unfold remarkGithub. now rewrite bind_ret_cmap, scanner_commute. }
  split; [|split; [exact E|]].
  - fold (remarkGithub options tree). rewrite E.
    unfold bind, ret. now destruct (textScanner options (linkNormalizer tree)).
  - intros value. split; [apply reference_fresh | apply mention_fresh].
Qed.

(** ** Suppression by the builder *)




(** ** The repository option *)

(** The claim as stated fails: the hook is called as a method of the
    options object, so it can read [this.repository].  With
    [repositoryHook] the mention [@tivie] is linked when a repository is
    configured and left as text when none is, although the two
    configurations differ in [repository] only. *)
Lemma C9_counterexample :
  ~ (forall o1 o2 tree,
        mentionStrong o1 = mentionStrong o2 ->
        buildUrlHook o1 = buildUrlHook o2 ->
        fst (remarkGithub o1 tree) = fst (remarkGithub o2 tree)).
Proof.
  intros H.
  specialize (H (mkOptions (Some "wooorm/remark") None (Some repositoryHook))
                (mkOptions None None (Some repositoryHook))
                (parent "paragraph" [text "@tivie"]) eq_refl eq_refl).
  vm_compute in H. discriminate H.
Qed.

(** C9, amended.  The plugin's own code never reads [repository]: two
    configurations that agree on [mentionStrong] and on the [buildUrl]
    hook give the same tree and the same calls of the hook on every input,
    provided the hook, when there is one, answers every value alike on the
    two options objects (as every hook does that does not read
    [this.repository]); with no hook configured the proviso is empty. *)
Theorem C9_repository_unused (o1 o2 : Options) (tree : Node) :
  mentionStrong o1 = mentionStrong o2 ->
  buildUrlHook o1 = buildUrlHook o2 ->
  (forall hook v,
      buildUrlHook o1 = Some hook ->
      hook (receiver o1) v defaultBuildUrl = hook (receiver o2) v defaultBuildUrl) ->
  remarkGithub o1 tree = remarkGithub o2 tree.
Proof.
  intros Hs Hh Hr.
  assert (Hb : forall v, buildUrl o1 v = buildUrl o2 v).
  { intros v. unfold buildUrl. rewrite <- Hh.
    destruct (buildUrlHook o1) as [hook|] eqn:E; [|reflexivity].
    now rewrite (Hr hook v eq_refl). }
  assert (Hm : forall m v, mentionReplacer o1 m v = mentionReplacer o2 m v).
  { intros m v. unfold mentionReplacer, replaceMention. now rewrite Hb, Hs. }
  assert (Hf : forall m v, referenceReplacer o1 m v = referenceReplacer o2 m v).
  { intros m v. unfold referenceReplacer, replaceReference. now rewrite !Hb. }
  unfold remarkGithub, textScanner.
  rewrite (pass_ext referenceRegex _ _ Hf tree).
  f_equal.
  apply bind_ext. apply pass_ext. exact Hm.
Qed.

Lemma C9_witness :
  remarkGithub (mkOptions (Some "wooorm/remark") None (buildUrlHook appOptions))
               (parent "root" [text "@tivie wooorm#1"])
  = remarkGithub (mkOptions None None (buildUrlHook appOptions))
                 (parent "root" [text "@tivie wooorm#1"]).
Proof.
  apply C9_repository_unused; [reflexivity | reflexivity |].
  intros hook v H. injection H as <-. reflexivity.
Defined.

(** ** A match at the start of the text *)

(** C10.  At offset 0 the character before the match is [charAt(-1)], the
    empty string, on which neither test on the preceding character fires.
    So a mention there is linked as soon as the following character, the
    denylist and the builder (a non-empty URL) allow it, and so is a
    reference; the paragraph whose whole text is [@tivie] becomes a link to
    the user's page around the text in bold. *)
Theorem C10_start_of_text (options : Options) (input : string) :
  (Str.charAt input (0 - 1) = EmptyString
   /\ test reWordTick EmptyString = false
   /\ test reNotOpening EmptyString = false)
  /\ (forall value username u,
         test reSlashWordTick (Str.charAt input (0 + Z.of_nat (String.length value))) = false ->
         denied username = false ->
         fst (buildUrl options (mention username)) = Some u ->
         u <> EmptyString ->
         linked (fst (replaceMention options value username (mkInfo input 0))) u)
  /\ (forall all user project no hash u,
         test reWord (Str.charAt input (0 + Z.of_nat (String.length all))) = false ->
         captured no hash ->
         fst (buildUrl options (referenceValue user project no hash)) = Some u ->
         u <> EmptyString ->
         linked (fst (replaceReference options all user project no hash (mkInfo input 0))) u)
  /\ remarkGithub noOptions (parent "paragraph" [text "@tivie"])
     = (parent "paragraph"
               [link "https://github.com/tivie" None [strong [text "@tivie"]]], []).
Proof.
  split; [repeat split|]. split; [|split].
  - intros value username u Hn Hd Hu Hne.
    rewrite (replaceMention_valid options value username (mkInfo input 0)
               (conj eq_refl Hn) Hd).
    unfold cmap, linked; cbn [fst]. rewrite Hu, (truthy_some _ Hne). eauto.
  - intros all user project no hash u Hn Hc Hu Hne.
    rewrite (replaceReference_valid options all user project no hash (mkInfo input 0)
               (conj eq_refl Hn) Hc).
    unfold cmap, linked; cbn [fst]. rewrite Hu, (truthy_some _ Hne). eauto.
  - vm_compute. reflexivity.
Qed.

Lemma C10_witness :
  linked (fst (replaceMention noOptions "@tivie" "tivie" (mkInfo "@tivie" 0)))
         "https://github.com/tivie".
Proof.
  apply (proj1 (proj2 (C10_start_of_text noOptions "@tivie")) "@tivie" "tivie");
    [reflexivity | reflexivity | reflexivity | discriminate].
Defined.

(* ================================================================== *)
(** * Further properties of the plugin *)
(* ================================================================== *)

Import ShapeFacts ScannerFacts AcceptFacts.

(** ** What [parse] accepts *)

(** X1.  A link [parse] accepts is a bare autolink (one text child equal to
    the URL) and its URL reads, from the first character on:
    [http://github.com/] or [https://github.com/] in either case; the user,
    a letter or digit followed by at most 38 letters, digits or hyphens;
    a slash; the project, 1 to 99 word characters, hyphens or dots; a
    slash; the page, one of [commit], [compare], [issues], [pull] in either
    case; a slash; the payload, hexadecimal digits, optionally three dots
    and more digits, optionally a closing slash; and then nothing, or a
    [#] or [?] and anything.  The record returned holds exactly these
    user, project and page; outside [compare] its reference is the
    abbreviated payload; and its comment flag is set exactly when the
    payload is followed by [#] and at least one more character. *)
Theorem accepted_link_anatomy (node : Node) (l : ParsedLink) :
  parse node = Some l ->
  exists url title scheme payload rest',
    node = link url title [text url]
    /\ url = (scheme ++ user l ++ "/" ++ project l ++ "/" ++ page l ++ "/"
                     ++ payload ++ rest')%string
    /\ (upper scheme = "HTTP://GITHUB.COM/" \/ upper scheme = "HTTPS://GITHUB.COM/")
    /\ userShape (user l)
    /\ (1 <= String.length (project l) <= 99
        /\ Sall (fun c => isProjectChar c = true) (project l))
    /\ pageWord (page l)
    /\ payloadShape payload
    /\ (rest' = EmptyString
        \/ exists a s, rest' = String a s /\ (a = "#"%char \/ a = "?"%char))
    /\ (String.eqb (page l) "compare" = false -> reference l = abbr payload)
    /\ (comment l = true <-> exists r, rest' = String "#" r /\ r <> EmptyString).
Proof.
  intros H. apply parse_inv in H as (url & title & m & -> & Ex & Hv & ->).
  destruct (link_anatomy _ _ Ex)
    as (scheme & rest' & Eu & Ew & _ & Hs & Hu & (Lp & Sp) & Hpg & Hpay & Hr).
  exists url, title, scheme, (grp m 4), rest'.
  unfold parsed. cbn [user project page comment reference].
  split; [reflexivity|]. split; [exact Eu|]. split; [exact Hs|]. split; [exact Hu|].
  split.
  { split; [split; [exact Lp|] | exact Sp].
    unfold invalid in Hv. apply orb_false_elim in Hv as (_ & Hv).
    apply Nat.leb_gt in Hv. lia. }
  split; [exact Hpg|]. split; [exact Hpay|]. split; [exact Hr|].
  split; [intros ->; reflexivity|].
  assert (E : url = (whole m ++ rest')%string).
  { rewrite Ew. rewrite Eu at 1.
    repeat (rewrite app_assoc || (progress cbn [append])). reflexivity. }
  rewrite E at 1 2. apply comment_flag.
Qed.

Lemma accepted_link_anatomy_witness :
  exists url title scheme payload rest',
    link "HTTP://GitHub.com/wooorm/remark.js/pull/12/#discussion_r1" None
         [text "HTTP://GitHub.com/wooorm/remark.js/pull/12/#discussion_r1"]
    = link url title [text url]
    /\ url = (scheme ++ "wooorm" ++ "/" ++ "remark.js" ++ "/" ++ "pull" ++ "/"
                     ++ payload ++ rest')%string
    /\ (upper scheme = "HTTP://GITHUB.COM/" \/ upper scheme = "HTTPS://GITHUB.COM/")
    /\ userShape "wooorm"
    /\ (1 <= String.length "remark.js" <= 99
        /\ Sall (fun c => isProjectChar c = true) "remark.js")
    /\ pageWord "pull"
    /\ payloadShape payload
    /\ (rest' = EmptyString
        \/ exists a s, rest' = String a s /\ (a = "#"%char \/ a = "?"%char))
    /\ (String.eqb "pull" "compare" = false -> "12/" = abbr payload)
    /\ (true = true <-> exists r, rest' = String "#" r /\ r <> EmptyString).
Proof.
  apply (accepted_link_anatomy
           (link "HTTP://GitHub.com/wooorm/remark.js/pull/12/#discussion_r1" None
                 [text "HTTP://GitHub.com/wooorm/remark.js/pull/12/#discussion_r1"])
           (mkParsed "wooorm" "remark.js" "pull" "12/" true)).
  vm_compute; reflexivity.
Defined.

(** ** The label the normaliser gives *)

(** X2.  A link [parse] accepts is a bare autolink and the normaliser
    replaces its one child by the label: for an issue or a pull request a
    single text, the user, [#], the reference and, when the comment flag is
    set, [ (comment)]; otherwise the text of the user and [@], a code span
    with the reference and, when the flag is set, a text [ (comment)].  The
    user is never empty (1 to 39 characters), so the text in front of the
    code span is never left out; the reference has 1 to 17 characters, and
    at most 7 when the page is not [compare]. *)
Theorem relabel_shape (node : Node) (l : ParsedLink) :
  parse node = Some l ->
  (exists url title,
      node = link url title [text url]
      /\ linkNormalizer node = link url title (display l))
  /\ display l
     = (if String.eqb (page l) "issues" || String.eqb (page l) "pull"
        then [text (user l ++ "#" ++ reference l
                           ++ (if comment l then " (comment)" else EmptyString))]
        else [text (user l ++ "@"); inlineCode (reference l)]
               ++ (if comment l then [text " (comment)"] else []))%list
  /\ 1 <= String.length (user l) <= 39
  /\ 1 <= String.length (reference l) <= 17
  /\ (page l <> "compare" -> String.length (reference l) <= 7).
Proof.
  intros H.
  pose proof (parse_inv _ _ H) as (url & title & m & En & Em & Hinv & El).
  pose proof (parse_reference _ _ H) as (m' & Em' & Hp & Hr).
  rewrite En in Em'. cbn [urlOf] in Em'. rewrite Em in Em'. injection Em' as <-.
  pose proof (link_anatomy _ _ Em) as (sc & rs & _ & _ & _ & _ & Hu & _ & _ & Hpay & _).
  apply payloadShape_nonempty in Hpay.
  assert (Eu : user l = grp m 1) by (rewrite El; reflexivity).
  rewrite <- Eu in Hu.
  split; [|split; [|split; [|split]]].
  - exists url, title. split; [exact En|].
    rewrite En. unfold linkNormalizer. cbn [visitLinks]. rewrite <- En, H. reflexivity.
  - unfold display. rewrite (userShape_truthy (user l)) by exact Hu.
    destruct (_ || _); [now rewrite app_assoc|].
    now destruct (comment l).
  - destruct Hu as (a & r & -> & Hl & _). simpl. lia.
  - destruct (String.eqb (page l) "compare").
    + destruct Hr as (b & c & _ & Hb & Hc & ->).
      apply proj1, abbr_short in Hb. apply proj1, abbr_short in Hc.
      rewrite !length_app. simpl. lia.
    + rewrite Hr. pose proof (abbr_length (grp m 4)).
      pose proof (abbr_nonempty _ Hpay). lia.
  - intros Hne. destruct (String.eqb (page l) "compare") eqn:E.
    + apply String.eqb_eq in E. contradiction.
    + rewrite Hr. apply abbr_length.
Qed.

Lemma relabel_shape_witness :
  display (mkParsed "wooorm" "remark" "pull" "12" true) = [text "wooorm#12 (comment)"].
Proof.
  apply (relabel_shape
           (link "https://github.com/wooorm/remark/pull/12#issuecomment-1" None
                 [text "https://github.com/wooorm/remark/pull/12#issuecomment-1"])
           (mkParsed "wooorm" "remark" "pull" "12" true)).
  vm_compute; reflexivity.
Defined.

(** X3.  The normaliser changes labels only: the targets and titles of the
    links of a tree, in document order, are the same after it as before. *)
Theorem normalizer_keeps_targets (tree : Node) :
  links (linkNormalizer tree) = links tree.
Proof.
  unfold linkNormalizer.
  induction tree as [v|v|c IH|u t c IH|c IH|k c IH|k v] using Node_ind;
    try reflexivity; cbn [visitLinks links];
    try (now rewrite (flat_map_links_visit c IH)).
  destruct (parse (link u t c)) as [l|] eqn:E; cbn [links].
  - apply parse_inv in E as (u' & t' & m & En & _). injection En as <- <- ->.
    now rewrite display_links.
  - now rewrite (flat_map_links_visit c IH).
Qed.

(** ** What the scanning patterns match *)

(** X4.  Every match of the reference pattern, wherever it is found, is a
    user name (a letter or digit and at most 38 more letters, digits or
    hyphens), optionally a slash and a project of word characters, hyphens
    and dots, and then either [#] and a number that starts with a digit
    from 1 to 9 (a leading zero never matches), or [@] and 7 to 40
    hexadecimal digits.  Group 1 is the user, group 2 the project when
    there is one, and of groups 3 and 4 exactly one is set: the number or
    the hash. *)
Theorem reference_shape (s : string) (i : nat) (m : Match) :
  exec referenceRegex s i = Some m ->
  exists usr proj tail,
    whole m = (usr ++ proj ++ tail)%string
    /\ group m 1 = Some usr /\ userShape usr
    /\ ((group m 2 = None /\ proj = EmptyString)
        \/ exists p, group m 2 = Some p /\ proj = ("/" ++ p)%string /\ projectShape p)
    /\ ((exists d ds, group m 3 = Some (String d ds) /\ group m 4 = None
                      /\ tail = ("#" ++ String d ds)%string
                      /\ between "1" "9" d = true
                      /\ Sall (fun c => is_digit c = true) ds)
        \/ (exists h, group m 3 = None /\ group m 4 = Some h
                      /\ tail = ("@" ++ h)%string
                      /\ 7 <= String.length h <= 40
                      /\ Sall (fun c => isHex c = true) h)).
Proof. exact (reference_anatomy s i m). Qed.

Lemma reference_shape_witness :
  exists usr proj tail,
    "wooorm/remark.js@0123abcd" = (usr ++ proj ++ tail)%string
    /\ Some "wooorm" = Some usr /\ userShape usr
    /\ ((Some "remark.js" = None /\ proj = EmptyString)
        \/ exists p, Some "remark.js" = Some p /\ proj = ("/" ++ p)%string
                     /\ projectShape p)
    /\ ((exists d ds, @None string = Some (String d ds) /\ Some "0123abcd" = None
                      /\ tail = ("#" ++ String d ds)%string
                      /\ between "1" "9" d = true
                      /\ Sall (fun c => is_digit c = true) ds)
        \/ (exists h, @None string = None /\ Some "0123abcd" = Some h
                      /\ tail = ("@" ++ h)%string
                      /\ 7 <= String.length h <= 40
                      /\ Sall (fun c => isHex c = true) h)).
Proof.
  apply (reference_shape "in wooorm/remark.js@0123abcd" 0
           (mkMatch 3 "wooorm/remark.js@0123abcd"
                    [Some "wooorm"; Some "remark.js"; None; Some "0123abcd"])).
  vm_compute; reflexivity.
Defined.

(** X5.  Every mention [replaceMention] links is [@] and a name, which is
    a user name or two user names around a slash (a team); the builder was
    asked about that name and gave a non-empty URL, which is
    [https://github.com/] and the name when no hook is configured; and the
    link has no title and one child: the matched text itself, in bold
    unless [mentionStrong] is [false]. *)
Theorem mention_link (options : Options) (value : string) (i : nat) (m : Match)
        (node : Node) :
  exec mentionRegex value i = Some m ->
  fst (mentionReplacer options m value) = Some node ->
  exists name url,
    whole m = ("@" ++ name)%string
    /\ (userShape name
        \/ exists org team, name = (org ++ "/" ++ team)%string
                            /\ userShape org /\ userShape team)
    /\ fst (buildUrl options (mention name)) = Some url
    /\ url <> EmptyString
    /\ (buildUrlHook options = None -> url = ("https://github.com/" ++ name)%string)
    /\ node = link url None
                   [match mentionStrong options with
                    | Some false => text ("@" ++ name)
                    | _ => strong [text ("@" ++ name)]
                    end].
Proof.
  intros E Hn.
  pose proof (mention_anatomy _ _ _ E) as (name & Ew & Eg & Hs).
  exists name.
  unfold mentionReplacer, replaceMention in Hn.
  unfold grp in Hn. rewrite Eg, Ew in Hn.
  destruct (_ || _); [cbn [ret fst] in Hn; discriminate|].
  rewrite fst_bind in Hn.
  destruct (fst (buildUrl options (mention name))) as [url|] eqn:Eu;
    [|cbn in Hn; discriminate].
  exists url.
  destruct (String.eqb url EmptyString) eqn:Ee;
    cbn [truthy negb] in Hn; rewrite Ee in Hn; cbn [negb ret fst] in Hn;
    [discriminate|].
  injection Hn as <-.
  split; [exact Ew|]. split; [exact Hs|]. split; [reflexivity|].
  split; [intros ->; discriminate|]. split.
  - intros Hh. unfold buildUrl in Eu. rewrite Hh in Eu. cbn in Eu.
    now injection Eu as <-.
  - now destruct (mentionStrong options) as [[]|].
Qed.

Lemma mention_link_witness :
  exists name url,
    "@remarkjs/core" = ("@" ++ name)%string
    /\ (userShape name
        \/ exists org team, name = (org ++ "/" ++ team)%string
                            /\ userShape org /\ userShape team)
    /\ fst (buildUrl noOptions (mention name)) = Some url
    /\ url <> EmptyString
    /\ (buildUrlHook noOptions = None -> url = ("https://github.com/" ++ name)%string)
    /\ link "https://github.com/remarkjs/core" None [strong [text "@remarkjs/core"]]
       = link url None
              [match mentionStrong noOptions with
               | Some false => text ("@" ++ name)
               | _ => strong [text ("@" ++ name)]
               end].
Proof.
  apply (mention_link noOptions "ask @remarkjs/core" 0
           (mkMatch 4 "@remarkjs/core" [Some "remarkjs/core"])).
  - vm_compute; reflexivity.
  - vm_compute; reflexivity.
Defined.

(** ** The boundary of a reference *)

(** X6.  [replaceReference] goes on to the URL builder exactly when the
    character before the match is missing (start of the text) or one of
    tab, line feed, carriage return, space, [(], [@], [[] and [{], and the
    character after the match is missing (end of the text) or not a word
    character.  In that case its answer is decided by the builder alone (a
    link to the URL returned when it is non-empty, [false] otherwise) and
    the hook, when there is one, is called exactly once; in every other
    case it answers [false] with no call of the hook.  Of the text around
    the match it reads those two characters only: two match objects that
    agree on them get the same answer. *)
Theorem reference_boundary (options : Options) (all usr : string)
        (proj no hash : option string) (mt mt' : MatchInfo) :
  (validReference all mt <->
   (Str.charAt (input mt) (offset mt - 1) = EmptyString
    \/ exists c, Str.charAt (input mt) (offset mt - 1) = String c EmptyString
                 /\ In c openers)
   /\ (Str.charAt (input mt) (offset mt + Z.of_nat (String.length all)) = EmptyString
       \/ exists c, Str.charAt (input mt) (offset mt + Z.of_nat (String.length all))
                    = String c EmptyString
                    /\ is_word c = false))
  /\ (~ validReference all mt ->
      replaceReference options all usr proj no hash mt = (None, []))
  /\ (validReference all mt -> captured no hash ->
      replaceReference options all usr proj no hash mt
      = cmap (fun url => if truthy url
                         then Some (link (match url with
                                          | Some u => u
                                          | None => EmptyString
                                          end)
                                         None (referenceDisplay no hash))
                         else None)
             (buildUrl options (referenceValue usr proj no hash)))
  /\ (forall hook,
         buildUrlHook options = Some hook ->
         (validReference all mt
          <-> exists v, snd (replaceReference options all usr proj no hash mt) = [v]))
  /\ (Str.charAt (input mt) (offset mt - 1) = Str.charAt (input mt') (offset mt' - 1) ->
      Str.charAt (input mt) (offset mt + Z.of_nat (String.length all))
      = Str.charAt (input mt') (offset mt' + Z.of_nat (String.length all)) ->
      replaceReference options all usr proj no hash mt
      = replaceReference options all usr proj no hash mt').
Proof.
  split; [apply validReference_iff|]. split; [apply replaceReference_guard|].
  split; [apply replaceReference_valid|]. split.
  - intros hook Hh. split.
    + intros (H1 & H2). unfold replaceReference. rewrite H1, H2. cbn [orb].
      unfold buildUrl. rewrite Hh.
      destruct (truthy no); unfold bind;
        match goal with |- context [negb (truthy ?u)] => destruct (negb (truthy u)) end;
        cbn [ret snd List.app]; eauto.
    + intros (v & Hv). unfold validReference.
      destruct (test reNotOpening _) eqn:H1;
        [unfold replaceReference in Hv; rewrite H1 in Hv; discriminate Hv|].
      destruct (test reWord _) eqn:H2;
        [unfold replaceReference in Hv; rewrite H1, H2 in Hv; discriminate Hv|].
      split; reflexivity.
  - intros H1 H2. unfold replaceReference. now rewrite H1, H2.
Qed.

Lemma reference_boundary_witness :
  replaceReference noOptions "wooorm#1" "wooorm" None (Some "1") None
                   (mkInfo "see:wooorm#1" 4) = (None, [])
  /\ replaceReference appOptions "wooorm#1" "wooorm" None (Some "1") None
                      (mkInfo "see wooorm#1" 4)
     = (Some (link "https://github.com/wooorm//issues/1" None [text "#1"]),
        [issue "wooorm" None "1"]).
Proof.
  split.
  - apply (proj1 (proj2 (reference_boundary noOptions "wooorm#1" "wooorm" None (Some "1")
                           None (mkInfo "see:wooorm#1" 4) (mkInfo "see:wooorm#1" 4)))).
    vm_compute. intros (H & _). discriminate.
  - refine (eq_trans
              (proj1 (proj2 (proj2 (reference_boundary appOptions "wooorm#1" "wooorm"
                                      None (Some "1") None (mkInfo "see wooorm#1" 4)
                                      (mkInfo "see wooorm#1" 4)))) _ _) _).
    + vm_compute; auto.
    + constructor. discriminate.
    + reflexivity.
Defined.

(** ** What the scanner leaves alone *)

(** X7.  The mention pass never changes what a tree reads as: whatever the
    configuration, the text content of the tree after the pass is the text
    content before it.  Links are wrapped around mentions; no character is
    added, dropped or moved. *)
Theorem mention_pass_keeps_text (options : Options) (tree : Node) :
  toString (fst (pass mentionRegex (mentionReplacer options) tree)) = toString tree.
Proof.
  apply pass_content. intros value. apply handler_content; [reflexivity|].
  intros i m n _. apply mentionReplacer_content.
Qed.

(** X8.  A tree in which no scanned text (a text outside links and link
    references) holds a [#] or an [@] comes out of the text scanner as it
    went in, and the hook is not called once; the whole transform is then
    the link normaliser alone. *)
Theorem unmarked_text_untouched (options : Options) (tree : Node) :
  (forall v, In v (texts tree) -> hasChar "#" v = false /\ hasChar "@" v = false) ->
  textScanner options tree = (tree, [])
  /\ remarkGithub options tree = (linkNormalizer tree, []).
Proof.
  intros H.
  assert (Hs : textScanner options tree = (tree, [])).
  { unfold textScanner. rewrite pass_unchanged.
    - cbn [bind]. rewrite pass_unchanged; [reflexivity|].
      intros v Hv. apply handler_no_match.
      destruct (exec mentionRegex v 0) as [m|] eqn:E; [|reflexivity].
      apply mention_needs_at in E. destruct (H v Hv) as (_ & Ha). congruence.
    - intros v Hv. apply handler_no_match.
      destruct (exec referenceRegex v 0) as [m|] eqn:E; [|reflexivity].
      apply reference_needs_mark in E. destruct (H v Hv) as (Hh & Ha).
      rewrite Hh, Ha in E. discriminate. }
  split; [exact Hs|]. unfold remarkGithub. rewrite Hs. reflexivity.
Qed.

Lemma unmarked_text_untouched_witness :
  textScanner appOptions (parent "paragraph" [text "see 1234567 "; strong [text "now"]])
  = (parent "paragraph" [text "see 1234567 "; strong [text "now"]], []).
Proof.
  apply (proj1 (unmarked_text_untouched appOptions
                  (parent "paragraph" [text "see 1234567 "; strong [text "now"]])
                  ltac:(simpl; intros v [<- | [<- | []]]; split; reflexivity))).
Defined.

(** ** The hook of the demonstration application *)

(** X9.  With the hook of the demonstration application (no link for a
    mention, the default URL for everything else) the mention pass leaves
    every tree as it is, and the tree the whole transform returns is the
    one the reference pass and the normaliser give with no hook
    configured: the hook switches mentions off and changes nothing
    else. *)
Theorem application_hook_effect (tree : Node) :
  fst (pass mentionRegex (mentionReplacer appOptions) tree) = tree
  /\ fst (remarkGithub appOptions tree)
     = linkNormalizer (fst (pass referenceRegex (referenceReplacer noOptions) tree)).
Proof.
  assert (Hm : forall t, fst (pass mentionRegex (mentionReplacer appOptions) t) = t).
  { intros t. apply pass_fst_unchanged. intros v. apply handler_refused.
    intros i m _. eapply mentionReplacer_none; [reflexivity|]. intros; reflexivity. }
  split; [apply Hm|].
  unfold remarkGithub, textScanner. rewrite !fst_bind. cbn [ret fst].
  rewrite Hm. f_equal. apply pass_fst_ext. apply referenceReplacer_app.
Qed.

(** ** The default URLs and the link pattern *)

(** X10.  The URLs [defaultBuildUrl] makes for a user and a project are
    read back by [parse].  For a user name, a project of 1 to 99 word
    characters, hyphens and dots with no dot followed by [git], and any
    title: the bare autolink to the commit URL of a hash of 4 to 40
    hexadecimal digits parses to that user, project, page [commit] and the
    abbreviated hash, and the normaliser labels it with the user, [@] and
    the abbreviated hash in a code span; the issue URL of a number parses
    to page [issues] and is labelled user, [#], number (abbreviated); the
    compare URL of two lower-case hashes of 4 to 40 digits parses to page
    [compare] and is labelled with both abbreviations around three dots.
    None of them has the comment flag. *)
Theorem default_url_round_trip (usr proj : string) (title : option string) :
  userShape usr -> plainProject proj -> 1 <= String.length proj <= 99 ->
  (forall hash,
      Sall (fun c => isHex c = true) hash -> 4 <= String.length hash <= 40 ->
      let url := defaultBuildUrl (commit usr (Some proj) hash) in
      parse (link url title [text url])
      = Some (mkParsed usr proj "commit" (abbr hash) false)
      /\ linkNormalizer (link url title [text url])
         = link url title [text (usr ++ "@"); inlineCode (abbr hash)])
  /\ (forall no,
         Sall (fun c => is_digit c = true) no -> 1 <= String.length no ->
         let url := defaultBuildUrl (issue usr (Some proj) no) in
         parse (link url title [text url])
         = Some (mkParsed usr proj "issues" (abbr no) false)
         /\ linkNormalizer (link url title [text url])
            = link url title [text (usr ++ "#" ++ abbr no)])
  /\ (forall b c,
         Sall lowerHex b -> Sall lowerHex c ->
         4 <= String.length b <= 40 -> 4 <= String.length c <= 40 ->
         let url := defaultBuildUrl (compare usr (Some proj) b c) in
         parse (link url title [text url])
         = Some (mkParsed usr proj "compare" (abbr b ++ "..." ++ abbr c) false)
         /\ linkNormalizer (link url title [text url])
            = link url title [text (usr ++ "@");
                              inlineCode (abbr b ++ "..." ++ abbr c)]).
Proof.
  intros Hu Hp Lp.
  pose proof (userShape_truthy _ Hu) as Ht.
  split; [|split].
  - intros hash Hh Lh url.
    assert (P : parse (link url title [text url])
                = Some (mkParsed usr proj "commit" (abbr hash) false)).
    { destruct (parse_autolink usr proj "commit" hash title Hu Hp (proj1 Lp))
        as (m & E & E1 & E2 & E3 & E4 & Ew).
      - simpl; auto.
      - now apply hexes_plain.
      - intros p. exists (p + String.length hash). apply payload_way_hex; [exact Hh | lia].
      - change url with ("https://github.com/" ++ usr ++ "/" ++ proj ++ "/" ++ "commit"
                                               ++ "/" ++ hash)%string.
        rewrite E. unfold invalid, parsed. rewrite (comment_none _ _ Ew), E1, E2, E3, E4.
        cbn [String.eqb Ascii.eqb Bool.eqb andb orb].
        replace (String.length hash <? 4) with false by (symmetry; apply Nat.ltb_ge; lia).
        replace (40 <? String.length hash) with false by (symmetry; apply Nat.ltb_ge; lia).
        replace (100 <=? String.length proj) with false by (symmetry; apply Nat.leb_gt; lia).
        reflexivity. }
    split; [exact P|]. rewrite (normalize_parsed _ _ _ P).
    unfold display. cbn [user page reference comment]. rewrite Ht. reflexivity.
  - intros no Hn Ln url.
    assert (P : parse (link url title [text url])
                = Some (mkParsed usr proj "issues" (abbr no) false)).
    { assert (Hh : Sall (fun c => isHex c = true) no)
        by (eapply Sall_impl; [|exact Hn]; apply digit_hex).
      destruct (parse_autolink usr proj "issues" no title Hu Hp (proj1 Lp))
        as (m & E & E1 & E2 & E3 & E4 & Ew).
      - simpl; auto.
      - now apply hexes_plain.
      - intros p. exists (p + String.length no). apply payload_way_hex; [exact Hh | lia].
      - change url with ("https://github.com/" ++ usr ++ "/" ++ proj ++ "/" ++ "issues"
                                               ++ "/" ++ no)%string.
        rewrite E. unfold invalid, parsed. rewrite (comment_none _ _ Ew), E1, E2, E3, E4.
        rewrite (digits_no_letter _ Hn).
        cbn [String.eqb Ascii.eqb Bool.eqb andb orb].
        replace (100 <=? String.length proj) with false by (symmetry; apply Nat.leb_gt; lia).
        reflexivity. }
    split; [exact P|]. rewrite (normalize_parsed _ _ _ P).
    unfold display. cbn [user page reference comment String.eqb Ascii.eqb Bool.eqb orb].
    now rewrite app_nil_r, app_assoc.
  - intros b c Hb Hc Lb Lc url.
    assert (P : parse (link url title [text url])
                = Some (mkParsed usr proj "compare" (abbr b ++ "..." ++ abbr c) false)).
    { assert (Hb' : Sall (fun c => isHex c = true) b)
        by (eapply Sall_impl; [|exact Hb]; apply lowerHex_hex).
      assert (Hc' : Sall (fun c => isHex c = true) c)
        by (eapply Sall_impl; [|exact Hc]; apply lowerHex_hex).
      destruct (parse_autolink usr proj "compare" (b ++ "..." ++ c) title Hu Hp (proj1 Lp))
        as (m & E & E1 & E2 & E3 & E4 & Ew).
      - simpl; auto.
      - apply Sall_app. split; [now apply hexes_plain|].
        cbn [append Sall]. repeat split; try discriminate. now apply hexes_plain.
      - intros p. apply payload_way_range; try assumption; lia.
      - change url with ("https://github.com/" ++ usr ++ "/" ++ proj ++ "/" ++ "compare"
                                               ++ "/" ++ (b ++ "..." ++ c))%string.
        rewrite E. unfold invalid, parsed. rewrite (comment_none _ _ Ew), E1, E2, E3, E4.
        rewrite (compare_accepts b c Hb Hc Lb Lc), (split_compare b c Hb Hc).
        cbn [String.eqb Ascii.eqb Bool.eqb andb orb negb].
        replace (100 <=? String.length proj) with false by (symmetry; apply Nat.leb_gt; lia).
        reflexivity. }
    split; [exact P|]. rewrite (normalize_parsed _ _ _ P).
    unfold display. cbn [user page reference comment]. rewrite Ht. reflexivity.
Qed.

Lemma default_url_round_trip_witness :
  linkNormalizer (link "https://github.com/wooorm/remark.js/commit/0123ABCDEF" None
                       [text "https://github.com/wooorm/remark.js/commit/0123ABCDEF"])
  = link "https://github.com/wooorm/remark.js/commit/0123ABCDEF" None
         [text "wooorm@"; inlineCode "0123ABC"].
Proof.
  refine (proj2 (proj1 (default_url_round_trip "wooorm" "remark.js" None _ _ _)
                       "0123ABCDEF" _ _)).
  - exists "w"%char, "ooorm". simpl. repeat split; lia.
  - simpl. repeat split;
      first [left; reflexivity | right; right; split; reflexivity].
  - simpl; lia.
  - simpl. repeat split.
  - simpl; lia.
Defined.

(** X11.  A reference without a project ([user#1], [user@0123abc]) that
    [replaceReference] links with no hook configured gets a URL with an
    empty project segment: [https://github.com/], the user and two
    slashes.  The link pattern does not match such a URL, so [parse]
    refuses every link to it, whatever its title and children. *)
Theorem projectless_reference (options : Options) (value : string) (i : nat)
        (m : Match) (node : Node) :
  buildUrlHook options = None ->
  exec referenceRegex value i = Some m ->
  group m 2 = None ->
  fst (referenceReplacer options m value) = Some node ->
  exists url children rest,
    node = link url None children
    /\ url = ("https://github.com/" ++ grp m 1 ++ "//" ++ rest)%string
    /\ exec linkRegex url 0 = None
    /\ forall title children', parse (link url title children') = None.
Proof.
  intros Hh E E2 Hn.
  pose proof (reference_anatomy _ _ _ E) as (usr & pr & tail & _ & E1 & Hu & _ & Ht).
  unfold referenceReplacer, replaceReference in Hn.
  unfold grp in *. rewrite E1, E2 in *.
  destruct (_ || _); [cbn [ret fst] in Hn; discriminate|].
  rewrite fst_bind in Hn. unfold buildUrl in Hn. rewrite Hh in Hn.
  assert (Hx : forall rest title children',
             parse (link ("https://github.com/" ++ usr ++ "//" ++ rest) title children')
             = None).
  { intros rest title children'. rewrite parse_eq. cbn [urlOf].
    rewrite link_needs_project; [reflexivity | now apply userShape_noslash]. }
  destruct Ht as [(d & ds & E3 & E4 & _) | (h & E3 & E4 & _)];
    rewrite E3, E4 in Hn; cbn in Hn; injection Hn as <-.
  - eexists _, _, ("issues/" ++ String d ds)%string. split; [reflexivity|].
    split; [reflexivity|]. split; [|apply Hx].
    apply link_needs_project. now apply userShape_noslash.
  - eexists _, _, ("commit/" ++ h)%string. split; [reflexivity|].
    split; [reflexivity|]. split; [|apply Hx].
    apply link_needs_project. now apply userShape_noslash.
Qed.

Lemma projectless_reference_witness :
  exists url children rest,
    link "https://github.com/wooorm//issues/12" None [text "#12"]
    = link url None children
    /\ url = ("https://github.com/" ++ "wooorm" ++ "//" ++ rest)%string
    /\ exec linkRegex url 0 = None
    /\ forall title children', parse (link url title children') = None.
Proof.
  apply (projectless_reference noOptions "see wooorm#12" 0
           (mkMatch 4 "wooorm#12" [Some "wooorm"; None; Some "12"; None])).
  - reflexivity.
  - vm_compute; reflexivity.
  - reflexivity.
  - vm_compute; reflexivity.
Defined.

(** ** One mention or one reference in a text *)

Import ForcedFacts SingleFacts.

(** X12.  A mention standing in a text is linked.  Let a text consist of
    [pre], [@], a user name other than the two denied ones, and [post],
    where [pre] and [post] hold no [@] and no [#], [pre] is empty or ends
    in a character outside [[\w.-]] other than a backtick, and [post] is
    empty or begins with a character that is no word character, hyphen,
    slash or backtick.  With no hook configured the transform turns a
    parent of that one text into the parent of: the text [pre] when it is
    not empty, a link to [https://github.com/] and the name around the
    mention (in bold unless [mentionStrong] is [false]), and the text
    [post] when it is not empty.  The name is matched whole and the hook
    list stays empty. *)
Theorem lone_mention_linked (options : Options) (kind pre usr post : string) :
  buildUrlHook options = None ->
  userShape usr -> denied usr = false ->
  hasChar "@" pre = false /\ hasChar "#" pre = false ->
  hasChar "@" post = false /\ hasChar "#" post = false ->
  clearBefore pre -> clearAfter post ->
  remarkGithub options (parent kind [text (pre ++ "@" ++ usr ++ post)])
  = (parent kind
       (span pre
        ++ [link ("https://github.com/" ++ usr) None
                 [match mentionStrong options with
                  | Some false => text ("@" ++ usr)
                  | _ => strong [text ("@" ++ usr)]
                  end]]
        ++ span post)%list, []).
Proof.
  intros Hh Hu Hd Hpre Hpost Cpre Cpost.
  pose proof (lone_mention_handler options pre usr post Hh Hu Hd Hpre Hpost Cpre Cpost)
    as Hm.
  pose proof (mention_fresh options (pre ++ "@" ++ usr ++ post)) as Hs.
  rewrite Hm in Hs. cbn [fst] in Hs.
  unfold remarkGithub, textScanner.
  rewrite pass_unchanged.
  2:{ intros v [<- | []]. apply handler_no_match.
      now apply (lone_mention_no_reference pre usr post Hu Hpre Hpost Cpre). }
  cbn [bind pass passChildren]. rewrite Hm. cbn [bind ret List.app].
  rewrite !List.app_nil_r. unfold linkNormalizer. cbn [visitLinks].
  cbn [List.app] in Hs. now rewrite (map_settled _ Hs).
Qed.

Lemma lone_mention_linked_witness :
  remarkGithub noOptions (parent "paragraph" [text "thanks (@wooorm-2)."])
  = (parent "paragraph"
            [text "thanks (";
             link "https://github.com/wooorm-2" None [strong [text "@wooorm-2"]];
             text ")."], []).
Proof.
  apply (lone_mention_linked noOptions "paragraph" "thanks (" "wooorm-2" ").").
  - reflexivity.
  - exists "w"%char, "ooorm-2". simpl. repeat split; lia.
  - reflexivity.
  - split; reflexivity.
  - split; reflexivity.
  - right. exists "thanks ", "("%char. repeat split; discriminate.
  - right. exists ")"%char, ".". repeat split; discriminate.
Defined.

(** X13.  A reference standing in a text is linked.  Let a text consist of
    [pre], a reference and [post], where the reference is a user name,
    optionally a slash and a plain project (word characters, hyphens and
    dots, no dot followed by [git]), and then [#] and a number that does
    not start with [0], or [@] and a hash of 7 to 40 hexadecimal digits;
    [pre] and [post] hold no [@] and no [#], [pre] is empty or ends in one
    of the opening characters (tab, line feed, carriage return, space,
    [(], [[], [{]), and [post] is empty or begins with a character that is
    no word character.  With no hook configured the transform turns a
    parent of that one text into the parent of: the text [pre] when it is
    not empty, a link to the default URL of the issue or commit with the
    label [#] and the number, or [@] and the abbreviated hash in a code
    span, and the text [post] when it is not empty.  User, project, number
    and hash are matched whole, and the hook list stays empty. *)
Theorem lone_reference_linked (options : Options) (kind pre usr post : string)
        (project no hash : option string) :
  buildUrlHook options = None ->
  userShape usr -> plainProjectOption project -> numberOrHash no hash ->
  hasChar "@" pre = false /\ hasChar "#" pre = false ->
  hasChar "@" post = false /\ hasChar "#" post = false ->
  openBefore pre -> closedAfter post ->
  remarkGithub options
    (parent kind [text (pre ++ referenceText usr project no hash ++ post)])
  = (parent kind
       (span pre
        ++ [link (defaultBuildUrl (referenceValue usr project no hash)) None
                 (referenceDisplay no hash)]
        ++ span post)%list, []).
Proof.
  intros Hh Hu Hp Hm Hpre Hpost Opre Cpost.
  pose proof (lone_reference_handler options pre usr post project no hash
                Hh Hu Hp Hm Hpre Hpost Opre Cpost) as Hr.
  pose proof (reference_fresh options (pre ++ referenceText usr project no hash ++ post))
    as Hs.
  rewrite Hr in Hs. cbn [fst List.app] in Hs.
  unfold remarkGithub, textScanner.
  cbn [pass passChildren]. rewrite Hr. cbn [bind ret List.app].
  rewrite !List.app_nil_r.
  rewrite pass_unchanged.
  2:{ intros v Hv. apply handler_no_match.
      destruct (exec mentionRegex v 0) as [m|] eqn:E; [exfalso | reflexivity].
      apply mention_needs_at in E.
      cbn [texts] in Hv. rewrite flat_map_app in Hv. apply in_app_or in Hv as [Hv | Hv].
      - apply span_texts in Hv. subst v. destruct Hpre as (Ha & _). congruence.
      - cbn [flat_map texts List.app] in Hv. apply span_texts in Hv. subst v.
        destruct Hpost as (Ha & _). congruence. }
  cbn [bind ret List.app]. unfold linkNormalizer. cbn [visitLinks].
  now rewrite (map_settled _ Hs).
Qed.

Lemma lone_reference_linked_witness :
  remarkGithub noOptions
    (parent "paragraph" [text "fixed in (wooorm/remark.js@0123abcdef), finally"])
  = (parent "paragraph"
            [text "fixed in (";
             link "https://github.com/wooorm/remark.js/commit/0123abcdef" None
                  [text "@"; inlineCode "0123abc"];
             text "), finally"], []).
Proof.
  apply (lone_reference_linked noOptions "paragraph" "fixed in (" "wooorm" "), finally"
           (Some "remark.js") None (Some "0123abcdef")).
  - reflexivity.
  - exists "w"%char, "ooorm". simpl. repeat split; lia.
  - simpl. repeat split;
      first [lia | left; reflexivity | right; right; split; reflexivity].
  - right. exists "0123abcdef". simpl. repeat split; lia.
  - split; reflexivity.
  - split; reflexivity.
  - right. exists "fixed in ", "("%char. split; [reflexivity | simpl; auto 10].
  - right. exists ")"%char, ", finally". split; reflexivity.
Defined.
